(** * website.py: identifier canonicalisation, direction extraction,
      confidence scoring and the join/normalisation passes of [main]

    A shallow embedding of the decision logic of [website.py].

    Conventions.
    - A Python [str] is a [string]; the text functions work on its list of
      characters ([list ascii], code points below 256).  Case folding and
      whitespace follow Python's [str.lower] / [str.isspace] on that range.
    - [os.path] is [posixpath].
    - A Python [float] is an IEEE binary64 [float] (primitive floats);
      the real value of a binary64 number and what it is for an operation
      to round its exact result are defined from [SpecFloat].
    - A [dict] with string keys is a [gmap string _].
    - An uncaught exception is a [None] / [Raised] result of the model. *)

From Stdlib Require Import Reals Lra.
From Stdlib Require Import ZArith List Ascii String Bool Lia Floats.
From stdpp Require Import base option list gmap strings.
Import ListNotations.

#[local] Set Warnings "-inexact-float".

Local Open Scope bool_scope.
Local Open Scope list_scope.

(* ------------------------------------------------------------------ *)
(** ** Text primitives ([str] methods used by the source)             *)
(* ------------------------------------------------------------------ *)

Module Text.

Definition chars := list ascii.

Definition ch (s : string) : chars := list_ascii_of_string s.

Definition code (c : ascii) : nat := nat_of_ascii c.

(** [str.isspace] on one character (also the class [\s] of [re]). *)
Definition is_space (c : ascii) : bool :=
  let n := code c in
  ((9 <=? n) && (n <=? 13)) || ((28 <=? n) && (n <=? 32))
  || (n =? 133) || (n =? 160).

(** [str.lower] on one character. *)
Definition lower_char (c : ascii) : ascii :=
  let n := code c in
  if ((65 <=? n) && (n <=? 90))
     || ((192 <=? n) && (n <=? 222) && negb (n =? 215))
  then ascii_of_nat (n + 32) else c.

Definition lower (s : chars) : chars := map lower_char s.

Fixpoint drop_while (p : ascii -> bool) (s : chars) : chars :=
  match s with
  | [] => []
  | c :: r => if p c then drop_while p r else s
  end.

Fixpoint take_while (p : ascii -> bool) (s : chars) : chars :=
  match s with
  | [] => []
  | c :: r => if p c then c :: take_while p r else []
  end.

Definition lstrip_by (p : ascii -> bool) (s : chars) : chars :=
  drop_while p s.

Definition rstrip_by (p : ascii -> bool) (s : chars) : chars :=
  rev (drop_while p (rev s)).

Definition strip_by (p : ascii -> bool) (s : chars) : chars :=
  rstrip_by p (lstrip_by p s).

(** [s.strip()] *)
Definition strip (s : chars) : chars := strip_by is_space s.

(** [s.strip("_")] *)
Definition strip_char (c : ascii) (s : chars) : chars :=
  strip_by (Ascii.eqb c) s.

(** [posixpath.basename]: [p[p.rfind('/') + 1:]]. *)
Definition basename (s : chars) : chars :=
  rev (take_while (fun c => negb (Ascii.eqb c "/")) (rev s)).

Fixpoint startswith (s pre : chars) {struct pre} : bool :=
  match pre, s with
  | [], _ => true
  | p :: pre', c :: s' => Ascii.eqb p c && startswith s' pre'
  | _ :: _, [] => false
  end.

(** [s.endswith(suf)] *)
Definition endswith (s suf : chars) : bool :=
  startswith (rev s) (rev suf).

(** [s[:-n]] for [0 < n <= len(s)]; empty when [len(s) < n]. *)
Definition drop_last (n : nat) (s : chars) : chars :=
  firstn (List.length s - n) s.

(** [pat in s] *)
Fixpoint contains (s pat : chars) : bool :=
  startswith s pat ||
  match s with
  | [] => false
  | _ :: r => contains r pat
  end.

(** [s.replace(" ", "_")]: one character for another. *)
Definition replace_char (a b : ascii) (s : chars) : chars :=
  map (fun c => if Ascii.eqb c a then b else c) s.

(** [s.replace("__", "_")]: non-overlapping occurrences, left to right. *)
Fixpoint replace_dunder (s : chars) : chars :=
  match s with
  | c1 :: ((c2 :: r) as t) =>
      if Ascii.eqb c1 "_" && Ascii.eqb c2 "_"
      then "_"%char :: replace_dunder r
      else c1 :: replace_dunder t
  | _ => s
  end.

End Text.
Import Text.

(* ------------------------------------------------------------------ *)
(** ** The fragment of [re] used by the source                        *)
(* ------------------------------------------------------------------ *)

Module Re.

(** Patterns: one character of a class, concatenation, a greedy optional
    group, and greedy [*] / [+] over a character class. *)
Inductive regex :=
| Class (p : ascii -> bool)
| Seq (r1 r2 : regex)
| Opt (r : regex)
| Star (p : ascii -> bool)
| Plus (p : ascii -> bool).

(** Greedy repetition with backtracking: the longest run is tried first,
    shorter ones when the continuation [k] fails. *)
Fixpoint star_match (p : ascii -> bool) (s : chars)
         (k : chars -> option chars) : option chars :=
  match s with
  | c :: s' =>
      if p c then
        match star_match p s' k with
        | Some r => Some r
        | None => k s
        end
      else k s
  | [] => k s
  end.

(** [rmatch r s k]: match [r] at the head of [s], then continue with [k]
    on what is left; the answer is the text after the whole match. *)
Fixpoint rmatch (r : regex) (s : chars)
         (k : chars -> option chars) : option chars :=
  match r with
  | Class p =>
      match s with
      | c :: s' => if p c then k s' else None
      | [] => None
      end
  | Seq r1 r2 => rmatch r1 s (fun s1 => rmatch r2 s1 k)
  | Opt r1 =>
      match rmatch r1 s k with
      | Some x => Some x
      | None => k s
      end
  | Star p => star_match p s k
  | Plus p =>
      match s with
      | c :: s' => if p c then star_match p s' k else None
      | [] => None
      end
  end.

(** [re.sub("^" + r, "", s)]: the pattern is anchored at the start of the
    string, so it is replaced at most once. *)
Definition sub_anchored (r : regex) (s : chars) : chars :=
  match rmatch r s Some with
  | Some rest => rest
  | None => s
  end.

(** A literal letter under [re.IGNORECASE]. *)
Definition ci (c : ascii) : ascii -> bool :=
  fun x => Ascii.eqb (lower_char x) c.

Fixpoint lit_ci (w : chars) (tail : regex) : regex :=
  match w with
  | [] => tail
  | c :: w' => Seq (Class (ci c)) (lit_ci w' tail)
  end.

End Re.

(* ------------------------------------------------------------------ *)
(** ** Identifier canonicaliser                                       *)
(* ------------------------------------------------------------------ *)

(** [for ev in ("ev-00", "ev-25", "ev-50"): if ev in s: return ev] *)
Fixpoint first_contained (tags : list chars) (s : chars) : chars :=
  match tags with
  | [] => []
  | ev :: rest => if contains s ev then ev else first_contained rest s
  end.

Definition EV_TAGS : list chars := [ch "ev-00"; ch "ev-25"; ch "ev-50"].

Definition extract_ev_tag_chars (s : chars) : chars :=
  match s with
  | [] => []
  | _ => first_contained EV_TAGS s
  end.

Definition _extract_ev_tag (s : string) : string :=
  string_of_list_ascii (extract_ev_tag_chars (ch s)).

(** [if low.endswith(suf): s = s[:-len(suf)]; low = s.lower()] *)
Definition cut_suffix (suf : chars) (st : chars * chars) : chars * chars :=
  let '(s, low) := st in
  if endswith low suf
  then let s' := drop_last (List.length suf) s in (s', lower s')
  else (s, low).

(** [for tag in (...): if low.endswith(tag): ...; break] *)
Fixpoint cut_first_suffix (tags : list chars) (st : chars * chars)
  : chars * chars :=
  match tags with
  | [] => st
  | tag :: rest =>
      if endswith (snd st) tag then cut_suffix tag st
      else cut_first_suffix rest st
  end.

Definition EV_SUFFIXES : list chars := [ch "_ev-00"; ch "_ev-25"; ch "_ev-50"].

Definition is_rank_digit (c : ascii) : bool :=
  Ascii.eqb c "1" || Ascii.eqb c "2" || Ascii.eqb c "3".

Definition is_sep (c : ascii) : bool :=
  Ascii.eqb c ":" || Ascii.eqb c "_" || Ascii.eqb c "-".

(** The pattern that [_normalize_id_and_ev] gives to [re.sub], compiled
    with [re.IGNORECASE]; spaced out as under [re.VERBOSE] it reads
    [^ (?: rank \s* )? r [123] \s* [:_\-]+]. *)
Definition RANK_PREFIX : Re.regex :=
  Re.Seq (Re.Opt (Re.lit_ci (ch "rank") (Re.Star is_space)))
    (Re.Seq (Re.Class (Re.ci "r"))
       (Re.Seq (Re.Class is_rank_digit)
          (Re.Seq (Re.Star is_space) (Re.Plus is_sep)))).

(** [while "__" in s: s = s.replace("__", "_")]; every round shortens
    [s], so [length s] rounds are enough (lemma [collapse_clean]). *)
Fixpoint collapse_loop (fuel : nat) (s : chars) : chars :=
  match fuel with
  | O => s
  | S f =>
      if contains s (ch "__") then collapse_loop f (replace_dunder s) else s
  end.

Definition collapse (s : chars) : chars := collapse_loop (List.length s) s.

Definition normalize_chars (s0 : chars) : chars * chars :=
  let s := strip s0 in
  let s := basename s in
  let ev := extract_ev_tag_chars s in
  let st := (s, lower s) in
  let st := cut_suffix (ch ".gz") st in
  let st := cut_suffix (ch ".json") st in
  let st := cut_suffix (ch "_points") st in
  let st := cut_first_suffix EV_SUFFIXES st in
  let s := fst st in
  let s := Re.sub_anchored RANK_PREFIX s in
  let s := replace_char " " "_" s in
  let s := collapse s in
  let s := strip_char "_" s in
  (s, ev).

Definition _normalize_id_and_ev (s : string) : string * string :=
  let '(b, ev) := normalize_chars (ch s) in
  (string_of_list_ascii b, string_of_list_ascii ev).

(* ------------------------------------------------------------------ *)
(** ** Notions used to state what the canonicaliser does              *)
(* ------------------------------------------------------------------ *)

(** What is left by [drop_while] does not start with a dropped character. *)
Definition no_lead (p : ascii -> bool) (s : chars) : Prop :=
  match s with
  | [] => True
  | c :: _ => p c = false
  end.

(** A string avoids a character. *)
Definition avoids (a : ascii) (s : chars) : Prop :=
  Forall (fun c => Ascii.eqb c a = false) s.

(** The rank prefix, read off directly: after [r] and the digit come
    optional blanks and at least one separator; all separators go. *)
Definition rank_core (s : chars) : option chars :=
  match s with
  | r :: d :: t =>
      if Re.ci "r" r && is_rank_digit d then
        match drop_while is_space t with
        | c :: u => if is_sep c then Some (drop_while is_sep u) else None
        | [] => None
        end
      else None
  | _ => None
  end.

(** The text after a leading word [rank], in any letter case. *)
Definition rank_word (s : chars) : option chars :=
  match s with
  | c1 :: c2 :: c3 :: c4 :: t =>
      if Re.ci "r" c1 && Re.ci "a" c2 && Re.ci "n" c3 && Re.ci "k" c4
      then Some t else None
  | _ => None
  end.

Definition rank_prefix_direct (s : chars) : option chars :=
  match rank_word s with
  | Some t => rank_core (drop_while is_space t)
  | None => rank_core s
  end.

Definition RANK_CORE : Re.regex :=
  Re.Seq (Re.Class (Re.ci "r"))
    (Re.Seq (Re.Class is_rank_digit)
       (Re.Seq (Re.Star is_space) (Re.Plus is_sep))).

(** The text after the suffixes are cut, before the rank prefix goes. *)
Definition cut_suffixes (s : chars) : chars :=
  fst (cut_first_suffix EV_SUFFIXES
         (cut_suffix (ch "_points")
            (cut_suffix (ch ".json") (cut_suffix (ch ".gz") (s, lower s))))).

(** The last three steps: blanks to underscores, runs of underscores
    collapsed, underscores trimmed at both ends. *)
Definition tidy (s : chars) : chars :=
  strip_char "_" (collapse (replace_char " " "_" s)).

(** Every base id the canonicaliser returns: no path separator, no blank,
    no doubled underscore, no underscore at either end. *)
Record canonical_shape (b : chars) : Prop := {
  shape_no_slash : avoids "/" b;
  shape_no_blank : avoids " " b;
  shape_no_dunder : contains b (ch "__") = false;
  shape_no_lead : no_lead (Ascii.eqb "_") b;
  shape_no_trail : no_lead (Ascii.eqb "_") (rev b)
}.

(** The suffixes the canonicaliser cuts, in the order it looks for them. *)
Definition STRIPPED_SUFFIXES : list chars :=
  [ch ".gz"; ch ".json"; ch "_points"; ch "_ev-00"; ch "_ev-25"; ch "_ev-50"].

(** Nothing of what one pass removes is left on [b]: no blank at either
    end, none of the suffixes, no rank prefix. *)
Definition affix_free_chars (b : chars) : bool :=
  bool_decide (strip b = b)
  && forallb (fun suf => negb (endswith (lower b) suf)) STRIPPED_SUFFIXES
  && match Re.rmatch RANK_PREFIX b Some with
     | None => true
     | Some _ => false
     end.

Definition affix_free (b : string) : bool := affix_free_chars (ch b).


(** [pat] occurs in [s]. *)
Definition occurs (pat s : chars) : Prop :=
  exists u w, s = u ++ pat ++ w.

(** The bare rank tag: the letter [r] (either case), a digit among
    [1 2 3], optional blanks, and one or more of [: _ -]. *)
Inductive rank_tag : chars -> Prop :=
| rank_tag_intro (r d : ascii) (ws seps : chars) :
    Re.ci "r" r = true ->
    is_rank_digit d = true ->
    Forall (fun c => is_space c = true) ws ->
    Forall (fun c => is_sep c = true) seps ->
    seps <> [] ->
    rank_tag (r :: d :: ws ++ seps).

(** A rank prefix: a rank tag, alone or after the word [rank] (any
    case) and optional blanks. *)
Inductive rank_prefix : chars -> Prop :=
| rank_prefix_tag (t : chars) :
    rank_tag t -> rank_prefix t
| rank_prefix_word (w ws t : chars) :
    lower w = ch "rank" ->
    Forall (fun c => is_space c = true) ws ->
    rank_tag t ->
    rank_prefix (w ++ ws ++ t).
(* ------------------------------------------------------------------ *)
(** ** Numbers                                                        *)
(* ------------------------------------------------------------------ *)

(** The arithmetic of Python's [float] (IEEE binary64) that the scorer
    and the normaliser use, gathered in one interface.  Division yields
    [None] where Python raises [ZeroDivisionError]. *)
Class PyNum (F : Type) := {
  num0 : F;
  num1 : F;
  num1e9 : F;
  nsub : F -> F -> F;
  nmul : F -> F -> F;
  ndiv : F -> F -> option F;
  nlt : F -> F -> bool;
  nle : F -> F -> bool
}.

#[export] Instance float_num : PyNum float := {|
  num0 := 0%float;
  num1 := 1%float;
  num1e9 := 1e9%float;
  nsub := PrimFloat.sub;
  nmul := PrimFloat.mul;
  ndiv := fun x y =>
    if PrimFloat.eqb y 0%float then None else Some (PrimFloat.div x y);
  nlt := PrimFloat.ltb;
  nle := PrimFloat.leb
|}.

(** The built-ins [min(a, b)] and [max(a, b)]: the first argument stays
    unless the second is strictly smaller, resp. strictly greater. *)
Definition py_min {F} `{PyNum F} (a b : F) : F := if nlt b a then b else a.
Definition py_max {F} `{PyNum F} (a b : F) : F := if nlt a b then b else a.

(** The body of [confidence_from_row] after the two fields are read:
    the threshold or ramp on [mae], the product with [frac], the clamp. *)
Definition confidence_score {F} `{PyNum F} (frac mae E_good E_bad : F)
  : option F :=
  mae_conf ←
    (if nle E_bad E_good then
       Some (if nle mae E_good then num1 else num0)
     else
       t ← ndiv (nsub mae E_good) (nsub E_bad E_good);
       Some (if nlt t num0 then num1
             else if nlt num1 t then num0
             else nsub num1 t));
  let conf := nmul frac mae_conf in
  Some (py_max num0 (py_min num1 conf)).

(** [math.isfinite] *)
Definition isfinite (x : float) : bool := PrimFloat.is_finite x.

(** [math.sqrt]: [None] stands for the [ValueError] on a negative
    argument. *)
Definition math_sqrt (x : float) : option float :=
  if PrimFloat.ltb x 0%float then None else Some (PrimFloat.sqrt x).

(** [float(i)] for an [int]: the nearest binary64, [None] for the
    [OverflowError] of an integer that is too large. *)
Definition float_of_int (i : Z) : option float :=
  match binary_normalize prec emax i 0 false with
  | S754_infinity _ => None
  | sf => Some (SF2Prim sf)
  end.

(** [int(x)] for a [float]: truncation towards zero, [None] for the
    [ValueError] / [OverflowError] on NaN and the infinities. *)
Definition int_of_float (x : float) : option Z :=
  match Prim2SF x with
  | S754_zero _ => Some 0%Z
  | S754_finite s m e => Some (cond_Zopp s (Z.shiftl (Zpos m) e))
  | S754_infinity _ | S754_nan => None
  end.

(* ------------------------------------------------------------------ *)
(** ** Python values and samples                                      *)
(* ------------------------------------------------------------------ *)

#[local] Set Warnings "-register-all".

(** What a pickled record may hold. *)
Inductive pyval :=
| VNone
| VBool (b : bool)
| VInt (i : Z)
| VFloat (x : float)
| VStr (s : string)
| VList (l : list pyval)
| VTuple (l : list pyval)
| VDict (m : gmap string pyval).

(** A sample is a [dict] keyed by field name. *)
Abbreviation sample := (gmap string pyval).

(** Python's truth value, as tested by [if not v]. *)
Definition truthy (v : pyval) : bool :=
  match v with
  | VNone => false
  | VBool b => b
  | VInt i => negb (i =? 0)%Z
  | VFloat x => negb (PrimFloat.eqb x 0%float)
  | VStr s => negb (String.eqb s "")
  | VList l | VTuple l => negb (bool_decide (List.length l = 0%nat))
  | VDict m => negb (bool_decide (size m = 0%nat))
  end.

Section Builtins.

(** [float(s)] for a [str] (Python's own float grammar), and [str(v)]
    for a value that is not a [str]: both are taken as given. *)
Variable float_of_string : string -> option float.
Variable repr : pyval -> string.

(** [float(v)]; [None] stands for the exception it raises. *)
Definition py_float (v : pyval) : option float :=
  match v with
  | VFloat x => Some x
  | VInt i => float_of_int i
  | VBool b => Some (if b then 1%float else 0%float)
  | VStr s => float_of_string s
  | VNone | VList _ | VTuple _ | VDict _ => None
  end.

(** [str(v)] *)
Definition py_str (v : pyval) : string :=
  match v with
  | VStr s => s
  | _ => repr v
  end.

(** [_as_float]: [float(x)], with [None] for any exception. *)
Definition _as_float (v : pyval) : option float := py_float v.

(* ------------------------------------------------------------------ *)
(** ** Direction extractor                                            *)
(* ------------------------------------------------------------------ *)

Definition DIR_KEY_CANDIDATES : list (string * string * string) :=
  [ ("dir_x", "dir_y", "dir_z");
    ("dir_vx", "dir_vy", "dir_vz");
    ("dirvx", "dirvy", "dirvz");
    ("light_dir_x", "light_dir_y", "light_dir_z");
    ("direction_x", "direction_y", "direction_z");
    ("vx", "vy", "vz");
    ("Lx", "Ly", "Lz");
    ("L_x", "L_y", "L_z") ]%string.

Definition SINGLE_VEC_CANDIDATES : list string :=
  [ "dir"; "dir_v"; "light_dir"; "direction"; "dir_vec"; "dirv"; "L";
    "light_direction" ]%string.

Definition NESTED_ROOTS : list string :=
  [ "dir"; "direction"; "light_dir"; "L" ]%string.

Definition NESTED_CANDIDATES : list (string * string * string) :=
  [ ("x", "y", "z"); ("vx", "vy", "vz"); ("dir_x", "dir_y", "dir_z") ]%string.

(** The result of an extraction: three components and the description of
    where they were found. *)
Definition direction := (float * float * float * string)%type.

(** Three values that all read as floats. *)
Definition three_floats (vx vy vz : pyval) (src : string) : option direction :=
  match _as_float vx, _as_float vy, _as_float vz with
  | Some x, Some y, Some z => Some (x, y, z, src)
  | _, _, _ => None
  end.

(** One flat triple: all three keys in [d], all three values floats. *)
Definition try_flat (d : sample) (k : string * string * string)
  : option direction :=
  let '(kx, ky, kz) := k in
  match d !! kx, d !! ky, d !! kz with
  | Some vx, Some vy, Some vz =>
      three_floats vx vy vz (kx ++ "," ++ ky ++ "," ++ kz)%string
  | _, _, _ => None
  end.

(** One single-key vector: a list or tuple of at least three elements,
    the first three being floats. *)
Definition try_single (d : sample) (vk : string) : option direction :=
  match d !! vk with
  | Some (VList (v0 :: v1 :: v2 :: _))
  | Some (VTuple (v0 :: v1 :: v2 :: _)) => three_floats v0 v1 v2 vk
  | _ => None
  end.

(** One component triple inside a nested object. *)
Definition try_nested_in (root : string) (obj : gmap string pyval)
           (cand : string * string * string) : option direction :=
  let '(cx, cy, cz) := cand in
  match obj !! cx, obj !! cy, obj !! cz with
  | Some vx, Some vy, Some vz =>
      three_floats vx vy vz
        (root ++ "." ++ cx ++ "," ++ root ++ "." ++ cy ++ ","
              ++ root ++ "." ++ cz)%string
  | _, _, _ => None
  end.

(** [for c in cands: ... return ...]: the first candidate that succeeds. *)
Fixpoint first_some {A B} (f : A -> option B) (cands : list A) : option B :=
  match cands with
  | [] => None
  | c :: rest =>
      match f c with
      | Some r => Some r
      | None => first_some f rest
      end
  end.

(** [c] is the first candidate of [cands] on which [f] succeeds, with
    result [r]; no candidate of [cands] succeeds. *)
Definition first_match {A B} (f : A -> option B) (cands : list A)
           (c : A) (r : B) : Prop :=
  exists before after,
    cands = before ++ c :: after /\ f c = Some r
    /\ Forall (fun c' => f c' = None) before.

Definition no_match {A B} (f : A -> option B) (cands : list A) : Prop :=
  Forall (fun c => f c = None) cands.

Definition try_nested (d : sample) (root : string) : option direction :=
  match d !! root with
  | Some (VDict obj) => first_some (try_nested_in root obj) NESTED_CANDIDATES
  | _ => None
  end.

(** [extract_direction_components]; the source's
    [(None, None, None, "no_direction_keys_found")] is [(None, ...)]. *)
Definition extract_direction_components (d : sample)
  : option (float * float * float) * string :=
  match first_some (try_flat d) DIR_KEY_CANDIDATES with
  | Some (x, y, z, src) => (Some (x, y, z), src)
  | None =>
      match first_some (try_single d) SINGLE_VEC_CANDIDATES with
      | Some (x, y, z, src) => (Some (x, y, z), src)
      | None =>
          match first_some (try_nested d) NESTED_ROOTS with
          | Some (x, y, z, src) => (Some (x, y, z), src)
          | None => (None, "no_direction_keys_found"%string)
          end
      end
  end.

(** What a record holds at a candidate, said of the record alone.  The
    three keys of a triple are present and their values read as [x],
    [y], [z]: *)
Definition holds_triple (obj : gmap string pyval)
           (k : string * string * string) (x y z : float) : Prop :=
  exists vx vy vz,
    obj !! k.1.1 = Some vx /\ obj !! k.1.2 = Some vy /\ obj !! k.2 = Some vz
    /\ _as_float vx = Some x /\ _as_float vy = Some y
    /\ _as_float vz = Some z.

(** the key holds a list or a tuple of at least three elements, the
    first three of which read as [x], [y], [z]: *)
Definition holds_vector (d : sample) (vk : string) (x y z : float) : Prop :=
  exists v0 v1 v2 rest,
    (d !! vk = Some (VList (v0 :: v1 :: v2 :: rest))
     \/ d !! vk = Some (VTuple (v0 :: v1 :: v2 :: rest)))
    /\ _as_float v0 = Some x /\ _as_float v1 = Some y
    /\ _as_float v2 = Some z.

(** the root holds a dict that holds the triple. *)
Definition holds_nested (d : sample)
           (rc : string * (string * string * string)) (x y z : float) : Prop :=
  exists obj, d !! rc.1 = Some (VDict obj) /\ holds_triple obj rc.2 x y z.

(** [c] is the first candidate of [cands] at which the record holds a
    direction, and this direction is [(x, y, z)]; the record holds a
    direction at no candidate of [cands]. *)
Definition first_holding {A} (P : A -> float -> float -> float -> Prop)
           (cands : list A) (c : A) (x y z : float) : Prop :=
  exists before after,
    cands = before ++ c :: after /\ P c x y z
    /\ Forall (fun c' => forall x' y' z', ~ P c' x' y' z') before.

Definition none_holding {A} (P : A -> float -> float -> float -> Prop)
           (cands : list A) : Prop :=
  Forall (fun c => forall x y z, ~ P c x y z) cands.

(** The descriptions of the source: [f"{kx},{ky},{kz}"] and
    [f"{root}.{cx},{root}.{cy},{root}.{cz}"]. *)
Definition flat_source (k : string * string * string) : string :=
  (k.1.1 ++ "," ++ k.1.2 ++ "," ++ k.2)%string.

Definition nested_source (rc : string * (string * string * string)) : string :=
  (rc.1 ++ "." ++ rc.2.1.1 ++ "," ++ rc.1 ++ "." ++ rc.2.1.2 ++ ","
        ++ rc.1 ++ "." ++ rc.2.2)%string.

(** The nested candidates in the order of the two loops. *)
Definition NESTED_PAIRS : list (string * (string * string * string)) :=
  list_prod NESTED_ROOTS NESTED_CANDIDATES.

(** One round of the inner loop over the nested candidates. *)
Definition try_nested_pair (d : sample)
           (rc : string * (string * string * string)) : option direction :=
  match d !! rc.1 with
  | Some (VDict obj) => try_nested_in rc.1 obj rc.2
  | _ => None
  end.

(* ------------------------------------------------------------------ *)
(** ** Confidence of one row of the quality report                    *)
(* ------------------------------------------------------------------ *)

(** [try: float(row.get(key, dflt)) except: dflt] *)
Definition float_field (row : sample) (key : string) (dflt : float) : float :=
  match row !! key with
  | None => dflt
  | Some v => default dflt (py_float v)
  end.

Definition confidence_from_row (row : sample) (E_good E_bad : float)
  : option float :=
  confidence_score
    (float_field row "inlier_weight_frac" 0%float)
    (float_field row "mae_in_deg_weighted" 1e9%float)
    E_good E_bad.

End Builtins.

(* ------------------------------------------------------------------ *)
(** ** Vector normaliser                                              *)
(* ------------------------------------------------------------------ *)

(** [math.sqrt(x * x + y * y + z * z)] *)
Definition magnitude (x y z : float) : option float :=
  math_sqrt (x * x + y * y + z * z)%float.

(** [normalize_vec].  The outer [option] is [None] when the call raises;
    the inner one is the source's [None, None, None] for a vector that
    cannot be normalised. *)
Definition normalize_vec (x y z eps : float)
  : option (option (float * float * float) * float) :=
  n ← magnitude x y z;
  if negb (isfinite n) || PrimFloat.ltb n eps then Some (None, n)
  else
    ux ← ndiv x n; uy ← ndiv y n; uz ← ndiv z n;
    Some (Some (ux, uy, uz), n).

(** The default of the parameter [eps]. *)
Definition EPS : float := 1e-12%float.

(* ------------------------------------------------------------------ *)
(** ** Confidence joiner                                              *)
(* ------------------------------------------------------------------ *)

(** The table built from the quality report: [(base_id, rank)] to score. *)
Abbreviation conf_table := (gmap (string * Z) float).

Section Pipeline.

Variable float_of_string : string -> option float.
Variable repr : pyval -> string.

(** [rk_raw = d.get("rank", 1)], then [int(float(rk_raw))] or [1]. *)
Definition sample_rank (d : sample) : Z :=
  let rk_raw := default (VInt 1) (d !! "rank"%string) in
  match py_float float_of_string rk_raw with
  | Some x =>
      match int_of_float x with
      | Some rk => rk
      | None => 1%Z
      end
  | None => 1%Z
  end.

Definition CANDIDATE_KEYS : list string :=
  [ "painting_info"; "painting_rank_id"; "pose_info"; "img_path"; "file" ]%string.

(** [[d.get("painting_info", ""), ..., d.get("file", "")]] *)
Definition candidates (d : sample) : list pyval :=
  map (fun k => default (VStr "") (d !! k)) CANDIDATE_KEYS.

(** The body of the loop over [candidates] for one candidate: [None]
    when the loop goes on ([continue], or no entry in the table). *)
Definition lookup_candidate (conf_map : conf_table) (rk : Z) (cand : pyval)
  : option float :=
  if negb (truthy cand) then None
  else
    let base_id := fst (_normalize_id_and_ev (py_str repr cand)) in
    if String.eqb base_id "" then None
    else conf_map !! (base_id, rk).

Definition find_confidence (conf_map : conf_table) (d : sample) : option float :=
  first_some (lookup_candidate conf_map (sample_rank d)) (candidates d).

(** One round of the join: [d["confidence"] = conf]. *)
Definition join_confidence (conf_map : conf_table) (d : sample) : sample :=
  <[ "confidence"%string :=
       match find_confidence conf_map d with
       | Some v => VFloat v
       | None => VNone
       end ]> d.

(* ------------------------------------------------------------------ *)
(** ** The passes of [main]                                           *)
(* ------------------------------------------------------------------ *)

Definition is_dict (v : pyval) : bool :=
  match v with
  | VDict _ => true
  | _ => false
  end.

(** The test on the unpickled object: a list whose first element, if
    any, is a dict. *)
Definition is_list_of_dict (all_data : pyval) : option (list pyval) :=
  match all_data with
  | VList [] => Some []
  | VList (v :: rest) => if is_dict v then Some (v :: rest) else None
  | _ => None
  end.

(** [for d in all_data: ... d["confidence"] = conf]; an element that is
    not a dict has no [get]: the loop raises. *)
Fixpoint join_pass (conf_map : conf_table) (l : list pyval)
  : option (list pyval) :=
  match l with
  | [] => Some []
  | VDict d :: rest =>
      rest' ← join_pass conf_map rest;
      Some (VDict (join_confidence conf_map d) :: rest')
  | _ :: _ => None
  end.

(** The five assignments that end a round of the direction loop. *)
Definition store_direction (d : sample) (ux uy uz nraw : float) (src : string)
  : sample :=
  <[ "dir_src_keys"%string := VStr src ]>
    (<[ "dir_norm_raw"%string := if isfinite nraw then VFloat nraw else VNone ]>
       (<[ "z"%string := VFloat uz ]>
          (<[ "y"%string := VFloat uy ]>
             (<[ "x"%string := VFloat ux ]> d)))).

(** One round of the direction loop.  Outer [None]: the round raises;
    [Some None]: the sample is skipped; [Some (Some d')]: [d'] is used. *)
Definition direction_step (no_normalize : bool) (d : sample)
  : option (option sample) :=
  match extract_direction_components float_of_string d with
  | (None, _) => Some None
  | (Some (x, y, z), src) =>
      if no_normalize then
        nraw ← magnitude x y z;
        Some (Some (store_direction d x y z nraw src))
      else
        r ← normalize_vec x y z EPS;
        match r with
        | (None, _) => Some None
        | (Some (ux, uy, uz), nraw) =>
            Some (Some (store_direction d ux uy uz nraw src))
        end
  end.

(** The direction loop: the samples used, in order, and the number
    skipped. *)
Fixpoint direction_pass (no_normalize : bool) (l : list pyval)
  : option (list sample * nat) :=
  match l with
  | [] => Some ([], 0%nat)
  | VDict d :: rest =>
      step ← direction_step no_normalize d;
      acc ← direction_pass no_normalize rest;
      match step with
      | None => Some (fst acc, S (snd acc))
      | Some d' => Some (d' :: fst acc, snd acc)
      end
  | _ :: _ => None
  end.

(** What [main] is run on: the unpickled object ([None] when the pickle
    file does not exist), the table loaded from [--csv-path] ([None]
    when the option is not given) and [--no-normalize]. *)
Record run := {
  pickle : option pyval;
  table : option conf_table;
  no_normalize : bool
}.

(** How [main] ends.  Only [Finished] stages assets and writes
    [index.html], from the samples it carries. *)
Inductive outcome :=
| PickleNotFound
| NotListOfDict
| Raised
| NoPoints (skipped : nat)
| Finished (used : list sample) (skipped : nat).

Definition main (r : run) : outcome :=
  match pickle r with
  | None => PickleNotFound
  | Some all_data =>
      match is_list_of_dict all_data with
      | None => NotListOfDict
      | Some l =>
          let joined :=
            match table r with
            | Some conf_map => join_pass conf_map l
            | None => Some l
            end in
          match joined ≫= direction_pass (no_normalize r) with
          | None => Raised
          | Some (used, skipped) =>
              if bool_decide (List.length used = 0%nat) then NoPoints skipped
              else Finished used skipped
          end
      end
  end.

Definition writes_output (o : outcome) : bool :=
  match o with
  | Finished _ _ => true
  | _ => false
  end.

End Pipeline.

(** The join and the direction loop, one record at a time. *)
Definition join_value (float_of_string : string -> option float)
           (repr : pyval -> string) (conf_map : conf_table) (v : pyval) : pyval :=
  match v with
  | VDict d => VDict (join_confidence float_of_string repr conf_map d)
  | _ => v
  end.

Definition survivor (float_of_string : string -> option float)
           (no_normalize : bool) (v : pyval) : option sample :=
  match v with
  | VDict d => mjoin (direction_step float_of_string no_normalize d)
  | _ => None
  end.
(* ------------------------------------------------------------------ *)
(** ** Sample data                                                    *)
(* ------------------------------------------------------------------ *)

(** The record of the example: a flat triple and a vector field. *)
Definition flat_and_vector : sample :=
  {[ "dir_x"%string := VFloat 0.6%float;
     "dir_y"%string := VInt 0;
     "dir_z"%string := VFloat 0.8%float;
     "dir"%string := VList [VInt 1; VInt 0; VInt 0] ]}.

(** A record whose flat triple is present but does not read as three
    floats, with a vector under the third single key. *)
Definition unread_flat_and_vector : sample :=
  {[ "dir_x"%string := VStr "n/a";
     "dir_y"%string := VInt 0;
     "dir_z"%string := VInt 0;
     "light_dir"%string := VList [VInt 0; VFloat 0.6%float; VFloat 0.8%float] ]}.

(** A record with a nested object only, under a key that is also a
    single-vector candidate. *)
Definition nested_only : sample :=
  {[ "direction"%string :=
       VDict {[ "vx"%string := VInt 1; "vy"%string := VInt 0;
                "vz"%string := VInt 0 ]} ]}.

(** The table and the samples of the join example. *)
Definition artist_table : conf_table :=
  {[ ("Artist_Name"%string, 2%Z) := 0.75%float ]}.

Definition artist_sample (rank : pyval) : sample :=
  {[ "painting_info"%string := VStr "";
     "pose_info"%string := VStr "R2: Artist_Name_ev-25_points.json";
     "file"%string := VStr "other";
     "rank"%string := rank ]}.

(** A record whose direction is the zero vector. *)
Definition zero_direction : sample :=
  {[ "dir_x"%string := VInt 0; "dir_y"%string := VInt 0;
     "dir_z"%string := VFloat 0%float ]}.

(* ------------------------------------------------------------------ *)
(** ** [safe_filename]                                                *)
(* ------------------------------------------------------------------ *)

(** [re.sub(r, repl, s)] for a pattern that cannot match the empty
    string: scan from the left; where the pattern matches, write [repl]
    and go on after the match, otherwise keep the character.  Every
    round consumes a character, so [length s] rounds are enough. *)
Fixpoint sub_all_from (fuel : nat) (r : Re.regex) (repl s : chars) : chars :=
  match fuel with
  | O => s
  | S f =>
      match s with
      | [] => []
      | c :: s' =>
          match Re.rmatch r s Some with
          | Some rest => repl ++ sub_all_from f r repl rest
          | None => c :: sub_all_from f r repl s'
          end
      end
  end.

Definition sub_all (r : Re.regex) (repl s : chars) : chars :=
  sub_all_from (List.length s) r repl s.

(** The class [[A-Za-z0-9._-]]. *)
Definition is_safe_char (c : ascii) : bool :=
  let n := code c in
  ((65 <=? n) && (n <=? 90)) || ((97 <=? n) && (n <=? 122))
  || ((48 <=? n) && (n <=? 57))
  || Ascii.eqb c "." || Ascii.eqb c "_" || Ascii.eqb c "-".

(** [r"[^A-Za-z0-9._-]+"] *)
Definition UNSAFE_RUN : Re.regex := Re.Plus (fun c => negb (is_safe_char c)).

Definition safe_filename_chars (name : chars) : chars :=
  let s := strip_char "_" (sub_all UNSAFE_RUN (ch "_") name) in
  match s with
  | [] => ch "untitled"
  | _ :: _ => s
  end.

Definition safe_filename (name : string) : string :=
  string_of_list_ascii (safe_filename_chars (ch name)).

(* ------------------------------------------------------------------ *)
(** ** [build_basename_index]                                         *)
(* ------------------------------------------------------------------ *)

(** [posixpath.join(a, b)] *)
Definition path_join_chars (a b : chars) : chars :=
  if startswith b (ch "/") then b
  else if bool_decide (a = []) || endswith a (ch "/") then a ++ b
  else a ++ ch "/" ++ b.

Definition path_join (a b : string) : string :=
  string_of_list_ascii (path_join_chars (ch a) (ch b)).

(** What [os.walk] yields: for each directory its path, the names of
    its subdirectories and the names of its files. *)
Definition walk := list (string * list string * list string).

(** [if fn not in idx: idx[fn] = os.path.join(r, fn)] *)
Definition index_file (r : string) (idx : gmap string string) (fn : string)
  : gmap string string :=
  match idx !! fn with
  | Some _ => idx
  | None => <[ fn := path_join r fn ]> idx
  end.

Definition index_entry (idx : gmap string string)
           (entry : string * list string * list string) : gmap string string :=
  let '(r, _, files) := entry in
  foldl (index_file r) idx files.

Definition build_basename_index (w : walk) : gmap string string :=
  foldl index_entry ∅ w.

(** The files of a walk in the order they are visited, each with the
    path the index would give it. *)
Definition walk_files (w : walk) : list (string * string) :=
  flat_map (fun entry : string * list string * list string =>
              let '(r, _, files) := entry in
              map (fun fn => (fn, path_join r fn)) files) w.

(* ------------------------------------------------------------------ *)
(** ** [load_confidence_map_by_id_and_rank]                           *)
(* ------------------------------------------------------------------ *)

(** The three counters of the loader. *)
Record load_stats := {
  kept : nat;
  skipped_ev : nat;
  skipped_rank : nat
}.

Section Loader.

Variable float_of_string : string -> option float.
Variable repr : pyval -> string.

(** [int(float(row.get("rank", "0")))]; [None] when it raises. *)
Definition row_rank (row : sample) : option Z :=
  py_float float_of_string (default (VStr "0") (row !! "rank"%string))
  ≫= int_of_float.

(** [_normalize_id_and_ev(row.get("file", ""))] *)
Definition row_id (row : sample) : string * string :=
  _normalize_id_and_ev (py_str repr (default (VStr "") (row !! "file"%string))).

(** [desired_ev and ev != desired_ev] *)
Definition wrong_ev (desired_ev ev : string) : bool :=
  negb (String.eqb desired_ev "") && negb (String.eqb ev desired_ev).

(** What a round of the loop does with a row. *)
Inductive row_fate :=
| SkippedRank
| SkippedEv
| Kept (key : string * Z) (conf : float).

(** One round of the loop over the rows; the outer [option] is [None]
    when [confidence_from_row] raises. *)
Definition row_fate_of (desired_ev : string) (E_good E_bad : float)
           (row : sample) : option row_fate :=
  match row_rank row with
  | None => Some SkippedRank
  | Some rk =>
      let '(base_id, ev) := row_id row in
      if wrong_ev desired_ev ev then Some SkippedEv
      else
        conf ← confidence_from_row float_of_string row E_good E_bad;
        Some (Kept (base_id, rk) conf)
  end.

Definition apply_fate (acc : conf_table * load_stats) (f : row_fate)
  : conf_table * load_stats :=
  let '(conf_map, st) := acc in
  match f with
  | SkippedRank =>
      (conf_map, {| kept := kept st; skipped_ev := skipped_ev st;
                    skipped_rank := S (skipped_rank st) |})
  | SkippedEv =>
      (conf_map, {| kept := kept st; skipped_ev := S (skipped_ev st);
                    skipped_rank := skipped_rank st |})
  | Kept key conf =>
      (<[ key := conf ]> conf_map,
       {| kept := S (kept st); skipped_ev := skipped_ev st;
          skipped_rank := skipped_rank st |})
  end.

(** The loop over the rows of the report. *)
Fixpoint load_rows (desired_ev : string) (E_good E_bad : float)
         (rows : list sample) (acc : conf_table * load_stats)
  : option (conf_table * load_stats) :=
  match rows with
  | [] => Some acc
  | row :: rest =>
      f ← row_fate_of desired_ev E_good E_bad row;
      load_rows desired_ev E_good E_bad rest (apply_fate acc f)
  end.

Definition no_stats : load_stats :=
  {| kept := 0; skipped_ev := 0; skipped_rank := 0 |}.

(** [load_confidence_map_by_id_and_rank].  [report] is [None] when the
    file at [csv_path] does not exist, and the rows of the report
    otherwise. *)
Definition load_confidence_map_by_id_and_rank
           (csv_path : string) (report : option (list sample))
           (desired_ev : string) (E_good E_bad : float)
  : option conf_table :=
  if String.eqb csv_path "" then Some ∅
  else
    match report with
    | None => Some ∅
    | Some rows =>
        fst <$> load_rows desired_ev E_good E_bad rows (∅, no_stats)
    end.

End Loader.

(* ------------------------------------------------------------------ *)
(** ** The script of the page                                         *)
(* ------------------------------------------------------------------ *)

(** The double quote. *)
Definition dquote : ascii := "034"%char.

(** [s.replaceAll(c, repl)] for a pattern of one character. *)
Definition replace_all_char (c : ascii) (repl s : chars) : chars :=
  flat_map (fun x => if Ascii.eqb x c then repl else [x]) s.

(** [escapeHtml] *)
Definition escapeHtml (s : chars) : chars :=
  replace_all_char "'" (ch "&#039;")
    (replace_all_char dquote (ch "&quot;")
       (replace_all_char ">" (ch "&gt;")
          (replace_all_char "<" (ch "&lt;")
             (replace_all_char "&" (ch "&amp;") s)))).

(** [ToInt32] and [ToUint32] on an integer. *)
Definition to_int32 (z : Z) : Z := ((z + 2 ^ 31) mod 2 ^ 32 - 2 ^ 31)%Z.
Definition to_uint32 (z : Z) : Z := (z mod 2 ^ 32)%Z.

(** [h ^= c; h = Math.imul(h, 16777619)] *)
Definition hash_step (h c : Z) : Z :=
  let h := Z.lxor (to_int32 h) (to_int32 c) in
  to_int32 (to_int32 h * to_int32 16777619).

(** [hashString], on the code units of the string. *)
Definition hashString (str : list Z) : Z :=
  to_uint32 (foldl hash_step 2166136261%Z str).

Definition MUTED : list string :=
  [ "#5B8E7D"; "#F2D0A4"; "#B5838D"; "#6D597A"; "#A8C686"; "#E6B8A2";
    "#7EA8BE"; "#CDB4DB"; "#9A8C98"; "#DDBEA9" ]%string.

(** [MUTED[idx]]: [None] stands for [undefined], the value at an index
    that is negative or past the end. *)
Definition js_index {A} (l : list A) (idx : Z) : option A :=
  if (idx <? 0)%Z then None else l !! Z.to_nat idx.

(** [getArtistColor]: the colour returned and the cache
    [artistColorMap] after the call.  [%] is the remainder of
    JavaScript, which has the sign of the dividend. *)
Definition getArtistColor (cache : gmap (list Z) (option string))
           (artist : list Z) : option string * gmap (list Z) (option string) :=
  match cache !! artist with
  | Some color => (color, cache)
  | None =>
      let idx := Z.rem (hashString artist) (Z.of_nat (List.length MUTED)) in
      let color := js_index MUTED idx in
      (color, <[ artist := color ]> cache)
  end.

(** [window.toggleRank] on the set [enabledRanks]. *)
Definition toggleRank (enabledRanks : gset Z) (rk : Z) : gset Z :=
  let s := if decide (rk ∈ enabledRanks) then enabledRanks ∖ {[ rk ]}
           else enabledRanks ∪ {[ rk ]} in
  if decide (size s = 0%nat) then s ∪ {[ rk ]} else s.

(** [safeFilename] of the page.  The second [replace] is global over
    the pattern [^_+|_+$]: at the start of the text the alternative
    [^_+] is tried first; at every position the alternative [_+$], a
    run of underscores that has to reach the end of the text. *)
Definition UNDERSCORES : Re.regex := Re.Plus (Ascii.eqb "_").

(** The continuation for [$]. *)
Definition at_end (s : chars) : option chars :=
  match s with
  | [] => Some []
  | _ :: _ => None
  end.

Definition edge_match (at_start : bool) (s : chars) : option chars :=
  match (if at_start then Re.rmatch UNDERSCORES s Some else None) with
  | Some rest => Some rest
  | None => Re.rmatch UNDERSCORES s at_end
  end.

Fixpoint trim_edges_from (fuel : nat) (at_start : bool) (s : chars) : chars :=
  match fuel with
  | O => s
  | S f =>
      match s with
      | [] => []
      | c :: s' =>
          match edge_match at_start s with
          | Some rest => trim_edges_from f false rest
          | None => c :: trim_edges_from f false s'
          end
      end
  end.

Definition trim_edges (s : chars) : chars :=
  trim_edges_from (List.length s) true s.

Definition safeFilename (name : chars) : chars :=
  let s := trim_edges (sub_all UNSAFE_RUN (ch "_") name) in
  match s with
  | [] => ch "untitled"
  | _ :: _ => s
  end.



(* ------------------------------------------------------------------ *)
(** ** The files staged for the page                                  *)
(* ------------------------------------------------------------------ *)



(** The copies a staging loop asks for on a walk, in its order: each
    file that passes the test, from [os.path.join(r, fn)] to
    [os.path.join(dst_root, fn)]. *)
Definition staged_copies (keep : chars -> bool) (dst_root : string) (w : walk)
  : list (string * string) :=
  flat_map (fun entry : string * list string * list string =>
              let '(r, _, files) := entry in
              map (fun fn => (path_join r fn, path_join dst_root fn))
                (List.filter (fun fn => keep (ch fn)) files)) w.

(* ------------------------------------------------------------------ *)
(** ** The angle between two directions                               *)
(* ------------------------------------------------------------------ *)

Module Js.

(** [Math.min] and [Math.max] on two numbers: NaN when an argument is
    NaN, and [-0] below [+0]. *)
Definition Math_min (a b : float) : float :=
  if PrimFloat.is_nan a || PrimFloat.is_nan b then nan
  else if PrimFloat.ltb a b then a
  else if PrimFloat.ltb b a then b
  else if PrimFloat.get_sign a then a else b.

Definition Math_max (a b : float) : float :=
  if PrimFloat.is_nan a || PrimFloat.is_nan b then nan
  else if PrimFloat.ltb a b then b
  else if PrimFloat.ltb b a then a
  else if PrimFloat.get_sign a then b else a.

Definition clamp (x lo hi : float) : float := Math_max lo (Math_min hi x).

(** The product [a[0]*b[0] + a[1]*b[1] + a[2]*b[2]]. *)
Definition dot3 (a b : float * float * float) : float :=
  let '(a0, a1, a2) := a in
  let '(b0, b1, b2) := b in
  (a0 * b0 + a1 * b1 + a2 * b2)%float.

(** The argument [angleDegBetween] hands to [Math.acos]. *)
Definition angle_cosine (a b : float * float * float) : float :=
  clamp (dot3 a b) (- 1)%float 1%float.

End Js.

(* ------------------------------------------------------------------ *)
(** ** Notions used to state what these functions do                  *)
(* ------------------------------------------------------------------ *)

Definition all_safe (s : chars) : Prop :=
  Forall (fun c => is_safe_char c = true) s.

(** What [safe_filename] returns: not empty, made of the characters
    [A-Za-z0-9._-], no underscore at either end. *)
Record safe_name (s : chars) : Prop := {
  safe_nonempty : s <> [];
  safe_chars : all_safe s;
  safe_no_lead : no_lead (Ascii.eqb "_") s;
  safe_no_trail : no_lead (Ascii.eqb "_") (rev s)
}.

(** The first value given to [k] in a list of pairs. *)
Fixpoint assoc_first (k : string) (l : list (string * string)) : option string :=
  match l with
  | [] => None
  | (k', v) :: rest => if String.eqb k' k then Some v else assoc_first k rest
  end.

(** The index after more pairs are read, a key being written only when
    it is new. *)
Definition index_pairs (idx : gmap string string) (l : list (string * string))
  : gmap string string :=
  foldl (fun idx kv => match idx !! kv.1 with
                       | Some _ => idx
                       | None => <[ kv.1 := kv.2 ]> idx
                       end) idx l.

(** A score: a float between [0.0] and [1.0]. *)
Definition unit_score (v : float) : Prop :=
  PrimFloat.leb 0%float v = true /\ PrimFloat.leb v 1%float = true.

(** The entry a list of fates leaves at [key]: that of the last row
    kept there. *)
Fixpoint last_kept (key : string * Z) (fates : list row_fate) : option float :=
  match fates with
  | [] => None
  | f :: rest =>
      match last_kept key rest with
      | Some c => Some c
      | None =>
          match f with
          | Kept k c => if bool_decide (k = key) then Some c else None
          | _ => None
          end
      end
  end.

Definition total_rows (st : load_stats) : nat :=
  (kept st + skipped_ev st + skipped_rank st)%nat.


(** What [escapeHtml] writes for one character. *)
Definition escape_char (x : ascii) : chars :=
  if Ascii.eqb x "&" then ch "&amp;"
  else if Ascii.eqb x "<" then ch "&lt;"
  else if Ascii.eqb x ">" then ch "&gt;"
  else if Ascii.eqb x dquote then ch "&quot;"
  else if Ascii.eqb x "'" then ch "&#039;"
  else [x].

(** A cache of [getArtistColor] that holds colours of the palette
    only. *)
Definition palette_cache (cache : gmap (list Z) (option string)) : Prop :=
  map_Forall (fun _ c => exists color, c = Some color /\ color ∈ MUTED) cache.


(* ------------------------------------------------------------------ *)
(** ** A small quality report                                         *)
(* ------------------------------------------------------------------ *)

(** [float] on the strings of the report below. *)
Definition report_float_of_string (s : string) : option float :=
  if String.eqb s "0" then Some 0%float
  else if String.eqb s "1" then Some 1%float
  else if String.eqb s "2" then Some 2%float
  else if String.eqb s "0.25" then Some 0.25%float
  else if String.eqb s "0.5" then Some 0.5%float
  else None.

Definition report_row (file rank frac mae : string) : sample :=
  {[ "file"%string := VStr file;
     "rank"%string := VStr rank;
     "inlier_weight_frac"%string := VStr frac;
     "mae_in_deg_weighted"%string := VStr mae ]}.

Definition report_rows : list sample :=
  [ report_row "R2: Artist_Name_ev-25_points.json" "2" "0.25" "1";
    report_row "Other_ev-00_points.json" "1" "0.5" "1";
    report_row "Bad_ev-25.json" "two" "0.5" "1";
    report_row "out/Artist_Name_ev-25.json" "2" "0.5" "1" ].

Definition report_table : conf_table :=
  {[ ("Artist_Name"%string, 2%Z) := 0.5%float ]}.

(** A row and a sample without a rank. *)
Definition rankless_row : sample :=
  {[ "file"%string := VStr "Artist_Name.json";
     "inlier_weight_frac"%string := VStr "0.5";
     "mae_in_deg_weighted"%string := VStr "1" ]}.

Definition rankless_sample : sample :=
  {[ "painting_info"%string := VStr "Artist_Name" ]}.

(* ------------------------------------------------------------------ *)
(** ** Notions used to state what binary64 arithmetic computes        *)
(* ------------------------------------------------------------------ *)

(** Powers of two with an integer exponent. *)
Definition pow2 (e : Z) : R := powerRZ 2 e.

(** Where a real [x] lies in the cell that starts at [lo] and has width
    [w]: at its start, in its lower half, at its middle, in its upper
    half. *)
Definition loc_rep (x lo w : R) (l : location) : Prop :=
  match l with
  | loc_Exact => x = lo
  | loc_Inexact Lt => (lo < x < lo + w / 2)%R
  | loc_Inexact Eq => x = (lo + w / 2)%R
  | loc_Inexact Gt => (lo + w / 2 < x < lo + w)%R
  end.

(** The mantissa [m], the exponent [e] and the location [l] describe
    the real [x]: it lies in the cell [[m * 2^e, (m + 1) * 2^e)], at
    the place [l]. *)
Definition represents (x : R) (m e : Z) (l : location) : Prop :=
  loc_rep x (IZR m * pow2 e) (pow2 e) l.

(** A number that is finite: a zero or a finite number. *)
Definition sf_finite (f : spec_float) : Prop :=
  match f with
  | S754_zero _ | S754_finite _ _ _ => True
  | _ => False
  end.

Definition sign_factor (s : bool) : R := if s then (-1)%R else 1%R.

Definition Rcmp (x y : R) (c : comparison) : Prop :=
  match c with
  | Lt => (x < y)%R
  | Eq => x = y
  | Gt => (y < x)%R
  end.

Section RoundingNotions.

Variables prec emax : Z.

(** The exponent at which a positive real is rounded: the format's
    smallest exponent, or the one that leaves [prec] digits. *)
Definition round_exponent (x : R) (E : Z) : Prop :=
  (SpecFloat.emin prec emax <= E)%Z
  /\ (x < pow2 (E + prec))%R
  /\ ((SpecFloat.emin prec emax < E)%Z -> (pow2 (E + prec - 1) <= x)%R).

(** The number with sign [s], mantissa [N] and exponent [E], where [N]
    may be [0] or [2^prec]; an infinity when it is too large. *)
Definition pack_float (s : bool) (N E : Z) : spec_float :=
  if (N =? 0)%Z then S754_zero s
  else if (N =? 2 ^ prec)%Z then
    if (E + 1 <=? emax - prec)%Z
    then S754_finite s (Z.to_pos (2 ^ (prec - 1))) (E + 1)
    else S754_infinity s
  else if (E <=? emax - prec)%Z then S754_finite s (Z.to_pos N) E
  else S754_infinity s.

(** The real value of a number; an infinity stands at [2^emax], above
    every finite number. *)
Definition SF2R (f : spec_float) : R :=
  match f with
  | S754_zero _ => 0%R
  | S754_finite s m e => (sign_factor s * (IZR (Zpos m) * pow2 e))%R
  | S754_infinity s => (sign_factor s * pow2 emax)%R
  | S754_nan => 0%R
  end.

(** Mantissa and exponent of a number of the format. *)
Definition canonical (m e : Z) : Prop :=
  (SpecFloat.emin prec emax <= e <= emax - prec)%Z
  /\ (0 < m < 2 ^ prec)%Z
  /\ ((SpecFloat.emin prec emax < e)%Z -> (2 ^ (prec - 1) <= m)%Z).

(** A number of the format that is not NaN. *)
Definition sf_good (f : spec_float) : Prop :=
  match f with
  | S754_nan => False
  | S754_finite _ m e => canonical (Zpos m) e
  | _ => True
  end.

Definition pre_canonical (N E : Z) : Prop :=
  (SpecFloat.emin prec emax <= E)%Z
  /\ (0 <= N <= 2 ^ prec)%Z
  /\ ((SpecFloat.emin prec emax < E)%Z -> (2 ^ (prec - 1) <= N)%Z).

(** [f] is the positive real [x] rounded to nearest, ties to even, and
    given the sign [s]. *)
Definition rounds_pos (x : R) (s : bool) (f : spec_float) : Prop :=
  exists E M l,
    round_exponent x E /\ represents x M E l /\ (0 <= M)%Z
    /\ f = pack_float s (round_nearest_even M l) E.

(** [f] is the real [x] rounded to nearest, ties to even. *)
Definition rounds_to (x : R) (f : spec_float) : Prop :=
  (x = 0%R /\ exists s, f = S754_zero s)
  \/ ((0 < x)%R /\ rounds_pos x false f)
  \/ ((x < 0)%R /\ rounds_pos (- x) true f).

End RoundingNotions.

(** The real value of a binary64 number, and what it is for one to be a
    number (not NaN). *)
Definition B2R (x : float) : R := SF2R emax (Prim2SF x).

Definition is_number (x : float) : Prop := sf_good prec emax (Prim2SF x).

(** The clamp and the ramp of the scorer, on binary64. *)
Definition float_clamp (c : float) : float :=
  py_max 0%float (py_min 1%float c).

Definition float_ramp (t : float) : float :=
  if PrimFloat.ltb t 0%float then 1%float
  else if PrimFloat.ltb 1%float t then 0%float
  else (1 - t)%float.

Definition float_threshold (mae E_good : float) : float :=
  if PrimFloat.leb mae E_good then 1%float else 0%float.

(** The factor [mae_conf] of the scorer, on binary64. *)
Definition mae_factor (mae E_good E_bad : float) : float :=
  if PrimFloat.leb E_bad E_good then float_threshold mae E_good
  else float_ramp ((mae - E_good) / (E_bad - E_good)).
(* ------------------------------------------------------------------ *)
(** ** Facts about the text primitives                                *)
(* ------------------------------------------------------------------ *)

Section TextFacts.

Variable p : ascii -> bool.

Lemma take_drop_while (s : chars) :
  take_while p s ++ drop_while p s = s.
Proof.
  induction s as [|c r IH]; simpl; [reflexivity|].
  destruct (p c); simpl; [now rewrite IH | reflexivity].
Qed.

Lemma take_while_all (s : chars) :
  Forall (fun c => p c = true) s -> take_while p s = s.
Proof.
  induction 1 as [|c r Hc _ IH]; simpl; [reflexivity|].
  now rewrite Hc, IH.
Qed.

Lemma take_while_Forall (s : chars) :
  Forall (fun c => p c = true) (take_while p s).
Proof.
  induction s as [|c r IH]; simpl; [constructor|].
  destruct (p c) eqn:E; constructor; assumption.
Qed.

Lemma drop_while_app_all (w s : chars) :
  Forall (fun c => p c = true) w -> drop_while p (w ++ s) = drop_while p s.
Proof.
  induction 1 as [|c r Hc _ IH]; simpl; [reflexivity|].
  now rewrite Hc.
Qed.

Lemma drop_while_no_lead (s : chars) : no_lead p (drop_while p s).
Proof.
  induction s as [|c r IH]; simpl; [exact I|].
  destruct (p c) eqn:E; [exact IH | exact E].
Qed.

Lemma drop_while_id (s : chars) : no_lead p s -> drop_while p s = s.
Proof. destruct s as [|c r]; simpl; [reflexivity|]. now intros ->. Qed.

Lemma drop_while_suffix (s : chars) :
  exists w, s = w ++ drop_while p s.
Proof. exists (take_while p s). symmetry. apply take_drop_while. Qed.

Lemma rstrip_by_prefix (s : chars) :
  exists w, s = rstrip_by p s ++ w.
Proof.
  unfold rstrip_by.
  destruct (drop_while_suffix (rev s)) as [w Hw].
  exists (rev w).
  rewrite <- rev_app_distr, <- Hw. symmetry. apply rev_involutive.
Qed.

Lemma rstrip_by_no_lead (s : chars) : no_lead p s -> no_lead p (rstrip_by p s).
Proof.
  intros H. destruct (rstrip_by_prefix s) as [w Hw].
  destruct (rstrip_by p s) as [|c r]; [exact I|].
  rewrite Hw in H. exact H.
Qed.

Lemma rstrip_by_no_trail (s : chars) : no_lead p (rev (rstrip_by p s)).
Proof.
  unfold rstrip_by. rewrite rev_involutive. apply drop_while_no_lead.
Qed.

Lemma strip_by_no_lead (s : chars) : no_lead p (strip_by p s).
Proof. apply rstrip_by_no_lead, drop_while_no_lead. Qed.

Lemma strip_by_no_trail (s : chars) : no_lead p (rev (strip_by p s)).
Proof. apply rstrip_by_no_trail. Qed.

Lemma strip_by_id (s : chars) :
  no_lead p s -> no_lead p (rev s) -> strip_by p s = s.
Proof.
  intros H1 H2. unfold strip_by, lstrip_by, rstrip_by.
  rewrite (drop_while_id s H1), (drop_while_id _ H2).
  apply rev_involutive.
Qed.

(** [strip] only removes characters: the result is a slice of the
    argument. *)
Lemma strip_by_infix (s : chars) :
  exists u w, s = u ++ strip_by p s ++ w.
Proof.
  unfold strip_by, lstrip_by.
  destruct (drop_while_suffix s) as [u Hu].
  destruct (rstrip_by_prefix (drop_while p s)) as [w Hw].
  exists u, w. now rewrite <- Hw.
Qed.

End TextFacts.

Lemma Forall_infix {A} (P : A -> Prop) (u m w : list A) :
  Forall P (u ++ m ++ w) -> Forall P m.
Proof.
  intros H. apply Forall_app in H as [_ H]. now apply Forall_app in H as [H _].
Qed.

Lemma strip_by_Forall (P : ascii -> Prop) (q : ascii -> bool) (s : chars) :
  Forall P s -> Forall P (strip_by q s).
Proof.
  intros H. destruct (strip_by_infix q s) as (u & w & E).
  rewrite E in H. exact (Forall_infix _ _ _ _ H).
Qed.

Lemma startswith_spec (s pre : chars) :
  startswith s pre = true <-> exists t, s = pre ++ t.
Proof.
  revert s. induction pre as [|q pre IH]; intros s; simpl.
  - split; [intros _; now exists s | reflexivity].
  - destruct s as [|c s].
    + split; [discriminate | intros [t Ht]; discriminate].
    + rewrite andb_true_iff, Ascii.eqb_eq, IH. split.
      * intros [-> [t ->]]. now exists t.
      * intros [t Ht]. injection Ht as -> ->. split; [reflexivity | now exists t].
Qed.

Lemma contains_spec (s pat : chars) :
  contains s pat = true <-> exists u w, s = u ++ pat ++ w.
Proof.
  induction s as [|c r IH].
  - simpl. rewrite orb_false_r, startswith_spec. split.
    + intros [t Ht]. now exists [], t.
    + intros (u & w & E). destruct u; [now exists w|discriminate].
  - cbn [contains]. rewrite orb_true_iff, startswith_spec, IH. split.
    + intros [[t Ht] | (u & w & E)].
      * now exists [], t.
      * exists (c :: u), w. now rewrite E.
    + intros (u & w & E). destruct u as [|c' u].
      * left. now exists w.
      * right. injection E as -> E. now exists u, w.
Qed.

Lemma contains_infix (u m w pat : chars) :
  contains (u ++ m ++ w) pat = false -> contains m pat = false.
Proof.
  intros H. destruct (contains m pat) eqn:E; [|reflexivity].
  apply contains_spec in E as (u' & w' & ->).
  assert (contains (u ++ (u' ++ pat ++ w') ++ w) pat = true) as H'.
  { apply contains_spec. exists (u ++ u'), (w' ++ w).
    now rewrite <- !app_assoc. }
  congruence.
Qed.

Lemma basename_avoids (s : chars) : avoids "/" (basename s).
Proof.
  unfold avoids, basename. apply Forall_rev.
  eapply Forall_impl; [apply take_while_Forall|].
  simpl. intros c H. now apply negb_true_iff in H.
Qed.

Lemma basename_id (s : chars) : avoids "/" s -> basename s = s.
Proof.
  intros H. unfold basename. rewrite take_while_all.
  - apply rev_involutive.
  - apply Forall_rev. eapply Forall_impl; [exact H|].
    simpl. intros c Hc. now rewrite Hc.
Qed.

Lemma replace_char_avoids (a b : ascii) (s : chars) :
  Ascii.eqb b a = false -> avoids a (replace_char a b s).
Proof.
  intros Hab. unfold avoids, replace_char. apply Forall_map, Forall_forall.
  intros c _. simpl. destruct (Ascii.eqb c a) eqn:E; assumption.
Qed.

Lemma replace_char_id (a b : ascii) (s : chars) :
  avoids a s -> replace_char a b s = s.
Proof.
  unfold replace_char. induction 1 as [|c r Hc _ IH]; simpl; [reflexivity|].
  now rewrite Hc, IH.
Qed.

(** Induction two characters at a time, as [replace_dunder] recurses. *)
Lemma chars_ind2 (P : chars -> Prop) :
  P [] -> (forall c, P [c]) ->
  (forall c1 c2 r, P r -> P (c2 :: r) -> P (c1 :: c2 :: r)) ->
  forall s, P s.
Proof.
  intros H0 H1 H2 s.
  assert (P s /\ forall c, P (c :: s)) as [H _]; [|exact H].
  induction s as [|c r [IH1 IH2]]; split; auto.
Qed.

Lemma replace_dunder_eq (c1 c2 : ascii) (r : chars) :
  replace_dunder (c1 :: c2 :: r) =
  if Ascii.eqb c1 "_" && Ascii.eqb c2 "_"
  then "_"%char :: replace_dunder r
  else c1 :: replace_dunder (c2 :: r).
Proof. reflexivity. Qed.

Lemma replace_dunder_Forall (P : ascii -> Prop) (s : chars) :
  Forall P s -> Forall P (replace_dunder s).
Proof.
  induction s as [| c | c1 c2 r IH1 IH2] using chars_ind2; intros H;
    [exact H | exact H |].
  rewrite replace_dunder_eq.
  pose proof (Forall_inv H) as Hc1. pose proof (Forall_inv_tail H) as Ht.
  destruct (Ascii.eqb c1 "_" && Ascii.eqb c2 "_") eqn:E.
  - apply andb_true_iff in E as [E1 _]. apply Ascii.eqb_eq in E1. subst c1.
    constructor; [exact Hc1|]. apply IH1. exact (Forall_inv_tail Ht).
  - constructor; [exact Hc1 | now apply IH2].
Qed.

Lemma replace_dunder_length (s : chars) :
  List.length (replace_dunder s) <= List.length s.
Proof.
  induction s as [| c | c1 c2 r IH1 IH2] using chars_ind2;
    [simpl; lia | simpl; lia |].
  rewrite replace_dunder_eq.
  destruct (Ascii.eqb c1 "_" && Ascii.eqb c2 "_"); cbn [List.length] in *; lia.
Qed.

Lemma replace_dunder_shrinks (s : chars) :
  contains s (ch "__") = true ->
  List.length (replace_dunder s) < List.length s.
Proof.
  induction s as [| c | c1 c2 r IH1 IH2] using chars_ind2; intros H;
    [discriminate | cbn in H; rewrite ?andb_false_r in H; discriminate |].
  rewrite replace_dunder_eq.
  destruct (Ascii.eqb c1 "_" && Ascii.eqb c2 "_") eqn:E.
  - pose proof (replace_dunder_length r). cbn [List.length]. lia.
  - assert (contains (c2 :: r) (ch "__") = true) as H'.
    { cbn [contains ch list_ascii_of_string startswith] in H |- *.
      rewrite (Ascii.eqb_sym "_" c1), (Ascii.eqb_sym "_" c2) in H.
      rewrite andb_true_r in H. rewrite E in H. exact H. }
    specialize (IH2 H'). cbn [List.length] in *. lia.
Qed.

Lemma collapse_loop_clean (fuel : nat) (s : chars) :
  List.length s <= fuel ->
  contains (collapse_loop fuel s) (ch "__") = false.
Proof.
  revert s. induction fuel as [|f IH]; intros s Hlen.
  - destruct s; [reflexivity | simpl in Hlen; lia].
  - cbn [collapse_loop]. destruct (contains s (ch "__")) eqn:E; [|exact E].
    apply IH. pose proof (replace_dunder_shrinks s E). lia.
Qed.

(** The loop has really stopped: no doubled underscore is left. *)
Lemma collapse_clean (s : chars) : contains (collapse s) (ch "__") = false.
Proof. apply collapse_loop_clean. reflexivity. Qed.

Lemma collapse_loop_Forall (P : ascii -> Prop) (fuel : nat) (s : chars) :
  Forall P s -> Forall P (collapse_loop fuel s).
Proof.
  revert s. induction fuel as [|f IH]; intros s H; [exact H|].
  cbn [collapse_loop]. destruct (contains s (ch "__")); [|exact H].
  apply IH, replace_dunder_Forall, H.
Qed.

Lemma collapse_id (s : chars) :
  contains s (ch "__") = false -> collapse s = s.
Proof.
  intros H. unfold collapse. destruct (List.length s); [reflexivity|].
  cbn [collapse_loop]. now rewrite H.
Qed.

(* ------------------------------------------------------------------ *)
(** ** Facts about the matcher and the rank-prefix pattern            *)
(* ------------------------------------------------------------------ *)

Ltac ascii_cases c :=
  destruct c as [[] [] [] [] [] [] [] []];
  vm_compute; try reflexivity; try discriminate.

Lemma space_not_sep (c : ascii) : is_space c = true -> is_sep c = false.
Proof. ascii_cases c. Qed.

Lemma space_not_r (c : ascii) : is_space c = true -> Re.ci "r" c = false.
Proof. ascii_cases c. Qed.

Lemma letter_a_not_digit (c : ascii) :
  Re.ci "a" c = true -> is_rank_digit c = false.
Proof. ascii_cases c. Qed.

Lemma sep_not_space (c : ascii) : is_sep c = true -> is_space c = false.
Proof. ascii_cases c. Qed.

Lemma letter_r_not_space (c : ascii) : Re.ci "r" c = true -> is_space c = false.
Proof. ascii_cases c. Qed.

Section MatcherFacts.

Variable p : ascii -> bool.

(** When the continuation cannot start on a character of the class,
    giving characters back never helps: the run is taken whole. *)
Lemma star_match_det (k : chars -> option chars) (s : chars) :
  (forall c s', p c = true -> k (c :: s') = None) ->
  Re.star_match p s k = k (drop_while p s).
Proof.
  intros Hk. induction s as [|c r IH]; simpl; [reflexivity|].
  destruct (p c) eqn:E; [|reflexivity].
  rewrite IH, (Hk c r E). now destruct (k (drop_while p r)).
Qed.

Lemma star_match_total (s : chars) :
  Re.star_match p s Some = Some (drop_while p s).
Proof.
  induction s as [|c r IH]; simpl; [reflexivity|].
  destruct (p c); [now rewrite IH | reflexivity].
Qed.

Lemma star_match_suffix (k : chars -> option chars) (s x : chars) :
  Re.star_match p s k = Some x ->
  exists w s1, s = w ++ s1 /\ k s1 = Some x.
Proof.
  induction s as [|c r IH]; simpl; intros H.
  - now exists [], [].
  - destruct (p c); [|now exists [], (c :: r)].
    destruct (Re.star_match p r k) as [y|] eqn:E.
    + injection H as ->. destruct (IH eq_refl) as (w & s1 & -> & Hk).
      now exists (c :: w), s1.
    + now exists [], (c :: r).
Qed.

End MatcherFacts.

(** A match consumes a prefix: what the continuation sees is a suffix. *)
Lemma rmatch_suffix (r : Re.regex) :
  forall (k : chars -> option chars) (s x : chars),
    Re.rmatch r s k = Some x ->
    exists w s1, s = w ++ s1 /\ k s1 = Some x.
Proof.
  induction r as [p | r1 IH1 r2 IH2 | r1 IH1 | p | p]; intros k s x H; simpl in H.
  - destruct s as [|c s']; [discriminate|].
    destruct (p c); [|discriminate]. now exists [c], s'.
  - apply IH1 in H as (w1 & s1 & -> & H).
    apply IH2 in H as (w2 & s2 & -> & H).
    exists (w1 ++ w2), s2. now rewrite <- app_assoc.
  - destruct (Re.rmatch r1 s k) as [y|] eqn:E.
    + injection H as ->. now apply IH1 in E.
    + now exists [], s.
  - now apply star_match_suffix in H.
  - destruct s as [|c s']; [discriminate|].
    destruct (p c); [|discriminate].
    apply star_match_suffix in H as (w & s1 & -> & H).
    now exists (c :: w), s1.
Qed.

Lemma sub_anchored_suffix (r : Re.regex) (s : chars) :
  exists w, s = w ++ Re.sub_anchored r s.
Proof.
  unfold Re.sub_anchored. destruct (Re.rmatch r s Some) as [x|] eqn:E.
  - apply rmatch_suffix in E as (w & s1 & -> & [= ->]). now exists w.
  - now exists [].
Qed.

Lemma rank_core_rmatch (s : chars) :
  Re.rmatch RANK_CORE s Some = rank_core s.
Proof.
  unfold RANK_CORE, rank_core. cbn [Re.rmatch].
  destruct s as [|r [|d t]]; [reflexivity | now destruct (Re.ci "r" r) |].
  destruct (Re.ci "r" r); [|reflexivity].
  destruct (is_rank_digit d); [|reflexivity]. cbn [andb].
  rewrite star_match_det.
  - destruct (drop_while is_space t) as [|c u]; [reflexivity|].
    destruct (is_sep c); [apply star_match_total | reflexivity].
  - intros c s' Hc. now rewrite (space_not_sep c Hc).
Qed.

Lemma rank_core_space (c : ascii) (s : chars) :
  is_space c = true -> rank_core (c :: s) = None.
Proof.
  intros H. unfold rank_core. destruct s; [reflexivity|].
  now rewrite (space_not_r c H).
Qed.

Lemma rank_word_core (s t : chars) :
  rank_word s = Some t -> rank_core s = None.
Proof.
  unfold rank_word, rank_core.
  destruct s as [|c1 [|c2 [|c3 [|c4 u]]]]; try discriminate.
  destruct (Re.ci "r" c1); [|discriminate].
  destruct (Re.ci "a" c2) eqn:E; [|discriminate].
  intros _. now rewrite (letter_a_not_digit c2 E).
Qed.

(** The pattern of the source and the direct reading agree. *)
Lemma rank_prefix_rmatch (s : chars) :
  Re.rmatch RANK_PREFIX s Some = rank_prefix_direct s.
Proof.
  change RANK_PREFIX with
    (Re.Seq (Re.Opt (Re.lit_ci (ch "rank") (Re.Star is_space))) RANK_CORE).
  unfold rank_prefix_direct. cbn [Re.rmatch].
  assert (forall u, Re.star_match is_space u (fun s1 => Re.rmatch RANK_CORE s1 Some)
                    = rank_core (drop_while is_space u)) as Hstar.
  { intros u. rewrite star_match_det; [apply rank_core_rmatch|].
    intros c s' Hc. rewrite rank_core_rmatch. now apply rank_core_space. }
  destruct (rank_word s) as [t|] eqn:Hw.
  - pose proof (rank_word_core s t Hw) as Hnone.
    unfold rank_word in Hw.
    destruct s as [|c1 [|c2 [|c3 [|c4 u]]]]; try discriminate.
    cbn [ch list_ascii_of_string Re.lit_ci Re.rmatch].
    destruct (Re.ci "r" c1); [|discriminate].
    destruct (Re.ci "a" c2); [|discriminate].
    destruct (Re.ci "n" c3); [|discriminate].
    destruct (Re.ci "k" c4); [|discriminate].
    injection Hw as <-. rewrite Hstar.
    destruct (rank_core (drop_while is_space u)); [reflexivity|].
    rewrite rank_core_rmatch. exact Hnone.
  - assert (Re.rmatch (Re.lit_ci (ch "rank") (Re.Star is_space)) s
              (fun s1 => Re.rmatch RANK_CORE s1 Some) = None) as ->.
    { unfold rank_word in Hw.
      cbn [ch list_ascii_of_string Re.lit_ci Re.rmatch].
      destruct s as [|c1 [|c2 [|c3 [|c4 u]]]]; try reflexivity;
        destruct (Re.ci "r" c1); try reflexivity;
        destruct (Re.ci "a" c2); try reflexivity;
        destruct (Re.ci "n" c3); try reflexivity;
        destruct (Re.ci "k" c4); try reflexivity; discriminate. }
    apply rank_core_rmatch.
Qed.

(* ------------------------------------------------------------------ *)
(** ** What a canonical base id looks like                            *)
(* ------------------------------------------------------------------ *)

Lemma cut_suffix_Forall (P : ascii -> Prop) (suf : chars) (st : chars * chars) :
  Forall P (fst st) -> Forall P (fst (cut_suffix suf st)).
Proof.
  destruct st as [s low]. unfold cut_suffix. simpl.
  destruct (endswith low suf); simpl; [|trivial].
  unfold drop_last. apply Forall_take.
Qed.

Lemma cut_first_suffix_Forall (P : ascii -> Prop) (tags : list chars)
      (st : chars * chars) :
  Forall P (fst st) -> Forall P (fst (cut_first_suffix tags st)).
Proof.
  induction tags as [|tag rest IH]; simpl; [trivial|].
  destruct (endswith (snd st) tag); [apply cut_suffix_Forall | exact IH].
Qed.

Lemma sub_anchored_Forall (P : ascii -> Prop) (r : Re.regex) (s : chars) :
  Forall P s -> Forall P (Re.sub_anchored r s).
Proof.
  intros H. destruct (sub_anchored_suffix r s) as [w E].
  rewrite E in H. now apply Forall_app in H as [_ H].
Qed.

Lemma normalize_chars_eq (s0 : chars) :
  normalize_chars s0 =
  (tidy (Re.sub_anchored RANK_PREFIX (cut_suffixes (basename (strip s0)))),
   extract_ev_tag_chars (basename (strip s0))).
Proof. reflexivity. Qed.

Lemma tidy_Forall (P : ascii -> Prop) (s : chars) :
  P "_"%char -> Forall P s -> Forall P (tidy s).
Proof.
  intros Hu H. unfold tidy, strip_char.
  apply strip_by_Forall, collapse_loop_Forall.
  unfold replace_char. apply Forall_map.
  eapply Forall_impl; [exact H|]. simpl. intros c Hc.
  now destruct (Ascii.eqb c " ").
Qed.

Lemma tidy_no_blank (s : chars) : avoids " " (tidy s).
Proof.
  unfold tidy, strip_char.
  apply strip_by_Forall, collapse_loop_Forall.
  now apply replace_char_avoids.
Qed.

Lemma tidy_no_dunder (s : chars) : contains (tidy s) (ch "__") = false.
Proof.
  unfold tidy, strip_char.
  destruct (strip_by_infix (Ascii.eqb "_") (collapse (replace_char " " "_" s)))
    as (u & w & E).
  pose proof (collapse_clean (replace_char " " "_" s)) as H.
  rewrite E in H. exact (contains_infix _ _ _ _ H).
Qed.

Lemma tidy_id (s : chars) :
  avoids " " s -> contains s (ch "__") = false ->
  no_lead (Ascii.eqb "_") s -> no_lead (Ascii.eqb "_") (rev s) ->
  tidy s = s.
Proof.
  intros H1 H2 H3 H4. unfold tidy, strip_char.
  rewrite (replace_char_id _ _ _ H1), (collapse_id _ H2).
  now apply strip_by_id.
Qed.

Lemma normalize_chars_shape (s : chars) :
  canonical_shape (fst (normalize_chars s)).
Proof.
  rewrite normalize_chars_eq. cbn [fst]. split.
  - apply tidy_Forall; [reflexivity|].
    apply sub_anchored_Forall. unfold cut_suffixes.
    apply cut_first_suffix_Forall. do 3 apply cut_suffix_Forall.
    apply basename_avoids.
  - apply tidy_no_blank.
  - apply tidy_no_dunder.
  - apply strip_by_no_lead.
  - apply strip_by_no_trail.
Qed.

Lemma cut_suffixes_id (b : chars) :
  forallb (fun suf => negb (endswith (lower b) suf)) STRIPPED_SUFFIXES = true ->
  cut_suffixes b = b.
Proof.
  cbn [forallb STRIPPED_SUFFIXES]. rewrite !andb_true_iff, !negb_true_iff.
  intros (H1 & H2 & H3 & H4 & H5 & H6 & _).
  unfold cut_suffixes, cut_suffix, EV_SUFFIXES. cbn [cut_first_suffix].
  rewrite H1, H2, H3. cbn [snd]. now rewrite H4, H5, H6.
Qed.

Lemma normalize_chars_fixpoint (b : chars) :
  canonical_shape b -> affix_free_chars b = true ->
  normalize_chars b = (b, extract_ev_tag_chars b).
Proof.
  intros [S1 S2 S3 S4 S5]. unfold affix_free_chars.
  rewrite !andb_true_iff, bool_decide_eq_true. intros [[Hs Hsuf] Hre].
  rewrite normalize_chars_eq, Hs, (basename_id _ S1), (cut_suffixes_id _ Hsuf).
  unfold Re.sub_anchored.
  destruct (Re.rmatch RANK_PREFIX b Some); [discriminate|].
  now rewrite tidy_id.
Qed.

(* ------------------------------------------------------------------ *)
(** ** Facts about binary64 arithmetic                                *)
(* ------------------------------------------------------------------ *)

(** Not below zero: a zero of either sign, a positive number, [+inf],
    or NaN. *)
Definition sf_not_negative (f : spec_float) : Prop :=
  match f with
  | S754_zero _ | S754_nan => True
  | S754_infinity s | S754_finite s _ _ => s = false
  end.

Lemma binary_round_aux_sign (s : bool) (m e : Z) (l : location) :
  s = false -> sf_not_negative (binary_round_aux prec emax s m e l).
Proof.
  intros ->. unfold binary_round_aux.
  destruct (shr_fexp prec emax m e l) as [mrs' e'].
  destruct (shr_fexp prec emax _ e' loc_Exact) as [mrs'' e''].
  destruct (shr_m mrs''); simpl; trivial.
  destruct (e'' <=? emax - prec)%Z; reflexivity.
Qed.

Lemma SFmul_square (f : spec_float) : sf_not_negative (SFmul prec emax f f).
Proof.
  destruct f as [s | s | | s m e]; simpl; trivial.
  - now destruct s.
  - apply binary_round_aux_sign. now destruct s.
Qed.

Lemma SFadd_not_negative (f g : spec_float) :
  sf_not_negative f -> sf_not_negative g ->
  sf_not_negative (SFadd prec emax f g).
Proof.
  destruct f as [sf | sf | | sf mf ef], g as [sg | sg | | sg mg eg];
    simpl; trivial; try congruence.
  - now destruct sf, sg.
  - intros -> ->. reflexivity.
  - intros -> ->. unfold binary_normalize. simpl.
    unfold binary_round.
    destruct (shl_align _ _ _) as [mz ez].
    now apply binary_round_aux_sign.
Qed.

Lemma not_negative_ltb (x : float) :
  sf_not_negative (Prim2SF x) -> PrimFloat.ltb x 0%float = false.
Proof.
  intros H. rewrite ltb_spec. unfold SFltb.
  change (Prim2SF 0%float) with (S754_zero false).
  destruct (Prim2SF x) as [s | s | | s m e]; simpl in *; subst; reflexivity.
Qed.

(** A sum of three squares is never negative: [math.sqrt] does not
    raise in [magnitude]. *)
Lemma magnitude_total (x y z : float) :
  magnitude x y z = Some (PrimFloat.sqrt (x * x + y * y + z * z)%float).
Proof.
  unfold magnitude, math_sqrt. rewrite not_negative_ltb; [reflexivity|].
  rewrite !add_spec, !mul_spec.
  repeat apply SFadd_not_negative; apply SFmul_square.
Qed.

(** Below a positive threshold or not zero: the divisions of
    [normalize_vec] are by a non-zero number. *)
Lemma above_threshold_nonzero (n eps : float) :
  PrimFloat.ltb 0%float eps = true -> PrimFloat.ltb n eps = false ->
  PrimFloat.eqb n 0%float = false.
Proof.
  rewrite !ltb_spec, FloatAxioms.eqb_spec. unfold SFltb, SFeqb.
  change (Prim2SF 0%float) with (S754_zero false).
  destruct (Prim2SF n) as [s | s | | s m e], (Prim2SF eps) as [s' | s' | | s' m' e'];
    simpl; try congruence; destruct s; try congruence; destruct s'; congruence.
Qed.

Lemma ltb_leb (a b : float) :
  PrimFloat.ltb a b = true -> PrimFloat.leb a b = true.
Proof.
  rewrite ltb_spec, leb_spec. unfold SFltb, SFleb.
  destruct (SFcompare _ _) as [[]|]; congruence.
Qed.

(* ------------------------------------------------------------------ *)
(** ** The rank prefix, by shape                                      *)
(* ------------------------------------------------------------------ *)

Lemma rank_core_tag (t rest : chars) :
  rank_tag t -> rank_core (t ++ rest) = Some (drop_while is_sep rest).
Proof.
  intros [r d ws seps Hr Hd Hws Hseps Hne].
  destruct seps as [|c seps']; [congruence|].
  pose proof (Forall_inv Hseps) as Hc. pose proof (Forall_inv_tail Hseps) as Hs'.
  simpl in Hc. cbn [app rank_core]. rewrite Hr, Hd. cbn [andb].
  rewrite <- app_assoc, drop_while_app_all by exact Hws.
  cbn [app drop_while]. rewrite (sep_not_space c Hc), Hc.
  now rewrite drop_while_app_all.
Qed.

Lemma rank_word_tag (t rest : chars) :
  rank_tag t -> rank_word (t ++ rest) = None.
Proof.
  intros [r d ws seps Hr Hd _ _ _]. cbn [app rank_word].
  destruct (ws ++ seps ++ rest) as [|c3 [|c4 u]] eqn:E;
    rewrite <- app_assoc, E; try reflexivity.
  destruct (Re.ci "a" d) eqn:Ha.
  - apply letter_a_not_digit in Ha. congruence.
  - now rewrite andb_false_r.
Qed.

Lemma rank_word_lower (w rest : chars) :
  lower w = ch "rank" -> rank_word (w ++ rest) = Some rest.
Proof.
  intros H. destruct w as [|c1 [|c2 [|c3 [|c4 [|c5 w']]]]]; try discriminate.
  cbn in H. injection H as H1 H2 H3 H4.
  cbn [app rank_word]. unfold Re.ci. rewrite H1, H2, H3, H4. reflexivity.
Qed.

Lemma drop_while_space_tag (ws t rest : chars) :
  Forall (fun c => is_space c = true) ws -> rank_tag t ->
  drop_while is_space (ws ++ t ++ rest) = t ++ rest.
Proof.
  intros Hws [r d ws' seps Hr _ _ _ _].
  rewrite drop_while_app_all by exact Hws.
  cbn [app drop_while]. now rewrite (letter_r_not_space r Hr).
Qed.

Lemma rank_prefix_direct_shape (pre rest : chars) :
  rank_prefix pre ->
  rank_prefix_direct (pre ++ rest) = Some (drop_while is_sep rest).
Proof.
  intros [t Ht | w ws t Hw Hws Ht]; unfold rank_prefix_direct.
  - rewrite (rank_word_tag t rest Ht). now apply rank_core_tag.
  - rewrite <- !app_assoc, (rank_word_lower w _ Hw).
    rewrite (drop_while_space_tag ws t rest Hws Ht). now apply rank_core_tag.
Qed.

Lemma rank_core_shape (s x : chars) :
  rank_core s = Some x -> exists t rest, rank_tag t /\ s = t ++ rest.
Proof.
  unfold rank_core. destruct s as [|r [|d u]]; try discriminate.
  destruct (Re.ci "r" r) eqn:Hr; [|discriminate].
  destruct (is_rank_digit d) eqn:Hd; [|discriminate]. cbn [andb].
  destruct (drop_while is_space u) as [|c v] eqn:E; [discriminate|].
  destruct (is_sep c) eqn:Hc; [|discriminate]. intros _.
  exists (r :: d :: take_while is_space u ++ [c]), v. split.
  - constructor; trivial.
    + apply take_while_Forall.
    + now constructor.
    + discriminate.
  - cbn [app]. rewrite <- app_assoc. cbn [app]. rewrite <- E.
    now rewrite take_drop_while.
Qed.

Lemma rank_word_shape (s t : chars) :
  rank_word s = Some t -> exists w, lower w = ch "rank" /\ s = w ++ t.
Proof.
  unfold rank_word. destruct s as [|c1 [|c2 [|c3 [|c4 u]]]]; try discriminate.
  destruct (Re.ci "r" c1) eqn:H1; [|discriminate].
  destruct (Re.ci "a" c2) eqn:H2; [|discriminate].
  destruct (Re.ci "n" c3) eqn:H3; [|discriminate].
  destruct (Re.ci "k" c4) eqn:H4; [|discriminate].
  intros [= <-]. exists [c1; c2; c3; c4]. split; [|reflexivity].
  unfold Re.ci in *. apply Ascii.eqb_eq in H1, H2, H3, H4.
  cbn. now rewrite H1, H2, H3, H4.
Qed.

Lemma rank_prefix_direct_matches (s x : chars) :
  rank_prefix_direct s = Some x ->
  exists pre rest, rank_prefix pre /\ s = pre ++ rest.
Proof.
  unfold rank_prefix_direct. destruct (rank_word s) as [t|] eqn:Hw; intros H.
  - apply rank_word_shape in Hw as (w & Hlow & ->).
    apply rank_core_shape in H as (tag & rest & Htag & E).
    exists (w ++ take_while is_space t ++ tag), rest. split.
    + constructor 2; trivial. apply take_while_Forall.
    + rewrite <- !app_assoc, <- E. now rewrite take_drop_while.
  - apply rank_core_shape in H as (tag & rest & Htag & ->).
    exists tag, rest. split; [now constructor | reflexivity].
Qed.

(* ------------------------------------------------------------------ *)
(** ** First-match searches                                           *)
(* ------------------------------------------------------------------ *)

Lemma first_some_match {A B} (f : A -> option B) (cands : list A) (r : B) :
  first_some f cands = Some r <-> exists c, first_match f cands c r.
Proof.
  induction cands as [|c rest IH]; cbn [first_some].
  - split; [discriminate|]. intros (c & before & after & E & _).
    now destruct before.
  - destruct (f c) as [r'|] eqn:Hc.
    + split.
      * intros [= ->]. exists c, [], rest. repeat split; trivial; constructor.
      * intros (c' & before & after & E & Hf & Hb).
        destruct before as [|b before]; cbn in E; injection E as <- _.
        -- congruence.
        -- apply Forall_inv in Hb. congruence.
    + rewrite IH. split.
      * intros (c' & before & after & -> & Hf & Hb).
        exists c', (c :: before), after. repeat split; trivial.
        now constructor.
      * intros (c' & before & after & E & Hf & Hb).
        destruct before as [|b before]; cbn in E; injection E as <- ->.
        -- congruence.
        -- exists c', before, after. repeat split; trivial.
           now apply Forall_inv_tail in Hb.
Qed.

Lemma first_some_none {A B} (f : A -> option B) (cands : list A) :
  first_some f cands = None <-> no_match f cands.
Proof.
  unfold no_match. induction cands as [|c rest IH]; cbn [first_some].
  - split; [constructor | reflexivity].
  - destruct (f c) eqn:Hc.
    + split; [discriminate|]. intros H. apply Forall_inv in H. congruence.
    + rewrite IH. split.
      * intros H. now constructor.
      * intros H. now apply Forall_inv_tail in H.
Qed.

(* ------------------------------------------------------------------ *)
(** ** The extractor, read off the record                             *)
(* ------------------------------------------------------------------ *)

Section ExtractorFacts.

Variable float_of_string : string -> option float.

Lemma three_floats_spec (vx vy vz : pyval) (src : string) (r : direction) :
  three_floats float_of_string vx vy vz src = Some r <->
  exists x y z,
    r = (x, y, z, src)
    /\ _as_float float_of_string vx = Some x
    /\ _as_float float_of_string vy = Some y
    /\ _as_float float_of_string vz = Some z.
Proof.
  unfold three_floats. split.
  - destruct (_as_float float_of_string vx) as [x|]; [|discriminate].
    destruct (_as_float float_of_string vy) as [y|]; [|discriminate].
    destruct (_as_float float_of_string vz) as [z|]; [|discriminate].
    intros [= <-]. now exists x, y, z.
  - intros (x & y & z & -> & -> & -> & ->). reflexivity.
Qed.

Lemma try_triple_spec (obj : gmap string pyval) (k : string * string * string)
      (src : string) (r : direction) :
  match obj !! k.1.1, obj !! k.1.2, obj !! k.2 with
  | Some vx, Some vy, Some vz => three_floats float_of_string vx vy vz src
  | _, _, _ => None
  end = Some r <->
  exists x y z, r = (x, y, z, src) /\ holds_triple float_of_string obj k x y z.
Proof.
  unfold holds_triple.
  destruct (obj !! k.1.1) as [vx|] eqn:Ex; [|split; [discriminate|];
    intros (x & y & z & _ & vx & vy & vz & H & _); discriminate].
  destruct (obj !! k.1.2) as [vy|] eqn:Ey; [|split; [discriminate|];
    intros (x & y & z & _ & vx' & vy & vz & _ & H & _); discriminate].
  destruct (obj !! k.2) as [vz|] eqn:Ez; [|split; [discriminate|];
    intros (x & y & z & _ & vx' & vy' & vz & _ & _ & H & _); discriminate].
  rewrite three_floats_spec. split.
  - intros (x & y & z & -> & H1 & H2 & H3). exists x, y, z.
    split; [reflexivity|]. now exists vx, vy, vz.
  - intros (x & y & z & -> & vx' & vy' & vz' & [= <-] & [= <-] & [= <-] & H).
    now exists x, y, z.
Qed.

Lemma try_flat_spec (d : sample) (k : string * string * string) (r : direction) :
  try_flat float_of_string d k = Some r <->
  exists x y z,
    r = (x, y, z, flat_source k) /\ holds_triple float_of_string d k x y z.
Proof.
  destruct k as [[kx ky] kz]. unfold try_flat.
  exact (try_triple_spec d (kx, ky, kz) (flat_source (kx, ky, kz)) r).
Qed.

Lemma try_single_spec (d : sample) (vk : string) (r : direction) :
  try_single float_of_string d vk = Some r <->
  exists x y z, r = (x, y, z, vk) /\ holds_vector float_of_string d vk x y z.
Proof.
  unfold try_single, holds_vector. split.
  - intros H.
    destruct (d !! vk) as [[ | | | | | l | l | ]|] eqn:E; try discriminate;
      destruct l as [|v0 [|v1 [|v2 rest]]]; try discriminate;
      apply three_floats_spec in H as (x & y & z & -> & H);
      exists x, y, z; (split; [reflexivity|]);
      exists v0, v1, v2, rest; (split; [|exact H]); [now left | now right].
  - intros (x & y & z & -> & v0 & v1 & v2 & rest & [E | E] & H);
      rewrite E; apply three_floats_spec; now exists x, y, z.
Qed.

Lemma try_nested_pair_spec (d : sample)
      (rc : string * (string * string * string)) (r : direction) :
  try_nested_pair float_of_string d rc = Some r <->
  exists x y z,
    r = (x, y, z, nested_source rc) /\ holds_nested float_of_string d rc x y z.
Proof.
  destruct rc as [root [[cx cy] cz]].
  unfold try_nested_pair, holds_nested. cbn [fst snd]. split.
  - intros H.
    destruct (d !! root) as [[ | | | | | | | obj]|] eqn:E; try discriminate.
    apply (try_triple_spec obj (cx, cy, cz) (nested_source (root, (cx, cy, cz))))
      in H as (x & y & z & -> & H).
    exists x, y, z. split; [reflexivity|]. now exists obj.
  - intros (x & y & z & -> & obj & -> & H).
    apply (try_triple_spec obj (cx, cy, cz) (nested_source (root, (cx, cy, cz)))).
    now exists x, y, z.
Qed.

End ExtractorFacts.

(** A search read off the record: when [f] succeeds exactly where the
    record holds a direction, the search returns the direction held at
    the first such candidate. *)
Section Searches.

Context {A : Type}.
Variable f : A -> option direction.
Variable P : A -> float -> float -> float -> Prop.
Variable src : A -> string.
Hypothesis f_spec :
  forall c r, f c = Some r <-> exists x y z, r = (x, y, z, src c) /\ P c x y z.

Lemma f_none (c : A) : f c = None <-> forall x y z, ~ P c x y z.
Proof.
  split.
  - intros H x y z HP.
    assert (f c = Some (x, y, z, src c)) as E
        by (apply f_spec; now exists x, y, z).
    congruence.
  - intros H. destruct (f c) as [r|] eqn:E; [|reflexivity].
    apply f_spec in E as (x & y & z & _ & HP). now destruct (H x y z).
Qed.

Lemma no_match_none_holding (cands : list A) :
  no_match f cands <-> none_holding P cands.
Proof.
  unfold no_match, none_holding. rewrite !Forall_forall.
  split; intros H c Hc; apply f_none, H, Hc.
Qed.

Lemma first_some_holding (cands : list A) (c : A) (x y z : float) :
  first_holding P cands c x y z ->
  first_some f cands = Some (x, y, z, src c).
Proof.
  intros (before & after & E & HP & Hb). apply first_some_match.
  exists c, before, after. split; [exact E|]. split.
  - apply f_spec. now exists x, y, z.
  - apply no_match_none_holding, Hb.
Qed.

Lemma first_some_held (cands : list A) (x y z : float) (s : string) :
  first_some f cands = Some (x, y, z, s) ->
  exists c, first_holding P cands c x y z /\ s = src c.
Proof.
  intros H. apply first_some_match in H as (c & before & after & E & Hc & Hb).
  apply f_spec in Hc as (x' & y' & z' & [= -> -> -> ->] & HP).
  exists c. split; [|reflexivity]. exists before, after.
  split; [exact E|]. split; [exact HP|]. apply no_match_none_holding, Hb.
Qed.

End Searches.

Lemma first_some_app {A B} (f : A -> option B) (l l' : list A) :
  first_some f (l ++ l')
  = match first_some f l with
    | Some r => Some r
    | None => first_some f l'
    end.
Proof.
  induction l as [|a l IH]; cbn [first_some app]; [reflexivity|].
  destruct (f a); [reflexivity | exact IH].
Qed.

Lemma first_some_map {A B C} (f : B -> option C) (g : A -> B) (l : list A) :
  first_some f (map g l) = first_some (fun a => f (g a)) l.
Proof.
  induction l as [|a l IH]; cbn [first_some map]; [reflexivity|].
  destruct (f (g a)); [reflexivity | exact IH].
Qed.

(** The two nested loops are one search over the pairs. *)
Lemma first_some_pairs {A B C} (h : A * B -> option C) (l1 : list A)
      (l2 : list B) :
  first_some (fun a => first_some (fun b => h (a, b)) l2) l1
  = first_some h (list_prod l1 l2).
Proof.
  induction l1 as [|a l1 IH]; cbn [first_some list_prod]; [reflexivity|].
  now rewrite first_some_app, first_some_map, IH.
Qed.

Lemma first_some_const_none {A B} (l : list A) :
  first_some (fun _ : A => @None B) l = None.
Proof. induction l; [reflexivity | exact IHl]. Qed.

Lemma try_nested_pairs (float_of_string : string -> option float) (d : sample) :
  first_some (try_nested float_of_string d) NESTED_ROOTS
  = first_some (try_nested_pair float_of_string d) NESTED_PAIRS.
Proof.
  unfold NESTED_PAIRS. rewrite <- first_some_pairs.
  generalize NESTED_ROOTS as roots. intros roots.
  induction roots as [|root roots IH]; cbn [first_some]; [reflexivity|].
  rewrite IH.
  assert (try_nested float_of_string d root
          = first_some (fun b => try_nested_pair float_of_string d (root, b))
              NESTED_CANDIDATES) as ->; [|reflexivity].
  unfold try_nested, try_nested_pair. cbn [fst snd].
  destruct (d !! root) as [[ | | | | | | | obj]|];
    try (symmetry; apply first_some_const_none).
  reflexivity.
Qed.

(* ------------------------------------------------------------------ *)
(** ** Facts about the normaliser and the passes of [main]            *)
(* ------------------------------------------------------------------ *)

Lemma normalize_vec_spec (x y z eps : float) :
  PrimFloat.ltb 0%float eps = true ->
  normalize_vec x y z eps =
  let n := PrimFloat.sqrt (x * x + y * y + z * z)%float in
  Some (if negb (isfinite n) || PrimFloat.ltb n eps then (None, n)
        else (Some (x / n, y / n, z / n)%float, n)).
Proof.
  intros Heps. unfold normalize_vec. rewrite magnitude_total. cbn [mbind option_bind].
  cbv zeta. set (n := PrimFloat.sqrt _).
  destruct (negb (isfinite n)); cbn [orb]; [reflexivity|].
  destruct (PrimFloat.ltb n eps) eqn:E; [reflexivity|].
  cbn [ndiv float_num]. now rewrite (above_threshold_nonzero n eps Heps E).
Qed.

Lemma EPS_positive : PrimFloat.ltb 0%float EPS = true.
Proof. vm_compute. reflexivity. Qed.

Section PipelineFacts.

Variable float_of_string : string -> option float.
Variable repr : pyval -> string.

Lemma direction_step_spec (no_normalize : bool) (d : sample) :
  direction_step float_of_string no_normalize d =
  Some match extract_direction_components float_of_string d with
       | (None, _) => None
       | (Some (x, y, z), src) =>
           let n := PrimFloat.sqrt (x * x + y * y + z * z)%float in
           if no_normalize then Some (store_direction d x y z n src)
           else if negb (isfinite n) || PrimFloat.ltb n EPS then None
           else Some (store_direction d (x / n) (y / n) (z / n) n src)
       end.
Proof.
  unfold direction_step.
  destruct (extract_direction_components float_of_string d) as [[[[x y] z]|] src];
    [|reflexivity].
  destruct no_normalize.
  - now rewrite magnitude_total.
  - rewrite (normalize_vec_spec x y z EPS EPS_positive). cbv zeta.
    cbn [mbind option_bind].
    now destruct (negb (isfinite _) || PrimFloat.ltb _ EPS).
Qed.

(** A round of the direction loop never raises. *)
Lemma direction_step_total (no_normalize : bool) (d : sample) :
  exists r, direction_step float_of_string no_normalize d = Some r.
Proof. rewrite direction_step_spec. eauto. Qed.

Lemma join_pass_dicts (conf_map : conf_table) (l : list pyval) :
  Forall (fun v => is_dict v = true) l ->
  join_pass float_of_string repr conf_map l
  = Some (map (join_value float_of_string repr conf_map) l).
Proof.
  induction 1 as [|v rest Hv _ IH]; [reflexivity|].
  destruct v; try discriminate. cbn [join_pass map join_value].
  now rewrite IH.
Qed.

Lemma join_value_dict (conf_map : conf_table) (l : list pyval) :
  Forall (fun v => is_dict v = true) l ->
  Forall (fun v => is_dict v = true)
         (map (join_value float_of_string repr conf_map) l).
Proof.
  intros H. apply Forall_map. eapply Forall_impl; [exact H|].
  intros v Hv. now destruct v.
Qed.

Lemma direction_pass_dicts (no_normalize : bool) (l : list pyval) :
  Forall (fun v => is_dict v = true) l ->
  let used := omap (survivor float_of_string no_normalize) l in
  direction_pass float_of_string no_normalize l
  = Some (used, (List.length l - List.length used)%nat)
  /\ (List.length used <= List.length l)%nat.
Proof.
  cbv zeta. induction 1 as [|v rest Hv _ [IH Hlen]]; [split; [reflexivity | cbn; lia]|].
  destruct v; try discriminate.
  destruct (direction_step_total no_normalize m) as [r Hr].
  cbn [direction_pass omap list_omap survivor]. rewrite IH, Hr.
  set (used := omap _ rest) in *.
  destruct r as [d'|];
    cbn [mbind option_bind mjoin option_join fst snd List.length];
    split; try lia; do 2 f_equal; lia.
Qed.

Lemma is_list_of_dict_list (l : list pyval) :
  Forall (fun v => is_dict v = true) l -> is_list_of_dict (VList l) = Some l.
Proof.
  destruct 1 as [|v rest Hv _]; [reflexivity|].
  cbn [is_list_of_dict]. now rewrite Hv.
Qed.

End PipelineFacts.

(* ------------------------------------------------------------------ *)
(** ** Evaluations on binary64                                        *)
(* ------------------------------------------------------------------ *)

Example float_of_int_7 : float_of_int 7 = Some 7%float.
Proof. vm_compute. reflexivity. Qed.

Example int_of_float_ex :
  map int_of_float [2.0%float; (-2.75)%float; 0.5%float; infinity; nan]
  = [Some 2%Z; Some (-2)%Z; Some 0%Z; None; None].
Proof. vm_compute. reflexivity. Qed.

Example score_edges :
  [confidence_score 1%float 1%float 1%float 8%float;
   confidence_score 1%float 8%float 1%float 8%float;
   confidence_score 1%float 4.5%float 1%float 8%float;
   confidence_score 0.5%float 1e9%float 1%float 8%float]
  = [Some 1%float; Some 0%float; Some 0.5%float; Some 0%float].
Proof. vm_compute. reflexivity. Qed.

Example score_nan : confidence_score 0.25%float nan 1%float 8%float = Some 1%float.
Proof. vm_compute. reflexivity. Qed.

Example normalize_vec_345 :
  normalize_vec 3 0 4 EPS = Some (Some (0.6, 0, 0.8), 5)%float.
Proof. vm_compute. reflexivity. Qed.

(** A NaN or an infinite product is not below [1.0]: the clamp answers
    [1.0]. *)
Example score_neg_infinity :
  confidence_score neg_infinity 1e9%float 1%float 8%float = Some 1%float.
Proof. vm_compute. reflexivity. Qed.

(** A row without [mae_in_deg_weighted] scores [0]. *)
Example confidence_from_row_default :
  confidence_from_row (fun _ => None)
    {[ "inlier_weight_frac"%string := VFloat 0.5%float;
       "file"%string := VStr "R2: Artist_Name_ev-25_points.json" ]}
    1%float 8%float
  = Some 0%float.
Proof. vm_compute. reflexivity. Qed.

(* ------------------------------------------------------------------ *)
(** ** Rounding to nearest in binary floating point                   *)
(* ------------------------------------------------------------------ *)

Section Pow.
Local Open Scope R_scope.

Lemma pow2_pos (e : Z) : 0 < pow2 e.
Proof. apply powerRZ_lt. Lra.lra. Qed.

Lemma pow2_add (a b : Z) : pow2 (a + b) = pow2 a * pow2 b.
Proof. apply powerRZ_add. Lra.lra. Qed.

Lemma pow2_0 : pow2 0 = 1.
Proof. reflexivity. Qed.

Lemma pow2_1 : pow2 1 = 2.
Proof. unfold pow2. simpl. Lra.lra. Qed.

Lemma pow2_succ (e : Z) : pow2 (e + 1) = 2 * pow2 e.
Proof. rewrite pow2_add, pow2_1. Lra.lra. Qed.

Lemma pow2_pred (e : Z) : pow2 e = 2 * pow2 (e - 1).
Proof. rewrite <- pow2_succ. f_equal. lia. Qed.

Lemma pow2_IZR (n : Z) : (0 <= n)%Z -> pow2 n = IZR (2 ^ n).
Proof.
  intros H. pattern n. apply natlike_ind; [reflexivity| |exact H].
  intros k Hk IH. rewrite Z.pow_succ_r by exact Hk.
  unfold Z.succ. rewrite pow2_succ, IH, mult_IZR. reflexivity.
Qed.

Lemma pow2_le (a b : Z) : (a <= b)%Z -> pow2 a <= pow2 b.
Proof.
  intros H. replace b with (a + (b - a))%Z by lia.
  rewrite pow2_add, (pow2_IZR (b - a)) by lia.
  assert (1 <= IZR (2 ^ (b - a))).
  { apply IZR_le. pose proof (Z.pow_pos_nonneg 2 (b - a)). lia. }
  pose proof (pow2_pos a). Lra.nra.
Qed.

Lemma pow2_lt (a b : Z) : (a < b)%Z -> pow2 a < pow2 b.
Proof.
  intros H. apply Rlt_le_trans with (pow2 (a + 1)).
  - rewrite pow2_succ. pose proof (pow2_pos a). Lra.lra.
  - apply pow2_le. lia.
Qed.

Lemma pow2_lt_inv (a b : Z) : pow2 a < pow2 b -> (a < b)%Z.
Proof.
  intros H. destruct (Z_lt_le_dec a b) as [L|L]; [exact L|].
  apply pow2_le in L. Lra.lra.
Qed.

Lemma pow2_le_inv (a b : Z) : pow2 a <= pow2 b -> (a <= b)%Z.
Proof.
  intros H. destruct (Z_le_gt_dec a b) as [L|L]; [exact L|].
  assert (b < a)%Z as L' by lia. apply pow2_lt in L'. Lra.lra.
Qed.

End Pow.

(** digits *)
Lemma digits2_pos_spec (p : positive) :
  (2 ^ (Zpos (digits2_pos p) - 1) <= Zpos p < 2 ^ Zpos (digits2_pos p))%Z.
Proof.
  induction p as [p IH|p IH|]; cbn [digits2_pos].
  - rewrite Pos2Z.inj_succ.
    replace (Z.succ (Zpos (digits2_pos p)) - 1)%Z
      with (Z.succ (Zpos (digits2_pos p) - 1))%Z by lia.
    rewrite !Z.pow_succ_r by lia. lia.
  - rewrite Pos2Z.inj_succ.
    replace (Z.succ (Zpos (digits2_pos p)) - 1)%Z
      with (Z.succ (Zpos (digits2_pos p) - 1))%Z by lia.
    rewrite !Z.pow_succ_r by lia. lia.
  - simpl. lia.
Qed.

Lemma Zdigits2_spec (m : Z) :
  (0 < m)%Z -> (2 ^ (Zdigits2 m - 1) <= m < 2 ^ Zdigits2 m)%Z /\ (0 < Zdigits2 m)%Z.
Proof.
  destruct m as [|p|p]; try lia. intros _. cbn [Zdigits2].
  split; [apply digits2_pos_spec | lia].
Qed.

Lemma Zdigits2_unique (m d : Z) :
  (0 < m)%Z -> (2 ^ (d - 1) <= m < 2 ^ d)%Z -> (0 < d)%Z -> Zdigits2 m = d.
Proof.
  intros Hm [H1 H2] Hd. destruct (Zdigits2_spec m Hm) as [[H3 H4] H5].
  assert (d - 1 < Zdigits2 m)%Z.
  { apply (Z.pow_lt_mono_r_iff 2); lia. }
  assert (Zdigits2 m - 1 < d)%Z.
  { apply (Z.pow_lt_mono_r_iff 2); lia. }
  lia.
Qed.

Lemma Zdigits2_le (m n : Z) :
  (0 <= n)%Z -> (0 < m < 2 ^ n)%Z -> (Zdigits2 m <= n)%Z.
Proof.
  intros Hn [Hm H]. destruct (Zdigits2_spec m Hm) as [[H3 H4] H5].
  assert (Zdigits2 m - 1 < n)%Z.
  { apply (Z.pow_lt_mono_r_iff 2); lia. }
  lia.
Qed.

Lemma Zdigits2_pow (n : Z) : (0 <= n)%Z -> Zdigits2 (2 ^ n) = (n + 1)%Z.
Proof.
  intros Hn. apply Zdigits2_unique.
  - apply Z.pow_pos_nonneg; lia.
  - replace (n + 1 - 1)%Z with n by lia. split; [lia|].
    apply Z.pow_lt_mono_r; lia.
  - lia.
Qed.

Lemma loc_of_record (m : Z) (l : location) :
  loc_of_shr_record (shr_record_of_loc m l) = l
  /\ shr_m (shr_record_of_loc m l) = m.
Proof. destruct l as [|[]]; split; reflexivity. Qed.

Lemma rep_bounds (x : R) (m e : Z) (l : location) :
  represents x m e l -> (IZR m * pow2 e <= x < (IZR m + 1) * pow2 e)%R.
Proof.
  unfold represents, loc_rep. pose proof (pow2_pos e).
  destruct l as [|[]]; intros; Lra.nra.
Qed.

Lemma shr_1_rep (x : R) (mrs : shr_record) (e : Z) :
  (0 <= shr_m mrs)%Z ->
  represents x (shr_m mrs) e (loc_of_shr_record mrs) ->
  represents x (shr_m (shr_1 mrs)) (e + 1) (loc_of_shr_record (shr_1 mrs))
  /\ (0 <= shr_m (shr_1 mrs))%Z.
Proof.
  destruct mrs as [m r s]. cbn [shr_m]. intros Hm.
  unfold represents. rewrite pow2_succ. pose proof (pow2_pos e) as HP.
  destruct m as [|p|p]; [| |lia].
  - destruct r, s; cbn [shr_1 shr_m loc_of_shr_record orb]; unfold loc_rep;
      intros H; split; try lia; Lra.nra.
  - destruct p as [p|p|].
    + destruct r, s; cbn [shr_1 shr_m loc_of_shr_record orb]; unfold loc_rep;
        rewrite Pos2Z.inj_xI, plus_IZR, mult_IZR; intros H; split; try lia; Lra.nra.
    + destruct r, s; cbn [shr_1 shr_m loc_of_shr_record orb]; unfold loc_rep;
        rewrite Pos2Z.inj_xO, mult_IZR; intros H; split; try lia; Lra.nra.
    + destruct r, s; cbn [shr_1 shr_m loc_of_shr_record orb]; unfold loc_rep;
        intros H; split; try lia; Lra.nra.
Qed.

Lemma iter_shr_rep (x : R) (p : positive) :
  forall (mrs : shr_record) (e : Z),
    (0 <= shr_m mrs)%Z ->
    represents x (shr_m mrs) e (loc_of_shr_record mrs) ->
    represents x (shr_m (SpecFloat.iter_pos shr_1 p mrs)) (e + Zpos p)
        (loc_of_shr_record (SpecFloat.iter_pos shr_1 p mrs))
    /\ (0 <= shr_m (SpecFloat.iter_pos shr_1 p mrs))%Z.
Proof.
  induction p as [p IH|p IH|]; intros mrs e Hm H; cbn [SpecFloat.iter_pos].
  - destruct (shr_1_rep x mrs e Hm H) as [H1 Hm1].
    destruct (IH _ _ Hm1 H1) as [H2 Hm2].
    destruct (IH _ _ Hm2 H2) as [H3 Hm3].
    split; [|exact Hm3].
    replace (e + Zpos p~1)%Z with (e + 1 + Zpos p + Zpos p)%Z by lia.
    exact H3.
  - destruct (IH _ _ Hm H) as [H2 Hm2].
    destruct (IH _ _ Hm2 H2) as [H3 Hm3].
    split; [|exact Hm3].
    replace (e + Zpos p~0)%Z with (e + Zpos p + Zpos p)%Z by lia.
    exact H3.
  - apply shr_1_rep; assumption.
Qed.

Lemma shr_rep (x : R) (m e n : Z) (l : location) :
  (0 <= m)%Z -> (0 <= n)%Z -> represents x m e l ->
  represents x (shr_m (fst (shr (shr_record_of_loc m l) e n))) (e + n)
      (loc_of_shr_record (fst (shr (shr_record_of_loc m l) e n)))
  /\ (0 <= shr_m (fst (shr (shr_record_of_loc m l) e n)))%Z
  /\ snd (shr (shr_record_of_loc m l) e n) = (e + n)%Z.
Proof.
  intros Hm Hn H. destruct (loc_of_record m l) as [E1 E2].
  destruct n as [|p|p]; [| |lia]; cbn [shr fst snd].
  - rewrite E1, E2, Z.add_0_r. repeat split; trivial.
  - destruct (iter_shr_rep x p (shr_record_of_loc m l) e) as [H1 H2].
    + now rewrite E2.
    + now rewrite E1, E2.
    + repeat split; trivial.
Qed.

Section Rounding.
Variables prec emax : Z.
Hypothesis Hprec : (0 < prec)%Z.

Local Abbreviation emin := (SpecFloat.emin prec emax).
Local Abbreviation fexp := (SpecFloat.fexp prec emax).

Lemma fexp_spec (z : Z) : fexp z = Z.max (z - prec) emin.
Proof. reflexivity. Qed.

Lemma rne_bounds (M : Z) (l : location) :
  (M <= round_nearest_even M l <= M + 1)%Z.
Proof.
  destruct l as [|[]]; cbn; try lia. destruct (Z.even M); lia.
Qed.

Lemma rep_nonneg_lt (x : R) (M E n : Z) (l : location) :
  (0 <= n)%Z -> represents x M E l -> (x < pow2 (E + n))%R -> (M < 2 ^ n)%Z.
Proof.
  intros Hn H Hx. apply rep_bounds in H as [H _].
  rewrite pow2_add, (pow2_IZR n Hn) in Hx.
  pose proof (pow2_pos E). apply lt_IZR. Lra.nra.
Qed.

Lemma rep_ge (x : R) (M E n : Z) (l : location) :
  (0 <= n)%Z -> represents x M E l -> (pow2 (E + n) <= x)%R -> (2 ^ n <= M)%Z.
Proof.
  intros Hn H Hx. apply rep_bounds in H as [_ H].
  rewrite pow2_add, (pow2_IZR n Hn) in Hx.
  pose proof (pow2_pos E).
  assert (IZR (2 ^ n) < IZR M + 1)%R as L by Lra.nra.
  rewrite <- plus_IZR in L. apply lt_IZR in L. lia.
Qed.

Lemma rexp_of_digits (x : R) (m e : Z) (l : location) :
  (0 < x)%R -> (0 <= m)%Z -> represents x m e l ->
  (e <= fexp (Zdigits2 m + e))%Z ->
  round_exponent prec emax x (fexp (Zdigits2 m + e)).
Proof.
  intros Hx Hm H He. rewrite fexp_spec in *.
  pose proof (rep_bounds _ _ _ _ H) as [B1 B2].
  pose proof (pow2_pos e) as HP.
  assert (m = 0 \/ 0 < m)%Z as [-> | Hpos] by lia.
  - cbn [Zdigits2] in *. rewrite Z.add_0_l in *.
    assert (e <= emin)%Z as Hle by lia.
    rewrite Z.max_r by lia. repeat split; [lia | | lia].
    apply Rlt_le_trans with (pow2 e); [Lra.lra|]. apply pow2_le. lia.
  - destruct (Zdigits2_spec m Hpos) as [[D1 D2] D3].
    set (d := Zdigits2 m) in *.
    assert (IZR (2 ^ (d - 1)) <= IZR m)%R as R1 by now apply IZR_le.
    assert (IZR m + 1 <= IZR (2 ^ d))%R as R2.
    { rewrite <- plus_IZR. apply IZR_le. lia. }
    rewrite <- pow2_IZR in R1, R2 by lia.
    repeat split.
    + lia.
    + apply Rlt_le_trans with (pow2 (d + e)).
      * rewrite pow2_add. Lra.nra.
      * apply pow2_le. lia.
    + intros Hgt. rewrite Z.max_l by lia.
      replace (d + e - prec + prec - 1)%Z with (d - 1 + e)%Z by lia.
      rewrite pow2_add. Lra.nra.
Qed.

Lemma shr_fexp_exact_small (N E : Z) :
  (emin <= E)%Z -> (0 <= N < 2 ^ prec)%Z ->
  shr_fexp prec emax N E loc_Exact
  = ({| shr_m := N; shr_r := false; shr_s := false |}, E).
Proof.
  intros HE HN. unfold shr_fexp. rewrite fexp_spec.
  assert (Z.max (Zdigits2 N + E - prec) emin - E <= 0)%Z as Hn.
  { assert (N = 0 \/ 0 < N)%Z as [-> | Hpos] by lia.
    - cbn [Zdigits2]. lia.
    - pose proof (Zdigits2_le N prec ltac:(lia) ltac:(lia)). lia. }
  cbn [shr_record_of_loc]. unfold shr.
  destruct (Z.max (Zdigits2 N + E - prec) emin - E)%Z; [reflexivity|lia|reflexivity].
Qed.

Lemma shr_fexp_exact_carry (E : Z) :
  (emin <= E)%Z ->
  shr_fexp prec emax (2 ^ prec) E loc_Exact
  = ({| shr_m := 2 ^ (prec - 1); shr_r := false; shr_s := false |}, (E + 1)%Z).
Proof.
  intros HE. unfold shr_fexp. rewrite fexp_spec, Zdigits2_pow by lia.
  replace (Z.max (prec + 1 + E - prec) emin - E)%Z with 1%Z by lia.
  cbn [shr_record_of_loc shr SpecFloat.iter_pos].
  replace (2 ^ prec)%Z with (2 * 2 ^ (prec - 1))%Z
    by (rewrite <- Z.pow_succ_r by lia; f_equal; lia).
  assert (0 < 2 ^ (prec - 1))%Z as Hp by (apply Z.pow_pos_nonneg; lia).
  destruct (2 ^ (prec - 1))%Z as [|p|p]; try lia. reflexivity.
Qed.

Lemma bra_pack (s : bool) (x : R) (m e : Z) (l : location) :
  (0 < x)%R -> (0 <= m)%Z -> represents x m e l ->
  (e <= fexp (Zdigits2 m + e))%Z ->
  exists E M l',
    round_exponent prec emax x E /\ represents x M E l' /\ (0 <= M)%Z
    /\ binary_round_aux prec emax s m e l
       = pack_float prec emax s (round_nearest_even M l') E.
Proof.
  intros Hx Hm H He.
  pose proof (rexp_of_digits x m e l Hx Hm H He) as HE.
  set (E := fexp (Zdigits2 m + e)) in *.
  destruct (shr_rep x m e (E - e) l Hm ltac:(lia) H) as (H1 & H2 & H3).
  replace (e + (E - e))%Z with E in * by lia.
  unfold binary_round_aux. unfold shr_fexp at 1. fold E.
  destruct (shr (shr_record_of_loc m l) e (E - e)) as [mrs' e'] eqn:S1.
  cbn [fst snd] in *. subst e'.
  set (M := shr_m mrs') in *. set (l' := loc_of_shr_record mrs') in *.
  exists E, M, l'. split; [exact HE|]. split; [exact H1|]. split; [exact H2|].
  destruct HE as (E1 & E2 & E3).
  assert (M < 2 ^ prec)%Z as HM by (apply (rep_nonneg_lt x M E prec l'); trivial; lia).
  pose proof (rne_bounds M l') as HN.
  set (N := round_nearest_even M l') in *.
  unfold pack_float.
  destruct (Z.eqb_spec N (2 ^ prec)) as [EN | NN].
  - rewrite EN, shr_fexp_exact_carry by exact E1. cbn [shr_m].
    assert (0 < 2 ^ prec)%Z as Hp by (apply Z.pow_pos_nonneg; lia).
    destruct (Z.eqb_spec (2 ^ prec) 0); [lia|].
    assert (0 < 2 ^ (prec - 1))%Z as Hp' by (apply Z.pow_pos_nonneg; lia).
    destruct (2 ^ (prec - 1))%Z as [|p|p] eqn:Ep; try lia.
    reflexivity.
  - rewrite shr_fexp_exact_small by (trivial; lia). cbn [shr_m].
    destruct (Z.eqb_spec N 0) as [-> | N0]; [reflexivity|].
    destruct N as [|p|p]; try lia. reflexivity.
Qed.

End Rounding.

Section Order.
Variables prec emax : Z.
Hypothesis Hprec : (0 < prec)%Z.
Hypothesis Hmax : (prec < emax)%Z.

Local Abbreviation emin := (SpecFloat.emin prec emax).
Local Abbreviation fexp := (SpecFloat.fexp prec emax).
Local Abbreviation canonical := (canonical prec emax).
Local Abbreviation sf_good := (sf_good prec emax).
Local Abbreviation SF2R := (SF2R emax).

Lemma emin_spec : emin = (3 - emax - prec)%Z.
Proof. reflexivity. Qed.

Lemma bounded_can (m : positive) (e : Z) :
  SpecFloat.bounded prec emax m e = true -> canonical (Zpos m) e.
Proof.
  unfold SpecFloat.bounded, canonical_mantissa. rewrite andb_true_iff, Z.eqb_eq, Z.leb_le.
  rewrite (fexp_spec prec emax). intros [H1 H2].
  pose proof (digits2_pos_spec m) as [D1 D2].
  set (d := Zpos (digits2_pos m)) in *.
  assert (0 < d)%Z as Hd by (unfold d; lia).
  assert (d <= prec)%Z as Hdp by lia.
  repeat split; try lia.
  - apply Z.lt_le_trans with (2 ^ d)%Z; [lia|]. apply Z.pow_le_mono_r; lia.
  - intros Hgt. assert (d = prec) as <- by lia. exact D1.
Qed.

Lemma valid_good (f : spec_float) :
  SpecFloat.valid_binary prec emax f = true -> f <> S754_nan -> sf_good f.
Proof.
  destruct f as [s|s| |s m e]; cbn; trivial.
  - now intros _ [].
  - intros H _. now apply bounded_can.
Qed.

Lemma can_pos_lt (m e : Z) :
  canonical m e -> (0 < IZR m * pow2 e < pow2 emax)%R.
Proof.
  intros ((E1 & E2) & (M1 & M2) & _). pose proof (pow2_pos e) as HP.
  split.
  - apply Rmult_lt_0_compat; [now apply IZR_lt | exact HP].
  - apply Rlt_le_trans with (pow2 (prec + e)).
    + rewrite pow2_add, (pow2_IZR prec) by lia.
      apply Rmult_lt_compat_r; [exact HP | now apply IZR_lt].
    + apply pow2_le. lia.
Qed.

Lemma can_exp_lt (m1 e1 m2 e2 : Z) :
  canonical m1 e1 -> canonical m2 e2 -> (e1 < e2)%Z ->
  (IZR m1 * pow2 e1 < IZR m2 * pow2 e2)%R.
Proof.
  intros ((A1 & A2) & (A3 & A4) & A5) ((B1 & B2) & (B3 & B4) & B5) H.
  apply Rlt_le_trans with (pow2 (prec + e1)).
  - rewrite pow2_add, (pow2_IZR prec) by lia.
    apply Rmult_lt_compat_r; [apply pow2_pos | now apply IZR_lt].
  - apply Rle_trans with (pow2 (prec - 1 + e2)); [apply pow2_le; lia|].
    rewrite pow2_add, (pow2_IZR (prec - 1)) by lia.
    apply Rmult_le_compat_r; [apply Rlt_le, pow2_pos|].
    apply IZR_le, B5. lia.
Qed.

(** Comparison of two canonical positive numbers. *)
Lemma can_cmp (m1 m2 : positive) (e1 e2 : Z) :
  canonical (Zpos m1) e1 -> canonical (Zpos m2) e2 ->
  Rcmp (IZR (Zpos m1) * pow2 e1) (IZR (Zpos m2) * pow2 e2)
       match (e1 ?= e2)%Z with
       | Eq => Pos.compare_cont Eq m1 m2
       | Lt => Lt
       | Gt => Gt
       end.
Proof.
  intros C1 C2. destruct (Z.compare_spec e1 e2) as [-> | L | L].
  - change (Pos.compare_cont Eq m1 m2) with (Pos.compare m1 m2).
    pose proof (pow2_pos e2) as HP.
    destruct (Pos.compare_spec m1 m2) as [-> | L | L]; cbn.
    + reflexivity.
    + apply Rmult_lt_compat_r; [exact HP|]. apply IZR_lt. lia.
    + apply Rmult_lt_compat_r; [exact HP|]. apply IZR_lt. lia.
  - cbn. now apply can_exp_lt.
  - cbn. now apply can_exp_lt.
Qed.

Lemma Rcmp_opp (x y : R) (c : comparison) :
  Rcmp x y c -> Rcmp (- x) (- y) (CompOpp c).
Proof. destruct c; cbn; intros; Lra.lra. Qed.

Lemma SFcompare_spec (f g : spec_float) :
  sf_good f -> sf_good g ->
  exists c, SFcompare f g = Some c /\ Rcmp (SF2R f) (SF2R g) c.
Proof.
  pose proof (pow2_pos emax) as HP.
  destruct f as [s|s| |s m e], g as [s'|s'| |s' m' e']; cbn [sf_good];
    try contradiction; intros Hf Hg; cbn [SFcompare SF2R].
  - exists Eq. split; reflexivity.
  - exists (if s' then Gt else Lt). split; [reflexivity|].
    destruct s'; cbn; Lra.lra.
  - pose proof (can_pos_lt _ _ Hg). exists (if s' then Gt else Lt).
    split; [reflexivity|]. destruct s'; cbn; Lra.lra.
  - exists (if s then Lt else Gt). split; [reflexivity|].
    destruct s; cbn; Lra.lra.
  - eexists. split; [reflexivity|]. destruct s, s'; cbn; Lra.lra.
  - pose proof (can_pos_lt _ _ Hg). exists (if s then Lt else Gt).
    split; [reflexivity|]. destruct s, s'; cbn; Lra.lra.
  - pose proof (can_pos_lt _ _ Hf). exists (if s then Lt else Gt).
    split; [reflexivity|]. destruct s; cbn; Lra.lra.
  - pose proof (can_pos_lt _ _ Hf). exists (if s' then Gt else Lt).
    split; [reflexivity|]. destruct s, s'; cbn; Lra.lra.
  - pose proof (can_pos_lt _ _ Hf). pose proof (can_pos_lt _ _ Hg).
    pose proof (can_cmp m m' e e' Hf Hg) as C.
    eexists. split; [reflexivity|].
    destruct s, s'; cbn [sign_factor].
    + apply Rcmp_opp in C.
      replace (-1 * (IZR (Zpos m) * pow2 e))%R with (- (IZR (Zpos m) * pow2 e))%R by Lra.lra.
      replace (-1 * (IZR (Zpos m') * pow2 e'))%R with (- (IZR (Zpos m') * pow2 e'))%R by Lra.lra.
      destruct (e ?= e')%Z; exact C.
    + cbn. Lra.lra.
    + cbn. Lra.lra.
    + rewrite !Rmult_1_l. exact C.
Qed.

Lemma SFleb_spec (f g : spec_float) :
  sf_good f -> sf_good g -> (SFleb f g = true <-> (SF2R f <= SF2R g)%R).
Proof.
  intros Hf Hg. destruct (SFcompare_spec f g Hf Hg) as (c & E & C).
  unfold SFleb. rewrite E. destruct c; cbn in C; split; intros; try Lra.lra;
    try reflexivity; try discriminate.
Qed.

Lemma SFltb_spec (f g : spec_float) :
  sf_good f -> sf_good g -> (SFltb f g = true <-> (SF2R f < SF2R g)%R).
Proof.
  intros Hf Hg. destruct (SFcompare_spec f g Hf Hg) as (c & E & C).
  unfold SFltb. rewrite E. destruct c; cbn in C; split; intros; try Lra.lra;
    try reflexivity; try discriminate.
Qed.

Lemma SFeqb_spec (f g : spec_float) :
  sf_good f -> sf_good g -> (SFeqb f g = true <-> SF2R f = SF2R g).
Proof.
  intros Hf Hg. destruct (SFcompare_spec f g Hf Hg) as (c & E & C).
  unfold SFeqb. rewrite E. destruct c; cbn in C; split; intros; try Lra.lra;
    try reflexivity; try discriminate.
Qed.

End Order.

Section RoundMono.
Variables prec emax : Z.
Hypothesis Hprec : (0 < prec)%Z.
Hypothesis Hmax : (prec < emax)%Z.

Local Abbreviation emin := (SpecFloat.emin prec emax).
Local Abbreviation fexp := (SpecFloat.fexp prec emax).
Local Abbreviation canonical := (canonical prec emax).
Local Abbreviation sf_good := (sf_good prec emax).
Local Abbreviation pre_canonical := (pre_canonical prec emax).
Local Abbreviation SF2R := (SF2R emax).
Local Abbreviation pack_float := (pack_float prec emax).
Local Abbreviation round_exponent := (round_exponent prec emax).
Local Abbreviation rounds_pos := (rounds_pos prec emax).
Local Abbreviation rounds_to := (rounds_to prec emax).

Lemma pow2_half (p : Z) : (0 < p)%Z -> (2 ^ p = 2 * 2 ^ (p - 1))%Z.
Proof.
  intros H. rewrite <- Z.pow_succ_r by lia. f_equal. lia.
Qed.

Lemma pack_good (s : bool) (N E : Z) :
  pre_canonical N E ->
  sf_good (pack_float s N E)
  /\ SF2R (pack_float s N E) = (sign_factor s * Rmin (IZR N * pow2 E) (pow2 emax))%R.
Proof.
  intros (E1 & (N1 & N2) & N3). unfold pack_float.
  pose proof (pow2_pos E) as HP. pose proof (pow2_pos emax) as HPm.
  pose proof (emin_spec prec emax) as Hemin.
  assert (0 < 2 ^ (prec - 1))%Z as Hp' by (apply Z.pow_pos_nonneg; lia).
  pose proof (pow2_half prec Hprec) as Hhalf.
  destruct (Z.eqb_spec N 0) as [-> | N0].
  { split; [exact I|]. cbn [SF2R]. rewrite Rmult_0_l, Rmin_left; Lra.lra. }
  destruct (Z.eqb_spec N (2 ^ prec)) as [-> | NN].
  - assert (IZR (2 ^ prec) * pow2 E = pow2 (prec + E))%R as EV
        by (rewrite pow2_add, (pow2_IZR prec); [reflexivity | lia]).
    destruct (Z.leb_spec (E + 1) (emax - prec)) as [L | L].
    + split.
      * cbn [sf_good]. rewrite Z2Pos.id by lia. repeat split; try lia.
      * cbn [SF2R]. rewrite Z2Pos.id by lia. f_equal.
        rewrite EV, Rmin_left.
        -- rewrite <- (pow2_IZR (prec - 1)), <- pow2_add by lia.
           f_equal. lia.
        -- apply pow2_le. lia.
    + split; [exact I|]. cbn [SF2R]. f_equal.
      rewrite EV, Rmin_right; [reflexivity|]. apply pow2_le. lia.
  - destruct (Z.leb_spec E (emax - prec)) as [L | L].
    + split.
      * cbn [sf_good]. rewrite Z2Pos.id by lia. repeat split; try lia.
      * cbn [SF2R]. rewrite Z2Pos.id by lia. f_equal.
        rewrite Rmin_left; [reflexivity|].
        apply Rle_trans with (pow2 (prec + E)).
        -- rewrite pow2_add, (pow2_IZR prec) by lia.
           apply Rmult_le_compat_r; [Lra.lra|]. apply IZR_le. lia.
        -- apply pow2_le. lia.
    + split; [exact I|]. cbn [SF2R]. f_equal.
      rewrite Rmin_right; [reflexivity|].
      apply Rle_trans with (pow2 (prec - 1 + E)); [apply pow2_le; lia|].
      rewrite pow2_add, (pow2_IZR (prec - 1)) by lia.
      apply Rmult_le_compat_r; [Lra.lra|]. apply IZR_le, N3. lia.
Qed.

Lemma rexp_mono (x y : R) (Ex Ey : Z) :
  (x <= y)%R -> round_exponent x Ex -> round_exponent y Ey -> (Ex <= Ey)%Z.
Proof.
  intros H (A1 & A2 & A3) (B1 & B2 & B3).
  destruct (Z_le_gt_dec Ex Ey) as [L|L]; [exact L|].
  assert (pow2 (Ex + prec - 1) < pow2 (Ey + prec))%R as P
      by (specialize (A3 ltac:(lia)); Lra.lra).
  apply pow2_lt_inv in P. lia.
Qed.

Lemma rounded_pre_can (x : R) (E M : Z) (l : location) :
  round_exponent x E -> represents x M E l -> (0 <= M)%Z ->
  pre_canonical (round_nearest_even M l) E /\ (M < 2 ^ prec)%Z.
Proof.
  intros (A1 & A2 & A3) H HM.
  assert (M < 2 ^ prec)%Z as Hlt
      by (apply (rep_nonneg_lt x M E prec l); trivial; lia).
  pose proof (rne_bounds M l). split; [|exact Hlt].
  repeat split; try lia. intros Hgt.
  assert (2 ^ (prec - 1) <= M)%Z; [|lia].
  apply (rep_ge x M E (prec - 1) l); [lia | exact H|].
  replace (E + (prec - 1))%Z with (E + prec - 1)%Z by lia. now apply A3.
Qed.

Lemma rne_loc_mono (x y : R) (M E : Z) (lx ly : location) :
  (x <= y)%R -> represents x M E lx -> represents y M E ly ->
  (round_nearest_even M lx <= round_nearest_even M ly)%Z.
Proof.
  unfold represents, loc_rep. pose proof (pow2_pos E).
  intros Hxy Hx Hy.
  destruct lx as [|[]], ly as [|[]]; cbn; try lia; try Lra.lra;
    destruct (Z.even M); lia.
Qed.

Lemma round_mono (x y : R) (Ex Ey Mx My : Z) (lx ly : location) :
  (x <= y)%R ->
  round_exponent x Ex -> represents x Mx Ex lx -> (0 <= Mx)%Z ->
  round_exponent y Ey -> represents y My Ey ly -> (0 <= My)%Z ->
  (IZR (round_nearest_even Mx lx) * pow2 Ex
   <= IZR (round_nearest_even My ly) * pow2 Ey)%R.
Proof.
  intros Hxy HEx Hx HMx HEy Hy HMy.
  pose proof (rexp_mono x y Ex Ey Hxy HEx HEy) as HE.
  destruct (rounded_pre_can x Ex Mx lx HEx Hx HMx) as [Px Lx].
  destruct (rounded_pre_can y Ey My ly HEy Hy HMy) as [Py Ly].
  pose proof (rne_bounds Mx lx) as Bx. pose proof (rne_bounds My ly) as By.
  assert (Ex = Ey \/ Ex < Ey)%Z as [<- | Hlt] by lia.
  - pose proof (pow2_pos Ex) as HP.
    apply Rmult_le_compat_r; [Lra.lra|]. apply IZR_le.
    pose proof (rep_bounds _ _ _ _ Hx) as [X1 X2].
    pose proof (rep_bounds _ _ _ _ Hy) as [Y1 Y2].
    assert (IZR Mx < IZR My + 1)%R as L by Lra.nra.
    rewrite <- plus_IZR in L. apply lt_IZR in L.
    assert (Mx = My \/ Mx < My)%Z as [-> | Hm] by lia.
    + now apply (rne_loc_mono x y My Ex).
    + lia.
  - destruct Py as (_ & _ & Py). specialize (Py ltac:(destruct HEx; lia)).
    apply Rle_trans with (pow2 (prec + Ex)).
    + rewrite pow2_add, (pow2_IZR prec) by lia.
      apply Rmult_le_compat_r; [apply Rlt_le, pow2_pos|]. apply IZR_le. lia.
    + apply Rle_trans with (pow2 (prec - 1 + Ey)); [apply pow2_le; lia|].
      rewrite pow2_add, (pow2_IZR (prec - 1)) by lia.
      apply Rmult_le_compat_r; [apply Rlt_le, pow2_pos|]. now apply IZR_le.
Qed.

Lemma rounds_pos_good (x : R) (s : bool) (f : spec_float) :
  rounds_pos x s f ->
  sf_good f /\ exists v, (0 <= v)%R /\ SF2R f = (sign_factor s * v)%R.
Proof.
  intros (E & M & l & HE & H & HM & ->).
  destruct (rounded_pre_can x E M l HE H HM) as [P _].
  destruct (pack_good s _ _ P) as [G V]. split; [exact G|].
  eexists. split; [|exact V].
  pose proof (pow2_pos E). pose proof (pow2_pos emax).
  destruct P as (_ & (P1 & _) & _). apply IZR_le in P1.
  apply Rmin_glb; Lra.nra.
Qed.

Lemma rounds_pos_mono (x y : R) (f g : spec_float) :
  (x <= y)%R -> rounds_pos x false f -> rounds_pos y false g ->
  (SF2R f <= SF2R g)%R.
Proof.
  intros Hxy (Ex & Mx & lx & HEx & Hx & HMx & ->)
         (Ey & My & ly & HEy & Hy & HMy & ->).
  destruct (rounded_pre_can x Ex Mx lx HEx Hx HMx) as [Px _].
  destruct (rounded_pre_can y Ey My ly HEy Hy HMy) as [Py _].
  destruct (pack_good false _ _ Px) as [_ ->].
  destruct (pack_good false _ _ Py) as [_ ->].
  cbn [sign_factor]. rewrite !Rmult_1_l.
  pose proof (round_mono x y Ex Ey Mx My lx ly Hxy HEx Hx HMx HEy Hy HMy).
  apply Rle_min_compat_r. assumption.
Qed.

Lemma rounds_pos_flip (x : R) (s : bool) (f : spec_float) :
  rounds_pos x s f ->
  exists g, rounds_pos x (negb s) g /\ SF2R g = (- SF2R f)%R.
Proof.
  intros (E & M & l & HE & H & HM & ->).
  destruct (rounded_pre_can x E M l HE H HM) as [P _].
  exists (pack_float (negb s) (round_nearest_even M l) E). split.
  - now exists E, M, l.
  - destruct (pack_good s _ _ P) as [_ ->].
    destruct (pack_good (negb s) _ _ P) as [_ ->].
    destruct s; cbn; Lra.lra.
Qed.

Lemma Rnd_good (x : R) (f : spec_float) : rounds_to x f -> sf_good f.
Proof.
  intros [(_ & s & ->) | [(_ & H) | (_ & H)]]; [exact I| |];
    now apply rounds_pos_good in H.
Qed.

Lemma Rnd_sign (x : R) (f : spec_float) :
  rounds_to x f ->
  ((0 <= x)%R -> (0 <= SF2R f)%R) /\ ((x <= 0)%R -> (SF2R f <= 0)%R).
Proof.
  intros [(-> & s & ->) | [(Hx & H) | (Hx & H)]].
  - cbn. Lra.lra.
  - apply rounds_pos_good in H as (_ & v & Hv & ->). cbn. Lra.lra.
  - apply rounds_pos_good in H as (_ & v & Hv & ->). cbn. Lra.lra.
Qed.

Lemma Rnd_mono (x y : R) (f g : spec_float) :
  (x <= y)%R -> rounds_to x f -> rounds_to y g -> (SF2R f <= SF2R g)%R.
Proof.
  intros Hxy Hf Hg.
  destruct (Rtotal_order x 0) as [Xn | [X0 | Xp]];
    destruct (Rtotal_order y 0) as [Yn | [Y0 | Yp]]; try Lra.lra.
  - (* both negative *)
    destruct Hf as [(? & _) | [(? & _) | (_ & Hf)]]; try Lra.lra.
    destruct Hg as [(? & _) | [(? & _) | (_ & Hg)]]; try Lra.lra.
    destruct (rounds_pos_flip _ _ _ Hf) as (f' & Hf' & Ef).
    destruct (rounds_pos_flip _ _ _ Hg) as (g' & Hg' & Eg).
    cbn [negb] in *.
    pose proof (rounds_pos_mono (- y) (- x) g' f' ltac:(Lra.lra) Hg' Hf'). Lra.lra.
  - pose proof (proj2 (Rnd_sign _ _ Hf) ltac:(Lra.lra)).
    pose proof (proj1 (Rnd_sign _ _ Hg) ltac:(Lra.lra)). Lra.lra.
  - pose proof (proj2 (Rnd_sign _ _ Hf) ltac:(Lra.lra)).
    pose proof (proj1 (Rnd_sign _ _ Hg) ltac:(Lra.lra)). Lra.lra.
  - pose proof (proj2 (Rnd_sign _ _ Hf) ltac:(Lra.lra)).
    pose proof (proj1 (Rnd_sign _ _ Hg) ltac:(Lra.lra)). Lra.lra.
  - pose proof (proj2 (Rnd_sign _ _ Hf) ltac:(Lra.lra)).
    pose proof (proj1 (Rnd_sign _ _ Hg) ltac:(Lra.lra)). Lra.lra.
  - destruct Hf as [(? & _) | [(_ & Hf) | (? & _)]]; try Lra.lra.
    destruct Hg as [(? & _) | [(_ & Hg) | (? & _)]]; try Lra.lra.
    now apply (rounds_pos_mono x y).
Qed.

(** A canonical number is its own rounding. *)
Lemma Rnd_self (f : spec_float) :
  sf_good f ->
  match f with S754_infinity _ => False | _ => True end ->
  rounds_to (SF2R f) f.
Proof.
  destruct f as [s|s| |s m e]; cbn [sf_good]; try contradiction.
  - intros _ _. left. split; [reflexivity | now exists s].
  - intros C _. pose proof (can_pos_lt prec emax Hprec _ _ C) as [V1 V2].
    destruct C as ((C1 & C2) & (C3 & C4) & C5).
    assert (rounds_pos (IZR (Zpos m) * pow2 e) s (S754_finite s m e)) as HR.
    { exists e, (Zpos m), loc_Exact. repeat split.
      - lia.
      - rewrite pow2_add, (pow2_IZR prec) by lia.
        rewrite (Rmult_comm (pow2 e)).
        apply Rmult_lt_compat_r; [apply pow2_pos | now apply IZR_lt].
      - intros Hgt. replace (e + prec - 1)%Z with (prec - 1 + e)%Z by lia.
        rewrite pow2_add, (pow2_IZR (prec - 1)) by lia.
        apply Rmult_le_compat_r; [apply Rlt_le, pow2_pos|].
        apply IZR_le. now apply C5.
      - lia.
      - cbn [round_nearest_even]. unfold pack_float.
        destruct (Z.eqb_spec (Zpos m) 0); [lia|].
        destruct (Z.eqb_spec (Zpos m) (2 ^ prec)); [lia|].
        destruct (Z.leb_spec e (emax - prec)); [|lia]. reflexivity. }
    cbn [SF2R]. destruct s; cbn [sign_factor].
    + right. right. split; [Lra.lra|].
      replace (- (-1 * (IZR (Zpos m) * pow2 e)))%R
        with (IZR (Zpos m) * pow2 e)%R by Lra.lra.
      exact HR.
    + right. left. rewrite Rmult_1_l. split; [Lra.lra | exact HR].
Qed.

End RoundMono.

Lemma iter_xO (m d : positive) :
  Zpos (Pos.iter xO m d) = (Zpos m * 2 ^ Zpos d)%Z.
Proof.
  revert m. induction d as [|d IH] using Pos.peano_ind; intros m.
  - cbn. lia.
  - rewrite Pos.iter_succ, Pos2Z.inj_xO, IH, Pos2Z.inj_succ, Z.pow_succ_r by lia.
    lia.
Qed.

Lemma shl_align_fst (m : positive) (e e' : Z) :
  (e' <= e)%Z ->
  Zpos (fst (shl_align m e e')) = (Zpos m * 2 ^ (e - e'))%Z
  /\ snd (shl_align m e e') = e'.
Proof.
  intros H. unfold shl_align.
  destruct (e' - e)%Z as [|p|p] eqn:E; cbn [fst snd]; try lia.
  - replace (e - e')%Z with 0%Z by lia. split; lia.
  - rewrite iter_xO. split; [|reflexivity]. do 2 f_equal. lia.
Qed.

Lemma shl_align_ge (m : positive) (e e' : Z) :
  (e <= e')%Z -> shl_align m e e' = (m, e).
Proof.
  intros H. unfold shl_align. destruct (e' - e)%Z eqn:E; try reflexivity. lia.
Qed.

Lemma Zdigits2_shift (m k : Z) :
  (0 < m)%Z -> (0 <= k)%Z -> Zdigits2 (m * 2 ^ k) = (Zdigits2 m + k)%Z.
Proof.
  intros Hm Hk. destruct (Zdigits2_spec m Hm) as [[D1 D2] D3].
  assert (0 < 2 ^ k)%Z as Hp by (apply Z.pow_pos_nonneg; lia).
  apply Zdigits2_unique; [nia | | lia].
  replace (Zdigits2 m + k - 1)%Z with (Zdigits2 m - 1 + k)%Z by lia.
  rewrite !Z.pow_add_r by lia. nia.
Qed.

Lemma Zdigits2_ge (m k : Z) :
  (0 <= k)%Z -> (2 ^ k <= m)%Z -> (k + 1 <= Zdigits2 m)%Z.
Proof.
  intros Hk H.
  assert (0 < 2 ^ k)%Z as Hp by (apply Z.pow_pos_nonneg; lia).
  destruct (Zdigits2_spec m ltac:(lia)) as [[D1 D2] D3].
  assert (k < Zdigits2 m)%Z; [|lia].
  apply (Z.pow_lt_mono_r_iff 2); lia.
Qed.

Section Ops.
Variables prec emax : Z.
Hypothesis Hprec : (0 < prec)%Z.
Hypothesis Hmax : (prec < emax)%Z.

Local Abbreviation emin := (SpecFloat.emin prec emax).
Local Abbreviation fexp := (SpecFloat.fexp prec emax).
Local Abbreviation canonical := (canonical prec emax).
Local Abbreviation sf_good := (sf_good prec emax).
Local Abbreviation SF2R := (SF2R emax).
Local Abbreviation rounds_pos := (rounds_pos prec emax).
Local Abbreviation rounds_to := (rounds_to prec emax).

Lemma rep_exact (m e : Z) : represents (IZR m * pow2 e) m e loc_Exact.
Proof. reflexivity. Qed.

Lemma Rnd_signed (x : R) (s : bool) (f : spec_float) :
  (0 < x)%R -> rounds_pos x s f -> rounds_to (sign_factor s * x) f.
Proof.
  intros Hx H. destruct s; cbn [sign_factor].
  - right. right. split; [Lra.lra|]. now replace (- (-1 * x))%R with x by Lra.lra.
  - right. left. rewrite Rmult_1_l. now split.
Qed.

Lemma binary_round_rounds (s : bool) (m : positive) (e : Z) :
  rounds_pos (IZR (Zpos m) * pow2 e) s (binary_round prec emax s m e).
Proof.
  unfold binary_round.
  set (E := fexp (Zpos (digits2_pos m) + e)).
  assert (0 < IZR (Zpos m) * pow2 e)%R as Hpos.
  { apply Rmult_lt_0_compat; [apply IZR_lt; lia | apply pow2_pos]. }
  destruct (Z_le_gt_dec e E) as [L | L].
  - rewrite shl_align_ge by exact L.
    destruct (bra_pack prec emax Hprec s _ (Zpos m) e loc_Exact Hpos
                ltac:(lia) (rep_exact _ _) L)
      as (E' & M & l' & H1 & H2 & H3 & H4).
    now exists E', M, l'.
  - destruct (shl_align_fst m e E ltac:(lia)) as [F1 F2].
    destruct (shl_align m e E) as [mz ez]. cbn [fst snd] in *. subst ez.
    assert (IZR (Zpos m) * pow2 e = IZR (Zpos mz) * pow2 E)%R as EV.
    { rewrite F1, mult_IZR, <- pow2_IZR by lia.
      rewrite Rmult_assoc, <- pow2_add. do 2 f_equal. lia. }
    rewrite EV in *.
    assert (E <= fexp (Zdigits2 (Zpos mz) + E))%Z as Hpre.
    { rewrite F1, Zdigits2_shift by lia.
      replace (Zdigits2 (Zpos m) + (e - E) + E)%Z
        with (Zpos (digits2_pos m) + e)%Z by (cbn [Zdigits2]; lia).
      fold E. lia. }
    destruct (bra_pack prec emax Hprec s _ (Zpos mz) E loc_Exact Hpos
                ltac:(lia) (rep_exact _ _) Hpre)
      as (E' & M & l' & H1 & H2 & H3 & H4).
    now exists E', M, l'.
Qed.

Lemma binary_normalize_Rnd (z e : Z) :
  rounds_to (IZR z * pow2 e) (binary_normalize prec emax z e false).
Proof.
  pose proof (pow2_pos e) as HP.
  destruct z as [|m|m]; cbn [binary_normalize].
  - left. split; [Lra.lra | now exists false].
  - right. left. split.
    + apply Rmult_lt_0_compat; [apply IZR_lt; lia | exact HP].
    + apply binary_round_rounds.
  - right. right.
    assert (0 < IZR (Zpos m) * pow2 e)%R as Hpos.
    { apply Rmult_lt_0_compat; [apply IZR_lt; lia | exact HP]. }
    replace (- (IZR (Zneg m) * pow2 e))%R with (IZR (Zpos m) * pow2 e)%R.
    + split; [|apply binary_round_rounds].
      change (Zneg m) with (- Zpos m)%Z. rewrite opp_IZR. Lra.lra.
    + change (Zneg m) with (- Zpos m)%Z. rewrite opp_IZR. Lra.lra.
Qed.

Lemma cond_Zopp_IZR (s : bool) (z : Z) :
  IZR (cond_Zopp s z) = (sign_factor s * IZR z)%R.
Proof. destruct s; cbn [cond_Zopp sign_factor]; [rewrite opp_IZR|]; Lra.lra. Qed.

Lemma aligned_value (s : bool) (m : positive) (e ez : Z) :
  (ez <= e)%Z ->
  (IZR (cond_Zopp s (Zpos (fst (shl_align m e ez)))) * pow2 ez
   = sign_factor s * (IZR (Zpos m) * pow2 e))%R.
Proof.
  intros H. destruct (shl_align_fst m e ez H) as [-> _].
  rewrite cond_Zopp_IZR, mult_IZR, <- pow2_IZR by lia.
  replace e with ((e - ez) + ez)%Z at 2 by lia. rewrite pow2_add. Lra.lra.
Qed.

Lemma good_opp (s s' : bool) (m : positive) (e : Z) :
  sf_good (S754_finite s m e) -> sf_good (S754_finite s' m e).
Proof. exact (fun H => H). Qed.

Theorem SFsub_Rnd (a b : spec_float) :
  sf_good a -> sf_good b -> sf_finite a -> sf_finite b ->
  rounds_to (SF2R a - SF2R b) (SFsub prec emax a b).
Proof.
  destruct a as [sa|sa| |sa ma ea], b as [sb|sb| |sb mb eb]; cbn [sf_finite sf_good];
    try contradiction; intros Ga Gb _ _.
  - cbn [SFsub SF2R]. left. split; [Lra.lra|].
    destruct sa, sb; eexists; reflexivity.
  - cbn [SFsub].
    replace (SF2R (S754_zero sa) - SF2R (S754_finite sb mb eb))%R
      with (SF2R (S754_finite (negb sb) mb eb))
      by (cbn [SF2R]; destruct sb; cbn; Lra.lra).
    apply Rnd_self; solve [assumption | exact I].
  - cbn [SFsub].
    replace (SF2R (S754_finite sa ma ea) - SF2R (S754_zero sb))%R
      with (SF2R (S754_finite sa ma ea)) by (cbn [SF2R]; Lra.lra).
    apply Rnd_self; solve [assumption | exact I].
  - cbn [SFsub SF2R].
    set (ez := Z.min ea eb).
    rewrite <- (aligned_value sa ma ea ez), <- (aligned_value sb mb eb ez)
      by (unfold ez; lia).
    rewrite <- Rmult_minus_distr_r, <- minus_IZR.
    apply binary_normalize_Rnd.
Qed.

Theorem SFmul_Rnd (a b : spec_float) :
  sf_good a -> sf_good b -> sf_finite a -> sf_finite b ->
  rounds_to (SF2R a * SF2R b) (SFmul prec emax a b).
Proof.
  pose proof (emin_spec prec emax) as Hemin.
  destruct a as [sa|sa| |sa ma ea], b as [sb|sb| |sb mb eb]; cbn [sf_finite sf_good];
    try contradiction; intros Ga Gb _ _;
    try (cbn [SFmul SF2R]; left; split; [Lra.lra | eexists; reflexivity]).
  cbn [SFmul SF2R].
  replace (sign_factor sa * (IZR (Zpos ma) * pow2 ea) * (sign_factor sb * (IZR (Zpos mb) * pow2 eb)))%R
    with (sign_factor (xorb sa sb) * (IZR (Zpos (ma * mb)) * pow2 (ea + eb)))%R.
  2:{ rewrite Pos2Z.inj_mul, mult_IZR, pow2_add.
      destruct sa, sb; cbn; Lra.lra. }
  assert (0 < IZR (Zpos (ma * mb)) * pow2 (ea + eb))%R as Hpos.
  { apply Rmult_lt_0_compat; [apply IZR_lt; lia | apply pow2_pos]. }
  apply Rnd_signed; [exact Hpos|].
  destruct Ga as ((A1 & A2) & (A3 & A4) & A5), Gb as ((B1 & B2) & (B3 & B4) & B5).
  assert (ea + eb <= fexp (Zdigits2 (Zpos (ma * mb)) + (ea + eb)))%Z as Hpre.
  { rewrite (fexp_spec prec emax).
    assert (0 < 2 ^ (prec - 1))%Z as Hp by (apply Z.pow_pos_nonneg; lia).
    assert (ea + eb <= emin \/ prec <= Zdigits2 (Zpos (ma * mb)))%Z as [L | L];
      [|lia|lia].
    rewrite Pos2Z.inj_mul.
    destruct (Z_le_gt_dec ea emin) as [La | La];
      destruct (Z_le_gt_dec eb emin) as [Lb | Lb].
    - left. lia.
    - destruct (Z_le_gt_dec eb 0) as [L0 | L0]; [left; lia|].
      right. specialize (B5 ltac:(lia)).
      assert (2 ^ (prec - 1) <= Zpos ma * Zpos mb)%Z as Hge.
      { apply Z.le_trans with (1 * Zpos mb)%Z; [lia|].
        apply Z.mul_le_mono_nonneg_r; lia. }
      pose proof (Zdigits2_ge _ (prec - 1) ltac:(lia) Hge). lia.
    - destruct (Z_le_gt_dec ea 0) as [L0 | L0]; [left; lia|].
      right. specialize (A5 ltac:(lia)).
      assert (2 ^ (prec - 1) <= Zpos ma * Zpos mb)%Z as Hge.
      { apply Z.le_trans with (Zpos ma * 1)%Z; [lia|].
        apply Z.mul_le_mono_nonneg_l; lia. }
      pose proof (Zdigits2_ge _ (prec - 1) ltac:(lia) Hge). lia.
    - right. specialize (A5 ltac:(lia)).
      assert (2 ^ (prec - 1) <= Zpos ma * Zpos mb)%Z as Hge.
      { apply Z.le_trans with (Zpos ma * 1)%Z; [lia|].
        apply Z.mul_le_mono_nonneg_l; lia. }
      pose proof (Zdigits2_ge _ (prec - 1) ltac:(lia) Hge). lia. }
  destruct (bra_pack prec emax Hprec (xorb sa sb) _ (Zpos (ma * mb))
              (ea + eb) loc_Exact Hpos ltac:(lia) (rep_exact _ _) Hpre)
    as (E' & M & l' & H1 & H2 & H3 & H4).
  now exists E', M, l'.
Qed.

End Ops.

Section Div.
Variables prec emax : Z.
Hypothesis Hprec : (0 < prec)%Z.
Hypothesis Hmax : (prec < emax)%Z.

Local Abbreviation emin := (SpecFloat.emin prec emax).
Local Abbreviation fexp := (SpecFloat.fexp prec emax).
Local Abbreviation canonical := (canonical prec emax).
Local Abbreviation sf_good := (sf_good prec emax).
Local Abbreviation SF2R := (SF2R emax).
Local Abbreviation rounds_pos := (rounds_pos prec emax).
Local Abbreviation rounds_to := (rounds_to prec emax).

Lemma new_location_rep (m2 r : Z) (y lo w : R) :
  (0 <= r < m2)%Z -> (0 < w)%R ->
  (y * IZR m2 = IZR r)%R ->
  loc_rep (lo + y * w) lo w (new_location m2 r).
Proof.
  intros [R0 R1] Hw Hy.
  assert (0 < IZR m2)%R as Hm by (apply IZR_lt; lia).
  assert (0 <= IZR r)%R as Hr0 by (apply IZR_le; lia).
  assert (IZR r < IZR m2)%R as Hr1 by (apply IZR_lt; lia).
  assert (0 <= y < 1)%R as Hy1 by (split; Lra.nra).
  unfold new_location.
  assert (forall c, (2 * r ?= m2)%Z = c ->
                    r <> 0%Z ->
                    loc_rep (lo + y * w) lo w (loc_Inexact c)) as Key.
  { intros c Hc Hne.
    assert (0 < IZR r)%R as Hrp by (apply IZR_lt; lia).
    assert (0 < y)%R as Hyp by Lra.nra.
    destruct (Z.compare_spec (2 * r) m2) as [E | L | L]; subst c; cbn.
    - assert (2 * IZR r = IZR m2)%R as E'
          by (rewrite <- E, mult_IZR; reflexivity).
      assert (y = 1 / 2)%R by Lra.nra. subst y. Lra.lra.
    - assert (2 * IZR r < IZR m2)%R as L'
          by (rewrite <- mult_IZR; now apply IZR_lt).
      assert (y < 1 / 2)%R by Lra.nra. split; Lra.nra.
    - assert (IZR m2 < 2 * IZR r)%R as L'
          by (rewrite <- mult_IZR; now apply IZR_lt).
      assert (1 / 2 < y)%R by Lra.nra. split; Lra.nra. }
  destruct (Z.even m2) eqn:Ev.
  - unfold new_location_even. destruct (Z.eqb_spec r 0) as [-> | Hne].
    + cbn. assert (y = 0)%R by Lra.nra. subst y. Lra.lra.
    + now apply Key.
  - unfold new_location_odd. destruct (Z.eqb_spec r 0) as [-> | Hne].
    + cbn. assert (y = 0)%R by Lra.nra. subst y. Lra.lra.
    + assert (Z.odd m2 = true) as Od by (rewrite <- Z.negb_even, Ev; reflexivity).
      apply Z.odd_spec in Od as [k Hk].
      destruct (Z.compare_spec (2 * r + 1) m2) as [E | L | L].
      * apply Key; [|exact Hne]. apply Z.compare_lt_iff. lia.
      * apply Key; [|exact Hne]. apply Z.compare_lt_iff. lia.
      * apply Key; [|exact Hne]. apply Z.compare_gt_iff. lia.
Qed.

Lemma div_core_spec (m1 m2 : positive) (e1 e2 : Z) :
  exists q e' l,
    SFdiv_core_binary prec emax (Zpos m1) e1 (Zpos m2) e2 = (q, e', l)
    /\ (0 <= q)%Z
    /\ represents (IZR (Zpos m1) * pow2 e1 / (IZR (Zpos m2) * pow2 e2)) q e' l
    /\ (e' <= fexp (Zdigits2 q + e'))%Z.
Proof.
  unfold SFdiv_core_binary.
  destruct (Zdigits2_spec (Zpos m1) ltac:(lia)) as [[D1 D2] D3].
  destruct (Zdigits2_spec (Zpos m2) ltac:(lia)) as [[F1 F2] F3].
  set (d1 := Zdigits2 (Zpos m1)) in *. set (d2 := Zdigits2 (Zpos m2)) in *.
  set (e' := Z.min (fexp (d1 + e1 - (d2 + e2))) (e1 - e2)).
  set (s := (e1 - e2 - e')%Z).
  assert (0 <= s)%Z as Hs by (unfold s, e'; lia).
  set (m' := match s with
             | 0%Z => Zpos m1
             | Zpos _ => Z.shiftl (Zpos m1) s
             | Zneg _ => 0%Z
             end).
  assert (m' = Zpos m1 * 2 ^ s)%Z as Em.
  { unfold m'. destruct s as [|p|p] eqn:Es; [lia| |lia].
    now rewrite Z.shiftl_mul_pow2 by lia. }
  clearbody m'.
  pose proof (Z_div_mod m' (Zpos m2) ltac:(lia)) as DM.
  destruct (Z.div_eucl m' (Zpos m2)) as [q r]. destruct DM as [DM [R0 R1]].
  assert (0 < 2 ^ s)%Z as Hp by (apply Z.pow_pos_nonneg; lia).
  assert (0 <= q)%Z as Hq by nia.
  exists q, e', (new_location (Zpos m2) r).
  split; [reflexivity|]. split; [exact Hq|]. split.
  - set (y := (IZR r / IZR (Zpos m2))%R).
    assert (0 < IZR (Zpos m2))%R as Hm2 by (apply IZR_lt; lia).
    assert (y * IZR (Zpos m2) = IZR r)%R as Hy by (unfold y; field; Lra.lra).
    pose proof (pow2_pos e') as HP. pose proof (pow2_pos e2) as HP2.
    replace (IZR (Zpos m1) * pow2 e1 / (IZR (Zpos m2) * pow2 e2))%R
      with (IZR q * pow2 e' + y * pow2 e')%R.
    + apply new_location_rep; trivial. lia.
    + replace e1 with (s + e' + e2)%Z by (unfold s; lia).
      rewrite !pow2_add, (pow2_IZR s Hs).
      assert (IZR (Zpos m1) * IZR (2 ^ s) = IZR (Zpos m2) * IZR q + IZR r)%R
        as EQ by (rewrite <- !mult_IZR, <- plus_IZR, <- DM, Em; reflexivity).
      unfold y. field_simplify_eq; [|Lra.lra]. Lra.nra.
  - rewrite (fexp_spec prec emax).
    destruct (Z_le_gt_dec e' emin) as [L | L]; [lia|].
    assert (d2 - d1 + prec <= s)%Z as Hs'.
    { unfold s, e' in *. rewrite (fexp_spec prec emax) in *. lia. }
    assert (2 ^ (d2 + prec - 1) <= m')%Z as Hm'.
    { rewrite Em. apply Z.le_trans with (2 ^ (d1 - 1) * 2 ^ s)%Z.
      - rewrite <- Z.pow_add_r by lia. apply Z.pow_le_mono_r; lia.
      - apply Z.mul_le_mono_nonneg_r; lia. }
    assert (2 ^ (prec - 1) <= q)%Z as Hq'.
    { replace (d2 + prec - 1)%Z with (d2 + (prec - 1))%Z in Hm' by lia.
      rewrite Z.pow_add_r in Hm' by lia.
      assert (0 < 2 ^ (prec - 1))%Z by (apply Z.pow_pos_nonneg; lia).
      nia. }
    pose proof (Zdigits2_ge q (prec - 1) ltac:(lia) Hq'). lia.
Qed.

Theorem SFdiv_Rnd (a : spec_float) (sb : bool) (mb : positive) (eb : Z) :
  sf_good a -> sf_finite a ->
  rounds_to (SF2R a / SF2R (S754_finite sb mb eb))
      (SFdiv prec emax a (S754_finite sb mb eb)).
Proof.
  destruct a as [sa|sa| |sa ma ea]; cbn [sf_finite sf_good]; try contradiction;
    intros Ga _.
  - cbn [SFdiv SF2R]. left. split; [|eexists; reflexivity].
    unfold Rdiv. Lra.lra.
  - cbn [SFdiv SF2R].
    destruct (div_core_spec ma mb ea eb) as (q & e' & l & -> & Hq & Hrep & Hpre).
    assert (0 < IZR (Zpos ma) * pow2 ea)%R as HA
        by (apply Rmult_lt_0_compat; [apply IZR_lt; lia | apply pow2_pos]).
    assert (0 < IZR (Zpos mb) * pow2 eb)%R as HB
        by (apply Rmult_lt_0_compat; [apply IZR_lt; lia | apply pow2_pos]).
    set (A := (IZR (Zpos ma) * pow2 ea)%R) in *.
    set (B := (IZR (Zpos mb) * pow2 eb)%R) in *.
    assert (0 < A / B)%R as Hpos by (apply Rdiv_lt_0_compat; assumption).
    replace (sign_factor sa * A / (sign_factor sb * B))%R with (sign_factor (xorb sa sb) * (A / B))%R
      by (destruct sa, sb; cbn; field; Lra.lra).
    apply Rnd_signed; [exact Hpos|].
    destruct (bra_pack prec emax Hprec (xorb sa sb) _ q e' l Hpos Hq Hrep Hpre)
      as (E' & M & l' & H1 & H2 & H3 & H4).
    now exists E', M, l'.
Qed.

End Div.

(* ------------------------------------------------------------------ *)
(** ** The scorer on binary64                                         *)
(* ------------------------------------------------------------------ *)

Section MoreRounding.

Variables prec emax : Z.
Hypothesis Hprec : (0 < prec)%Z.
Hypothesis Hmax : (prec < emax)%Z.

Local Abbreviation emin := (SpecFloat.emin prec emax).

(** A number lies between the two infinities, a finite one strictly. *)
Lemma good_bound (f : spec_float) :
  sf_good prec emax f ->
  (- pow2 emax <= SF2R emax f <= pow2 emax)%R
  /\ (sf_finite f -> (- pow2 emax < SF2R emax f < pow2 emax)%R).
Proof.
  pose proof (pow2_pos emax) as HP.
  destruct f as [s|s| |s m e]; cbn [sf_good SF2R sf_finite];
    try contradiction; intros G.
  - split; [|intros _]; Lra.lra.
  - split; [|contradiction]. destruct s; cbn [sign_factor]; Lra.lra.
  - pose proof (can_pos_lt prec emax Hprec _ _ G).
    split; [|intros _]; destruct s; cbn [sign_factor]; Lra.lra.
Qed.

Lemma good_finite (f : spec_float) :
  sf_good prec emax f -> (- pow2 emax < SF2R emax f < pow2 emax)%R ->
  sf_finite f.
Proof.
  pose proof (pow2_pos emax) as HP.
  destruct f as [s|s| |s m e]; cbn [sf_good SF2R sf_finite]; trivial.
  intros _. destruct s; cbn [sign_factor]; Lra.lra.
Qed.

(** A finite number is a multiple of the smallest positive one. *)
Lemma finite_multiple (f : spec_float) :
  sf_good prec emax f -> sf_finite f ->
  exists k : Z, SF2R emax f = (IZR k * pow2 emin)%R.
Proof.
  destruct f as [s|s| |s m e]; cbn [sf_good SF2R sf_finite];
    try contradiction; intros G _.
  - exists 0%Z. Lra.lra.
  - destruct G as ((E1 & _) & _).
    exists ((if s then -1 else 1) * (Zpos m * 2 ^ (e - emin)))%Z.
    rewrite !mult_IZR, <- pow2_IZR by lia.
    replace e with ((e - emin) + emin)%Z at 1 by lia. rewrite pow2_add.
    destruct s; cbn [sign_factor]; Lra.lra.
Qed.

(** A real that is not below the smallest positive number is not
    rounded to zero. *)
Lemma rounds_pos_positive (x : R) (f : spec_float) :
  (pow2 emin <= x)%R -> rounds_pos prec emax x false f ->
  (0 < SF2R emax f)%R.
Proof.
  intros Hx (E & M & l & HE & H & HM & ->).
  destruct (rounded_pre_can prec emax Hprec x E M l HE H HM) as [P _].
  destruct (pack_good prec emax Hprec Hmax false _ _ P) as [_ ->].
  cbn [sign_factor]. rewrite Rmult_1_l.
  pose proof (pow2_pos E) as HP. pose proof (pow2_pos emax) as HPm.
  pose proof (rne_bounds M l) as B.
  assert (1 <= M)%Z as HM1.
  { destruct (Z_le_gt_dec 1 M) as [L|L]; [exact L|].
    assert (M = 0%Z) as -> by lia.
    apply rep_bounds in H as [_ H]. rewrite Rplus_0_l, Rmult_1_l in H.
    destruct HE as (E1 & _ & E3).
    assert (E = emin \/ emin < E)%Z as [-> | Hgt] by lia; [Lra.lra|].
    specialize (E3 Hgt).
    assert (pow2 (E + prec - 1) < pow2 E)%R as L' by Lra.lra.
    apply pow2_lt_inv in L'. lia. }
  assert (1 <= IZR (round_nearest_even M l))%R as HN
      by (apply IZR_le; lia).
  apply Rmin_glb_lt; [|exact HPm]. Lra.nra.
Qed.

Lemma sub_positive (a b : spec_float) :
  sf_good prec emax a -> sf_good prec emax b -> sf_finite a -> sf_finite b ->
  (SF2R emax a < SF2R emax b)%R ->
  (0 < SF2R emax (SFsub prec emax b a))%R.
Proof.
  intros Ga Gb Fa Fb H.
  destruct (finite_multiple a Ga Fa) as [ka Ea].
  destruct (finite_multiple b Gb Fb) as [kb Eb].
  pose proof (pow2_pos emin) as HP.
  assert (ka < kb)%Z as Hk.
  { apply lt_IZR. rewrite Ea, Eb in H. Lra.nra. }
  assert (pow2 emin <= SF2R emax b - SF2R emax a)%R as Hx.
  { rewrite Ea, Eb, <- Rmult_minus_distr_r, <- minus_IZR.
    assert (1 <= IZR (kb - ka))%R by (apply IZR_le; lia). Lra.nra. }
  pose proof (SFsub_Rnd prec emax Hprec b a Gb Ga Fb Fa) as [(E0 & _) | [(_ & HR) | (Hn & _)]];
    [Lra.lra | | Lra.lra].
  now apply (rounds_pos_positive _ _ Hx).
Qed.

End MoreRounding.

Lemma prec_pos : (0 < prec)%Z.
Proof. reflexivity. Qed.

Lemma prec_lt_emax : (prec < emax)%Z.
Proof. reflexivity. Qed.

Lemma Rmax_min_mono (x y : R) :
  (x <= y)%R -> (Rmax 0 (Rmin 1 x) <= Rmax 0 (Rmin 1 y))%R.
Proof.
  intros H. unfold Rmin. destruct (Rle_dec 1 x), (Rle_dec 1 y); unfold Rmax;
    repeat match goal with |- context [Rle_dec ?a ?b] => destruct (Rle_dec a b) end;
    Lra.lra.
Qed.

Lemma Rmax_min_range (x : R) : (0 <= Rmax 0 (Rmin 1 x) <= 1)%R.
Proof.
  unfold Rmin. destruct (Rle_dec 1 x); unfold Rmax;
    repeat match goal with |- context [Rle_dec ?a ?b] => destruct (Rle_dec a b) end;
    Lra.lra.
Qed.

Lemma Rmax_min_nonpos (x : R) : (x <= 0)%R -> Rmax 0 (Rmin 1 x) = 0%R.
Proof.
  intros H. unfold Rmin. destruct (Rle_dec 1 x); unfold Rmax;
    repeat match goal with |- context [Rle_dec ?a ?b] => destruct (Rle_dec a b) end;
    Lra.lra.
Qed.

(** *** Binary64 numbers and their values *)

Lemma number_not_nan (x : float) :
  is_number x <-> PrimFloat.is_nan x = false.
Proof.
  unfold is_number, PrimFloat.is_nan.
  rewrite FloatAxioms.eqb_spec. split.
  - intros G. unfold SFeqb.
    destruct (SFcompare_spec prec emax prec_pos _ _ G G) as (c & -> & C).
    destruct c; cbn in C; [reflexivity | Lra.lra | Lra.lra].
  - intros H. apply (valid_good prec emax prec_pos prec_lt_emax).
    + apply Prim2SF_valid.
    + intros E. rewrite E in H. discriminate.
Qed.

Lemma isfinite_number (x : float) :
  isfinite x = true -> is_number x /\ sf_finite (Prim2SF x).
Proof.
  unfold isfinite, PrimFloat.is_finite, PrimFloat.is_infinity.
  rewrite negb_true_iff, orb_false_iff. intros [Hn Hi].
  apply number_not_nan in Hn. split; [exact Hn|].
  rewrite FloatAxioms.eqb_spec, abs_spec in Hi.
  unfold is_number in Hn.
  destruct (Prim2SF x) as [s|s| |s m e]; cbn [sf_finite]; trivial.
  cbn in Hi. discriminate.
Qed.

Lemma leb_B2R (x y : float) :
  is_number x -> is_number y ->
  (PrimFloat.leb x y = true <-> (B2R x <= B2R y)%R).
Proof.
  intros Hx Hy. rewrite leb_spec.
  exact (SFleb_spec prec emax prec_pos _ _ Hx Hy).
Qed.

Lemma ltb_B2R (x y : float) :
  is_number x -> is_number y ->
  (PrimFloat.ltb x y = true <-> (B2R x < B2R y)%R).
Proof.
  intros Hx Hy. rewrite ltb_spec.
  exact (SFltb_spec prec emax prec_pos _ _ Hx Hy).
Qed.

Lemma eqb_B2R (x y : float) :
  is_number x -> is_number y ->
  (PrimFloat.eqb x y = true <-> B2R x = B2R y).
Proof.
  intros Hx Hy. rewrite FloatAxioms.eqb_spec.
  exact (SFeqb_spec prec emax prec_pos _ _ Hx Hy).
Qed.

Lemma leb_false_B2R (x y : float) :
  is_number x -> is_number y ->
  (PrimFloat.leb x y = false <-> (B2R y < B2R x)%R).
Proof.
  intros Hx Hy. rewrite <- not_true_iff_false, (leb_B2R x y Hx Hy).
  split; intros; Lra.lra.
Qed.

Lemma ltb_false_B2R (x y : float) :
  is_number x -> is_number y ->
  (PrimFloat.ltb x y = false <-> (B2R y <= B2R x)%R).
Proof.
  intros Hx Hy. rewrite <- not_true_iff_false, (ltb_B2R x y Hx Hy).
  split; intros; Lra.lra.
Qed.

Lemma B2R_zero : B2R 0%float = 0%R.
Proof. reflexivity. Qed.

Lemma B2R_one : B2R 1%float = 1%R.
Proof.
  unfold B2R. change (Prim2SF 1%float)
    with (S754_finite false 4503599627370496 (-52)).
  cbn [SF2R sign_factor].
  change 4503599627370496%positive with (Z.to_pos (2 ^ 52)).
  rewrite Z2Pos.id by reflexivity.
  rewrite <- (pow2_IZR 52), <- pow2_add by lia.
  change (52 + -52)%Z with 0%Z. rewrite pow2_0. Lra.lra.
Qed.

Lemma number_zero : is_number 0%float.
Proof. now apply number_not_nan. Qed.

Lemma number_one : is_number 1%float.
Proof. now apply number_not_nan. Qed.

Lemma finite_zero : sf_finite (Prim2SF 0%float).
Proof. exact I. Qed.

Lemma finite_one : sf_finite (Prim2SF 1%float).
Proof. exact I. Qed.

Lemma number_finite (x : float) :
  is_number x -> (- pow2 emax < B2R x < pow2 emax)%R -> sf_finite (Prim2SF x).
Proof. apply good_finite. Qed.

Lemma pow2_emax_large : (1 < pow2 emax)%R.
Proof.
  change 1%R with (pow2 0). apply pow2_lt. reflexivity.
Qed.

(** *** The operations round the exact result *)

Lemma sub_rounds (x y : float) :
  is_number x -> is_number y ->
  sf_finite (Prim2SF x) -> sf_finite (Prim2SF y) ->
  rounds_to prec emax (B2R x - B2R y) (Prim2SF (x - y)).
Proof.
  intros. rewrite sub_spec. now apply SFsub_Rnd.
Qed.

Lemma mul_rounds (x y : float) :
  is_number x -> is_number y ->
  sf_finite (Prim2SF x) -> sf_finite (Prim2SF y) ->
  rounds_to prec emax (B2R x * B2R y) (Prim2SF (x * y)).
Proof.
  intros. rewrite mul_spec. now apply SFmul_Rnd.
Qed.

Lemma rounds_number (x : R) (y : float) :
  rounds_to prec emax x (Prim2SF y) -> is_number y.
Proof. apply Rnd_good; [exact prec_pos | exact prec_lt_emax]. Qed.

Lemma rounds_mono (x x' : R) (y y' : float) :
  (x <= x')%R ->
  rounds_to prec emax x (Prim2SF y) -> rounds_to prec emax x' (Prim2SF y') ->
  (B2R y <= B2R y')%R.
Proof. apply Rnd_mono; [exact prec_pos | exact prec_lt_emax]. Qed.

Lemma rounds_sign (x : R) (y : float) :
  rounds_to prec emax x (Prim2SF y) ->
  ((0 <= x)%R -> (0 <= B2R y)%R) /\ ((x <= 0)%R -> (B2R y <= 0)%R).
Proof. apply Rnd_sign; [exact prec_pos | exact prec_lt_emax]. Qed.

Lemma rounds_self (x : float) :
  is_number x -> sf_finite (Prim2SF x) ->
  rounds_to prec emax (B2R x) (Prim2SF x).
Proof.
  intros G F. apply Rnd_self; [exact prec_pos | exact G|].
  now destruct (Prim2SF x).
Qed.

(** A real between [0] and [1] is rounded to a finite number between
    [0] and [1]. *)
Lemma rounds_unit (x : R) (y : float) :
  (0 <= x <= 1)%R -> rounds_to prec emax x (Prim2SF y) ->
  is_number y /\ sf_finite (Prim2SF y) /\ (0 <= B2R y <= 1)%R.
Proof.
  intros [H0 H1] H. pose proof (rounds_number _ _ H) as G.
  pose proof (proj1 (rounds_sign _ _ H) H0) as L0.
  pose proof (rounds_mono x 1 y 1%float H1 H) as L1.
  rewrite B2R_one in L1.
  specialize (L1 ltac:(rewrite <- B2R_one;
                       exact (rounds_self _ number_one finite_one))).
  split; [exact G|]. split; [|Lra.lra].
  apply number_finite; [exact G|]. pose proof pow2_emax_large. Lra.lra.
Qed.

(** *** Division by a positive finite number *)

Lemma positive_finite (D : float) :
  is_number D -> sf_finite (Prim2SF D) -> (0 < B2R D)%R ->
  exists m e, Prim2SF D = S754_finite false m e.
Proof.
  unfold is_number, B2R. intros G F H.
  destruct (Prim2SF D) as [s|s| |s m e]; cbn [sf_finite SF2R] in *;
    try contradiction; [Lra.lra|].
  destruct s; [|now exists m, e].
  pose proof (can_pos_lt prec emax prec_pos _ _ G). cbn [sign_factor] in H.
  Lra.lra.
Qed.

Lemma div_number (n D : float) :
  is_number n -> is_number D -> sf_finite (Prim2SF D) -> (0 < B2R D)%R ->
  is_number (n / D)
  /\ ((sf_finite (Prim2SF n)
       /\ rounds_to prec emax (B2R n / B2R D) (Prim2SF (n / D)))
      \/ (exists s, Prim2SF n = S754_infinity s
                    /\ Prim2SF (n / D) = S754_infinity s)).
Proof.
  intros Gn GD FD HD.
  destruct (positive_finite D GD FD HD) as (m & e & ED).
  unfold is_number, B2R in *. rewrite div_spec, ED in *.
  destruct (Prim2SF n) as [s|s| |s mn en] eqn:En; cbn [sf_good] in Gn;
    try contradiction.
  - pose proof (SFdiv_Rnd prec emax prec_pos (S754_zero s) false m e I I) as H.
    split; [exact (Rnd_good prec emax prec_pos prec_lt_emax _ _ H)|].
    left. split; [exact I | exact H].
  - split; [exact I|]. right. exists s. split; [reflexivity|].
    cbn. now destruct s.
  - pose proof (SFdiv_Rnd prec emax prec_pos (S754_finite s mn en) false m e
                  Gn I) as H.
    split; [exact (Rnd_good prec emax prec_pos prec_lt_emax _ _ H)|].
    left. split; [exact I | exact H].
Qed.

Lemma div_mono (n n' D : float) :
  is_number n -> is_number n' ->
  is_number D -> sf_finite (Prim2SF D) -> (0 < B2R D)%R ->
  (B2R n <= B2R n')%R -> (B2R (n / D) <= B2R (n' / D))%R.
Proof.
  intros Gn Gn' GD FD HD H.
  destruct (div_number n D Gn GD FD HD) as [G1 C1].
  destruct (div_number n' D Gn' GD FD HD) as [G2 C2].
  pose proof (good_bound prec emax prec_pos _ G1) as [B1 _].
  pose proof (good_bound prec emax prec_pos _ G2) as [B2 _].
  pose proof (good_bound prec emax prec_pos _ Gn) as [_ Bn].
  pose proof (good_bound prec emax prec_pos _ Gn') as [_ Bn'].
  pose proof (pow2_pos emax) as HP.
  destruct C1 as [[F1 R1] | (s1 & E1 & V1)], C2 as [[F2 R2] | (s2 & E2 & V2)].
  - apply (rounds_mono _ _ _ _ ltac:(apply Rmult_le_compat_r;
      [apply Rlt_le, Rinv_0_lt_compat, HD | exact H]) R1 R2).
  - specialize (Bn F1). unfold B2R in *. rewrite E2 in H. rewrite V2.
    destruct s2; cbn [SF2R sign_factor] in *; Lra.lra.
  - specialize (Bn' F2). unfold B2R in *. rewrite E1 in H. rewrite V1.
    destruct s1; cbn [SF2R sign_factor] in *; Lra.lra.
  - unfold B2R in *. rewrite E1, E2 in H. rewrite V1, V2.
    exact H.
Qed.

(** *** The ramp and the clamp *)

Lemma float_ramp_unit (t : float) :
  is_number t ->
  is_number (float_ramp t) /\ sf_finite (Prim2SF (float_ramp t))
  /\ (0 <= B2R (float_ramp t) <= 1)%R.
Proof.
  intros G. unfold float_ramp.
  destruct (PrimFloat.ltb t 0) eqn:A.
  { rewrite B2R_one. split; [exact number_one|]. split; [exact I | Lra.lra]. }
  destruct (PrimFloat.ltb 1 t) eqn:B.
  { rewrite B2R_zero. split; [exact number_zero|]. split; [exact I | Lra.lra]. }
  apply (ltb_false_B2R t 0 G number_zero) in A.
  apply (ltb_false_B2R 1 t number_one G) in B.
  rewrite B2R_zero in A. rewrite B2R_one in B.
  assert (sf_finite (Prim2SF t)) as F.
  { apply number_finite; [exact G|]. pose proof pow2_emax_large. Lra.lra. }
  pose proof (sub_rounds 1 t number_one G finite_one F) as H.
  rewrite B2R_one in H. apply (rounds_unit (1 - B2R t)); [Lra.lra | exact H].
Qed.

Lemma float_ramp_anti (t t' : float) :
  is_number t -> is_number t' -> (B2R t <= B2R t')%R ->
  (B2R (float_ramp t') <= B2R (float_ramp t))%R.
Proof.
  intros G G' H.
  pose proof (float_ramp_unit t G) as (_ & _ & U).
  pose proof (float_ramp_unit t' G') as (_ & _ & U').
  unfold float_ramp in *.
  destruct (PrimFloat.ltb t 0) eqn:A.
  { rewrite B2R_one in *. Lra.lra. }
  destruct (PrimFloat.ltb t' 0) eqn:A'.
  { apply (ltb_B2R t' 0 G' number_zero) in A'.
    apply (ltb_false_B2R t 0 G number_zero) in A. Lra.lra. }
  destruct (PrimFloat.ltb 1 t') eqn:B'.
  { rewrite B2R_zero in *. Lra.lra. }
  destruct (PrimFloat.ltb 1 t) eqn:B.
  { apply (ltb_B2R 1 t number_one G) in B.
    apply (ltb_false_B2R 1 t' number_one G') in B'. Lra.lra. }
  apply (ltb_false_B2R t 0 G number_zero) in A.
  apply (ltb_false_B2R 1 t number_one G) in B.
  apply (ltb_false_B2R t' 0 G' number_zero) in A'.
  apply (ltb_false_B2R 1 t' number_one G') in B'.
  rewrite B2R_zero, B2R_one in *.
  assert (sf_finite (Prim2SF t)) as F
      by (apply number_finite; [exact G|]; pose proof pow2_emax_large; Lra.lra).
  assert (sf_finite (Prim2SF t')) as F'
      by (apply number_finite; [exact G'|]; pose proof pow2_emax_large; Lra.lra).
  apply (rounds_mono (B2R 1 - B2R t') (B2R 1 - B2R t)).
  - Lra.lra.
  - exact (sub_rounds 1 t' number_one G' finite_one F').
  - exact (sub_rounds 1 t number_one G finite_one F).
Qed.

Lemma Rmax_min_cases (x : R) :
  ((1 <= x)%R -> Rmax 0 (Rmin 1 x) = 1%R)
  /\ ((0 <= x <= 1)%R -> Rmax 0 (Rmin 1 x) = x).
Proof.
  unfold Rmin. destruct (Rle_dec 1 x); unfold Rmax;
    repeat match goal with |- context [Rle_dec ?a ?b] => destruct (Rle_dec a b) end;
    split; intros; Lra.lra.
Qed.

Lemma float_clamp_value (p : float) :
  is_number p ->
  is_number (float_clamp p)
  /\ B2R (float_clamp p) = Rmax 0 (Rmin 1 (B2R p)).
Proof.
  intros G. unfold float_clamp, py_max, py_min. cbn [nlt float_num].
  destruct (Rmax_min_cases (B2R p)) as [C1 C2].
  destruct (PrimFloat.ltb p 1) eqn:A.
  - apply (ltb_B2R p 1 G number_one) in A. rewrite B2R_one in A.
    destruct (PrimFloat.ltb 0 p) eqn:B.
    + apply (ltb_B2R 0 p number_zero G) in B. rewrite B2R_zero in B.
      split; [exact G|]. rewrite C2; [reflexivity | Lra.lra].
    + apply (ltb_false_B2R 0 p number_zero G) in B. rewrite B2R_zero in B.
      split; [exact number_zero|]. rewrite B2R_zero.
      now rewrite Rmax_min_nonpos.
  - apply (ltb_false_B2R p 1 G number_one) in A. rewrite B2R_one in A.
    assert (PrimFloat.ltb 0 1 = true) as -> by reflexivity.
    split; [exact number_one|]. rewrite B2R_one. now rewrite C1.
Qed.

Lemma float_clamp_leb (p p' : float) :
  is_number p -> is_number p' -> (B2R p <= B2R p')%R ->
  PrimFloat.leb (float_clamp p) (float_clamp p') = true.
Proof.
  intros G G' H.
  destruct (float_clamp_value p G) as [C V].
  destruct (float_clamp_value p' G') as [C' V'].
  apply (leb_B2R _ _ C C'). rewrite V, V'. now apply Rmax_min_mono.
Qed.

(** *** The product with the fraction *)

Lemma product_number (frac c : float) :
  isfinite frac = true -> is_number c -> sf_finite (Prim2SF c) ->
  is_number (frac * c).
Proof.
  intros Hf Gc Fc. destruct (isfinite_number frac Hf) as [Gf Ff].
  exact (rounds_number _ _ (mul_rounds frac c Gf Gc Ff Fc)).
Qed.

(** A smaller factor between [0] and [1] gives a smaller score. *)
Lemma score_factor_mono (frac c c' : float) :
  isfinite frac = true ->
  is_number c -> sf_finite (Prim2SF c) ->
  is_number c' -> sf_finite (Prim2SF c') ->
  (0 <= B2R c' <= B2R c)%R ->
  PrimFloat.leb (float_clamp (frac * c')) (float_clamp (frac * c)) = true.
Proof.
  intros Hf Gc Fc Gc' Fc' [H0 H].
  destruct (isfinite_number frac Hf) as [Gf Ff].
  pose proof (mul_rounds frac c Gf Gc Ff Fc) as R1.
  pose proof (mul_rounds frac c' Gf Gc' Ff Fc') as R2.
  pose proof (rounds_number _ _ R1) as G1.
  pose proof (rounds_number _ _ R2) as G2.
  destruct (Rle_lt_dec 0 (B2R frac)) as [Hp | Hn].
  - apply float_clamp_leb; trivial.
    assert (B2R frac * B2R c' <= B2R frac * B2R c)%R as Hm
      by (apply Rmult_le_compat_l; assumption).
    exact (rounds_mono _ _ _ _ Hm R2 R1).
  - destruct (float_clamp_value _ G1) as [C1 V1].
    destruct (float_clamp_value _ G2) as [C2 V2].
    apply (leb_B2R _ _ C2 C1). rewrite V1, V2.
    pose proof (proj2 (rounds_sign _ _ R1) ltac:(Lra.nra)).
    pose proof (proj2 (rounds_sign _ _ R2) ltac:(Lra.nra)).
    rewrite !Rmax_min_nonpos by assumption. Lra.lra.
Qed.

(** A larger fraction gives a larger score. *)
Lemma score_fraction_mono (frac frac' c : float) :
  isfinite frac = true -> isfinite frac' = true ->
  is_number c -> sf_finite (Prim2SF c) -> (0 <= B2R c)%R ->
  (B2R frac <= B2R frac')%R ->
  PrimFloat.leb (float_clamp (frac * c)) (float_clamp (frac' * c)) = true.
Proof.
  intros Hf Hf' Gc Fc H0 H.
  destruct (isfinite_number frac Hf) as [Gf Ff].
  destruct (isfinite_number frac' Hf') as [Gf' Ff'].
  pose proof (mul_rounds frac c Gf Gc Ff Fc) as R1.
  pose proof (mul_rounds frac' c Gf' Gc Ff' Fc) as R2.
  apply float_clamp_leb.
  - exact (rounds_number _ _ R1).
  - exact (rounds_number _ _ R2).
  - assert (B2R frac * B2R c <= B2R frac' * B2R c)%R as Hm
      by (apply Rmult_le_compat_r; assumption).
    exact (rounds_mono _ _ _ _ Hm R1 R2).
Qed.

(** *** NaN and the infinities *)

(** Every binary64 value is NaN or a number. *)
Lemma nan_or_number (x : float) : Prim2SF x = S754_nan \/ is_number x.
Proof.
  assert (Prim2SF x = S754_nan \/ Prim2SF x <> S754_nan) as [H|H]
    by (destruct (Prim2SF x); (now left) || (right; discriminate)).
  - now left.
  - right. apply (valid_good prec emax prec_pos prec_lt_emax);
      [apply Prim2SF_valid | exact H].
Qed.

Lemma isfinite_finite (x : float) :
  isfinite x = true <-> sf_finite (Prim2SF x).
Proof.
  split; [apply isfinite_number|]. intros F.
  unfold isfinite, PrimFloat.is_finite, PrimFloat.is_infinity.
  apply negb_true_iff, orb_false_iff. split.
  - apply number_not_nan. destruct (nan_or_number x) as [E|G]; [|exact G].
    rewrite E in F. contradiction.
  - rewrite FloatAxioms.eqb_spec, abs_spec.
    destruct (Prim2SF x); cbn in F |- *; try contradiction; reflexivity.
Qed.

Lemma leb_numbers (x y : float) :
  PrimFloat.leb x y = true -> is_number x /\ is_number y.
Proof.
  rewrite leb_spec. intros H.
  destruct (nan_or_number x) as [E|Gx].
  { rewrite E in H. discriminate. }
  destruct (nan_or_number y) as [E|Gy].
  { rewrite E in H. destruct (Prim2SF x); discriminate. }
  now split.
Qed.

Lemma ltb_nan (x y : float) :
  Prim2SF x = S754_nan \/ Prim2SF y = S754_nan -> PrimFloat.ltb x y = false.
Proof.
  rewrite ltb_spec. intros [E|E]; rewrite E; [reflexivity|].
  now destruct (Prim2SF x).
Qed.

Lemma sub_nan (x y : float) :
  Prim2SF y = S754_nan -> Prim2SF (x - y) = S754_nan.
Proof. rewrite sub_spec. intros ->. now destruct (Prim2SF x). Qed.

Lemma mul_nan (x y : float) :
  Prim2SF y = S754_nan -> Prim2SF (x * y) = S754_nan.
Proof. rewrite mul_spec. intros ->. now destruct (Prim2SF x). Qed.

(** The ramp keeps a NaN, and the clamp turns it into [1.0]: no
    comparison with NaN holds, so [min(1.0, nan)] is [1.0]. *)
Lemma float_ramp_nan (t : float) :
  Prim2SF t = S754_nan -> Prim2SF (float_ramp t) = S754_nan.
Proof.
  intros E. unfold float_ramp.
  rewrite (ltb_nan t 0 (or_introl E)), (ltb_nan 1 t (or_intror E)).
  now apply sub_nan.
Qed.

Lemma float_clamp_nan (p : float) :
  Prim2SF p = S754_nan -> float_clamp p = 1%float.
Proof.
  intros E. unfold float_clamp, py_max, py_min. cbn [nlt float_num].
  now rewrite (ltb_nan p 1 (or_introl E)).
Qed.

(** *** Subtraction of a finite number *)

Lemma sub_number (x y : float) :
  is_number x -> isfinite y = true ->
  is_number (x - y)
  /\ ((sf_finite (Prim2SF x)
       /\ rounds_to prec emax (B2R x - B2R y) (Prim2SF (x - y)))
      \/ (exists s, Prim2SF x = S754_infinity s
                    /\ Prim2SF (x - y) = S754_infinity s)).
Proof.
  intros Gx Hy. destruct (isfinite_number y Hy) as [Gy Fy].
  assert (sf_finite (Prim2SF x) \/ exists s, Prim2SF x = S754_infinity s)
    as [F | [s E]].
  { unfold is_number in Gx.
    destruct (Prim2SF x) as [s|s| |s m e]; cbn [sf_good sf_finite] in *;
      try contradiction; eauto. }
  - pose proof (sub_rounds x y Gx Gy F Fy) as H.
    split; [exact (rounds_number _ _ H)|]. left. now split.
  - assert (Prim2SF (x - y) = S754_infinity s) as E'.
    { rewrite sub_spec, E.
      destruct (Prim2SF y); cbn [sf_finite] in Fy; try contradiction;
        reflexivity. }
    split; [unfold is_number; rewrite E'; exact I|]. right. now exists s.
Qed.

Lemma sub_mono (x x' y : float) :
  is_number x -> is_number x' -> isfinite y = true ->
  (B2R x <= B2R x')%R -> (B2R (x - y) <= B2R (x' - y))%R.
Proof.
  intros Gx Gx' Hy H.
  destruct (sub_number x y Gx Hy) as [G1 C1].
  destruct (sub_number x' y Gx' Hy) as [G2 C2].
  pose proof (good_bound prec emax prec_pos _ G1) as [B1 _].
  pose proof (good_bound prec emax prec_pos _ G2) as [B2 _].
  pose proof (good_bound prec emax prec_pos _ Gx) as [_ Bn].
  pose proof (good_bound prec emax prec_pos _ Gx') as [_ Bn'].
  pose proof (pow2_pos emax) as HP.
  destruct C1 as [[F1 R1] | (s1 & E1 & V1)], C2 as [[F2 R2] | (s2 & E2 & V2)].
  - assert (B2R x - B2R y <= B2R x' - B2R y)%R as Hm by Lra.lra.
    exact (rounds_mono _ _ _ _ Hm R1 R2).
  - specialize (Bn F1). unfold B2R in *. rewrite E2 in H. rewrite V2.
    destruct s2; cbn [SF2R sign_factor] in *; Lra.lra.
  - specialize (Bn' F2). unfold B2R in *. rewrite E1 in H. rewrite V1.
    destruct s1; cbn [SF2R sign_factor] in *; Lra.lra.
  - unfold B2R in *. rewrite E1, E2 in H. rewrite V1, V2.
    exact H.
Qed.

(** A finite difference has finite terms. *)
Lemma sub_finite_inv (x y : float) :
  isfinite (x - y) = true -> isfinite x = true /\ isfinite y = true.
Proof.
  rewrite !isfinite_finite, sub_spec.
  destruct (Prim2SF x) as [s|s| |s m e], (Prim2SF y) as [s'|s'| |s' m' e'];
    cbn [sf_finite]; try (intros _; split; exact I);
    try (destruct s); try (destruct s'); cbn; intros [].
Qed.

(** *** The scorer *)

(** The width of the ramp is not zero when the ramp is used. *)
Lemma ramp_width_positive (E_good E_bad : float) :
  isfinite E_good = true -> isfinite E_bad = true ->
  PrimFloat.leb E_bad E_good = false ->
  is_number (E_bad - E_good) /\ (0 < B2R (E_bad - E_good))%R
  /\ PrimFloat.eqb (E_bad - E_good) 0 = false.
Proof.
  intros Hg Hb H.
  destruct (isfinite_number E_good Hg) as [Gg Fg].
  destruct (isfinite_number E_bad Hb) as [Gb Fb].
  apply (leb_false_B2R _ _ Gb Gg) in H.
  pose proof (rounds_number _ _ (sub_rounds E_bad E_good Gb Gg Fb Fg)) as GD.
  assert (0 < B2R (E_bad - E_good))%R as HD.
  { unfold B2R. rewrite sub_spec.
    now apply (sub_positive prec emax prec_pos prec_lt_emax). }
  split; [exact GD|]. split; [exact HD|].
  apply not_true_iff_false. rewrite (eqb_B2R _ _ GD number_zero), B2R_zero.
  Lra.lra.
Qed.

(** Hence the division of the ramp never raises, whatever the two
    thresholds are: a width that is not finite is not zero either. *)
Lemma ramp_width_nonzero (E_good E_bad : float) :
  PrimFloat.leb E_bad E_good = false ->
  PrimFloat.eqb (E_bad - E_good) 0 = false.
Proof.
  intros H. destruct (isfinite (E_bad - E_good)) eqn:HD.
  - destruct (sub_finite_inv _ _ HD) as [Hb Hg].
    exact (proj2 (proj2 (ramp_width_positive E_good E_bad Hg Hb H))).
  - apply not_true_iff_false. intros E.
    rewrite FloatAxioms.eqb_spec in E.
    assert (sf_finite (Prim2SF (E_bad - E_good))) as F.
    { destruct (Prim2SF (E_bad - E_good)) as [s|s| |s m e];
        cbn [sf_finite]; trivial; [now destruct s | discriminate]. }
    apply isfinite_finite in F. congruence.
Qed.

(** The scorer on binary64, unfolded: it always returns a score. *)
Lemma confidence_score_float (frac mae E_good E_bad : float) :
  confidence_score frac mae E_good E_bad =
  Some (float_clamp (frac * mae_factor mae E_good E_bad)).
Proof.
  unfold confidence_score, mae_factor.
  cbn [nle nlt nsub nmul ndiv num0 num1 float_num].
  destruct (PrimFloat.leb E_bad E_good) eqn:A; [reflexivity|].
  rewrite (ramp_width_nonzero E_good E_bad A). reflexivity.
Qed.

(** The factor is NaN or a finite number between [0] and [1]. *)
Lemma mae_factor_cases (mae E_good E_bad : float) :
  Prim2SF (mae_factor mae E_good E_bad) = S754_nan
  \/ (is_number (mae_factor mae E_good E_bad)
      /\ sf_finite (Prim2SF (mae_factor mae E_good E_bad))
      /\ (0 <= B2R (mae_factor mae E_good E_bad) <= 1)%R).
Proof.
  unfold mae_factor. destruct (PrimFloat.leb E_bad E_good).
  - right. unfold float_threshold. destruct (PrimFloat.leb mae E_good).
    + rewrite B2R_one. split; [exact number_one|]. split; [exact I | Lra.lra].
    + rewrite B2R_zero. split; [exact number_zero|]. split; [exact I | Lra.lra].
  - destruct (nan_or_number ((mae - E_good) / (E_bad - E_good))) as [E|G].
    + left. now apply float_ramp_nan.
    + right. now apply float_ramp_unit.
Qed.

(** The score does not decrease when a finite fraction grows, whatever
    the other arguments are. *)
Lemma fraction_monotone (frac frac' mae E_good E_bad : float) :
  isfinite frac = true -> isfinite frac' = true ->
  PrimFloat.leb frac frac' = true ->
  PrimFloat.leb (float_clamp (frac * mae_factor mae E_good E_bad))
                (float_clamp (frac' * mae_factor mae E_good E_bad)) = true.
Proof.
  intros Hf Hf' H.
  destruct (mae_factor_cases mae E_good E_bad) as [E | (G & F & U)].
  - rewrite !float_clamp_nan by now apply mul_nan. reflexivity.
  - apply score_fraction_mono; trivial; [apply U|].
    apply leb_B2R; trivial; now apply isfinite_number.
Qed.

(** The factor does not increase when [mae] grows, in the threshold mode
    and on a ramp whose width is finite. *)
Lemma mae_factor_anti (mae mae' E_good E_bad : float) :
  PrimFloat.leb mae mae' = true ->
  PrimFloat.leb E_bad E_good = true \/ isfinite (E_bad - E_good) = true ->
  is_number (mae_factor mae E_good E_bad)
  /\ sf_finite (Prim2SF (mae_factor mae E_good E_bad))
  /\ is_number (mae_factor mae' E_good E_bad)
  /\ sf_finite (Prim2SF (mae_factor mae' E_good E_bad))
  /\ (0 <= B2R (mae_factor mae' E_good E_bad)
      <= B2R (mae_factor mae E_good E_bad))%R.
Proof.
  intros H W. destruct (leb_numbers _ _ H) as [Gm Gm'].
  apply (leb_B2R _ _ Gm Gm') in H.
  unfold mae_factor. destruct (PrimFloat.leb E_bad E_good) eqn:A.
  - destruct (leb_numbers _ _ A) as [_ Gg]. unfold float_threshold.
    destruct (PrimFloat.leb mae' E_good) eqn:B'.
    + apply (leb_B2R _ _ Gm' Gg) in B'.
      assert (PrimFloat.leb mae E_good = true) as ->
          by (apply (leb_B2R _ _ Gm Gg); Lra.lra).
      rewrite B2R_one.
      split; [exact number_one|]. split; [exact I|].
      split; [exact number_one|]. split; [exact I | Lra.lra].
    + destruct (PrimFloat.leb mae E_good); rewrite ?B2R_zero, ?B2R_one;
        (split; [first [exact number_one | exact number_zero]|]);
        (split; [exact I|]); (split; [exact number_zero|]);
        (split; [exact I | Lra.lra]).
  - destruct W as [W|HD]; [congruence|].
    destruct (sub_finite_inv _ _ HD) as [Hb Hg].
    destruct (isfinite_number _ HD) as [GD FD].
    destruct (ramp_width_positive E_good E_bad Hg Hb A) as (_ & Hpos & _).
    destruct (sub_number mae E_good Gm Hg) as [Gn _].
    destruct (sub_number mae' E_good Gm' Hg) as [Gn' _].
    pose proof (proj1 (div_number _ _ Gn GD FD Hpos)) as Gt.
    pose proof (proj1 (div_number _ _ Gn' GD FD Hpos)) as Gt'.
    destruct (float_ramp_unit _ Gt) as (C1 & C2 & C3).
    destruct (float_ramp_unit _ Gt') as (C1' & C2' & C3').
    split; [exact C1|]. split; [exact C2|].
    split; [exact C1'|]. split; [exact C2'|].
    split; [apply C3'|].
    apply float_ramp_anti; trivial. apply div_mono; trivial.
    now apply sub_mono.
Qed.

(** The score does not increase when [mae] grows, for a finite fraction,
    in the threshold mode and on a ramp whose width is finite. *)
Lemma mae_monotone (frac mae mae' E_good E_bad : float) :
  isfinite frac = true ->
  PrimFloat.leb E_bad E_good = true \/ isfinite (E_bad - E_good) = true ->
  PrimFloat.leb mae mae' = true ->
  PrimFloat.leb (float_clamp (frac * mae_factor mae' E_good E_bad))
                (float_clamp (frac * mae_factor mae E_good E_bad)) = true.
Proof.
  intros Hf W H.
  destruct (mae_factor_anti mae mae' E_good E_bad H W)
    as (G & F & G' & F' & U).
  now apply score_factor_mono.
Qed.

(* ------------------------------------------------------------------ *)
(** * The canonicaliser                                               *)
(* ------------------------------------------------------------------ *)

Lemma ch_of_chars (l : chars) : ch (string_of_list_ascii l) = l.
Proof. apply list_ascii_of_string_of_list_ascii. Qed.

Lemma normalize_id_fst (s : string) :
  ch (fst (_normalize_id_and_ev s)) = fst (normalize_chars (ch s)).
Proof.
  unfold _normalize_id_and_ev. destruct (normalize_chars (ch s)) as [b ev].
  apply ch_of_chars.
Qed.

(** C5.  Canonicalising ["R2: Artist_Name_ev-25_points.json"] gives the
    base id ["Artist_Name"] and the exposure tag ["ev-25"]. *)
Theorem canonicalize_artist_example :
  _normalize_id_and_ev "R2: Artist_Name_ev-25_points.json"
  = ("Artist_Name", "ev-25")%string.
Proof. vm_compute. reflexivity. Qed.

(** C1, as stated, fails.  One pass cuts each suffix once:
    ["x_points_points"] becomes ["x_points"] (empty tag), which a second
    pass turns into ["x"].  And the tag is read before the tag suffix is
    cut, so the base id of ["a_ev-25"] no longer carries it. *)
Lemma canonicalize_not_idempotent :
  _normalize_id_and_ev "x_points_points" = ("x_points", "")%string
  /\ _normalize_id_and_ev (fst (_normalize_id_and_ev "x_points_points"))
     <> _normalize_id_and_ev "x_points_points"
  /\ _normalize_id_and_ev (fst (_normalize_id_and_ev "a_ev-25"))
     <> _normalize_id_and_ev "a_ev-25".
Proof. vm_compute. repeat split; discriminate. Qed.

(** C1, amended.  For every input [s] whose base id [b] carries nothing
    that one more pass would remove (no blank at either end, none of the
    suffixes [.gz .json _points _ev-00 _ev-25 _ev-50], no rank prefix),
    canonicalising [b] returns [b] unchanged, with the exposure tag that
    [b] itself contains (the empty one when it contains none). *)
Theorem canonicalize_stable (s : string) :
  let b := fst (_normalize_id_and_ev s) in
  affix_free b = true ->
  _normalize_id_and_ev b = (b, _extract_ev_tag b).
Proof.
  cbv zeta. intros H. unfold affix_free in H.
  pose proof (normalize_chars_shape (ch s)) as Hshape.
  rewrite <- normalize_id_fst in Hshape.
  set (b := fst (_normalize_id_and_ev s)) in *.
  unfold _normalize_id_and_ev at 1, _extract_ev_tag.
  rewrite (normalize_chars_fixpoint (ch b) Hshape H).
  f_equal. unfold ch. apply string_of_list_ascii_of_string.
Qed.

Lemma canonicalize_stable_witness :
  affix_free (fst (_normalize_id_and_ev "R2: Artist_Name_ev-25_points.json")) = true
  /\ _normalize_id_and_ev "Artist_Name" = ("Artist_Name", "")%string.
Proof.
  split; [vm_compute; reflexivity|].
  exact (canonicalize_stable "R2: Artist_Name_ev-25_points.json" eq_refl).
Defined.

(** C6, as stated, fails: the pattern asks for the letter [r] before the
    digit, so ["rank 3-paintingname"] keeps its prefix. *)
Lemma rank_word_digit_not_stripped :
  Re.sub_anchored RANK_PREFIX (ch "rank 3-paintingname")
  = ch "rank 3-paintingname"
  /\ fst (_normalize_id_and_ev "rank 3-paintingname")
     = "rank_3-paintingname"%string
  /\ fst (_normalize_id_and_ev "rank 3-paintingname") <> "paintingname"%string
  /\ fst (_normalize_id_and_ev "3_paintingname") = "3_paintingname"%string.
Proof. vm_compute. repeat split; discriminate. Qed.

(** C6, amended.  The canonicaliser strips a leading rank prefix made of
    an optional word [rank] and optional blanks, then the letter [r] or
    [R] (required), one digit among [1 2 3], optional blanks, and one or
    more of [: _ -], in any letter case; every separator that follows
    goes with it, and a text without such a prefix is left as it is.
    ["R2_paintingname"] and ["rank R3 - paintingname"] lose their
    prefix. *)
Theorem rank_prefix_stripped :
  (forall pre rest : chars,
      rank_prefix pre ->
      Re.sub_anchored RANK_PREFIX (pre ++ rest) = drop_while is_sep rest)
  /\ (forall s : chars,
         (forall pre rest, rank_prefix pre -> s <> pre ++ rest) ->
         Re.sub_anchored RANK_PREFIX s = s)
  /\ _normalize_id_and_ev "R2_paintingname" = ("paintingname", "")%string
  /\ _normalize_id_and_ev "rank R3 -paintingname" = ("paintingname", "")%string.
Proof.
  split; [|split; [|split; vm_compute; reflexivity]].
  - intros pre rest H. unfold Re.sub_anchored.
    now rewrite rank_prefix_rmatch, rank_prefix_direct_shape.
  - intros s H. unfold Re.sub_anchored. rewrite rank_prefix_rmatch.
    destruct (rank_prefix_direct s) as [x|] eqn:E; [|reflexivity].
    apply rank_prefix_direct_matches in E as (pre & rest & Hp & Hs).
    now destruct (H pre rest Hp).
Qed.

Lemma rank_prefix_stripped_witness :
  rank_prefix (ch "rank  R2 :_-")
  /\ Re.sub_anchored RANK_PREFIX (ch "rank  R2 :_-" ++ ch "-name") = ch "name".
Proof.
  assert (rank_prefix (ch "rank  R2 :_-")) as H.
  { apply (rank_prefix_word (ch "rank") (ch "  ") (ch "R2 :_-")).
    - reflexivity.
    - repeat constructor.
    - apply (rank_tag_intro "R" "2" (ch " ") (ch ":_-")).
      + reflexivity.
      + reflexivity.
      + repeat constructor.
      + repeat constructor.
      + discriminate. }
  split; [exact H|].
  exact (proj1 rank_prefix_stripped (ch "rank  R2 :_-") (ch "-name") H).
Defined.

Lemma contains_occurs (pat s : chars) :
  contains s pat = true <-> occurs pat s.
Proof. apply contains_spec. Qed.

(** C7, as stated, fails: the tag is looked for after the directories
    are dropped, so a tag in a directory name is not seen. *)
Lemma ev_tag_in_directory_ignored :
  occurs (ch "ev-25") (ch "ev-25/x.json")
  /\ snd (_normalize_id_and_ev "ev-25/x.json") = ""%string.
Proof.
  split; [|vm_compute; reflexivity].
  now exists [], (ch "/x.json").
Qed.

(** C7, amended.  The exposure tag is found by substring search for
    [ev-00], [ev-25], [ev-50] in the final path segment of the input
    (blanks at both ends removed first): the first of the three, in that
    order, that occurs there; the empty tag when none does. *)
Theorem ev_tag_of_last_segment (s : string) :
  let seg := basename (strip (ch s)) in
  let ev := snd (_normalize_id_and_ev s) in
  (occurs (ch "ev-00") seg -> ev = "ev-00"%string)
  /\ (~ occurs (ch "ev-00") seg -> occurs (ch "ev-25") seg ->
      ev = "ev-25"%string)
  /\ (~ occurs (ch "ev-00") seg -> ~ occurs (ch "ev-25") seg ->
      occurs (ch "ev-50") seg -> ev = "ev-50"%string)
  /\ (~ occurs (ch "ev-00") seg -> ~ occurs (ch "ev-25") seg ->
      ~ occurs (ch "ev-50") seg -> ev = ""%string).
Proof.
  cbv zeta. unfold _normalize_id_and_ev.
  rewrite normalize_chars_eq. cbn [snd].
  set (seg := basename (strip (ch s))).
  unfold extract_ev_tag_chars, EV_TAGS.
  rewrite <- !contains_occurs.
  assert (forall pat, contains [] (ch pat) = true -> pat = ""%string) as Hnil.
  { intros pat H. apply contains_occurs in H as (u & w & E).
    destruct u; [|discriminate]. destruct pat; [reflexivity|discriminate]. }
  destruct seg as [|c seg'] eqn:Eseg.
  - repeat split; intros; try reflexivity;
      match goal with H : contains [] (ch ?p) = true |- _ =>
        apply Hnil in H; discriminate end.
  - cbn [first_contained]. rewrite <- Eseg.
    destruct (contains seg (ch "ev-00")), (contains seg (ch "ev-25")),
      (contains seg (ch "ev-50")); repeat split; intros;
      try reflexivity; try congruence; exfalso; auto.
Qed.

Lemma ev_tag_of_last_segment_witness :
  occurs (ch "ev-25") (basename (strip (ch " dir/ev-00/b_ev-25_points.json ")))
  /\ snd (_normalize_id_and_ev " dir/ev-00/b_ev-25_points.json ") = "ev-25"%string.
Proof.
  assert (occurs (ch "ev-25")
            (basename (strip (ch " dir/ev-00/b_ev-25_points.json ")))) as H25.
  { apply contains_occurs. vm_compute. reflexivity. }
  assert (~ occurs (ch "ev-00")
            (basename (strip (ch " dir/ev-00/b_ev-25_points.json ")))) as H00.
  { intros H. apply contains_occurs in H. vm_compute in H. discriminate. }
  split; [exact H25|].
  exact (proj1 (proj2 (ev_tag_of_last_segment " dir/ev-00/b_ev-25_points.json "))
           H00 H25).
Defined.

(* ------------------------------------------------------------------ *)
(** * The confidence scorer                                           *)
(* ------------------------------------------------------------------ *)

(** On binary64 the clamp alone bounds the score, whatever the inputs
    (NaN and the infinities included), whenever a score is returned. *)
Lemma confidence_score_float_bounds (frac mae E_good E_bad v : float) :
  confidence_score frac mae E_good E_bad = Some v ->
  PrimFloat.leb 0%float v = true /\ PrimFloat.leb v 1%float = true.
Proof.
  unfold confidence_score.
  destruct (if nle E_bad E_good then _ else _) as [mae_conf|];
    [|discriminate].
  cbn [mbind option_bind]. intros [= <-].
  unfold py_max, py_min. cbn [nlt num0 num1 nmul float_num].
  set (conf := (frac * mae_conf)%float).
  destruct (PrimFloat.ltb conf 1%float) eqn:A.
  - destruct (PrimFloat.ltb 0%float conf) eqn:B.
    + split; now apply ltb_leb.
    + split; reflexivity.
  - split; reflexivity.
Qed.

(** C2, as stated, fails on binary64.  All four arguments are finite
    and [E_bad] exceeds [E_good], but the width [E_bad - E_good] of the
    ramp overflows: for the larger [mae] the quotient is [inf / inf], a
    NaN, which the clamp turns into [1.0], so the score rises with
    [mae]. *)
Lemma confidence_score_rises_with_mae :
  isfinite 0.5%float = true /\ isfinite 0%float = true
  /\ isfinite 1e308%float = true /\ isfinite (-1e308)%float = true
  /\ PrimFloat.ltb (-1e308)%float 1e308%float = true
  /\ PrimFloat.leb 0%float 1e308%float = true
  /\ confidence_score 0.5%float 0%float (-1e308)%float 1e308%float
     = Some 0.5%float
  /\ confidence_score 0.5%float 1e308%float (-1e308)%float 1e308%float
     = Some 1%float
  /\ PrimFloat.ltb 0.5%float 1%float = true.
Proof. vm_compute. repeat split. Qed.

(** With an infinite fraction the score can fall when the fraction
    grows: [-inf * 0.0] is NaN. *)
Lemma confidence_score_falls_with_fraction :
  PrimFloat.leb neg_infinity 0%float = true
  /\ confidence_score neg_infinity 8%float 1%float 8%float = Some 1%float
  /\ confidence_score 0%float 8%float 1%float 8%float = Some 0%float
  /\ PrimFloat.ltb 0%float 1%float = true.
Proof. vm_compute. repeat split. Qed.

(** C2, amended.  On binary64 the scorer returns a score for all inputs
    (NaN and the infinities included), and the score lies in [[0, 1]].
    With the other arguments fixed, the score does not increase when
    [mae] grows, if the fraction is finite and either the threshold mode
    is used ([E_bad <= E_good]) or the width [E_bad - E_good] of the
    ramp is finite; and it does not decrease when a finite
    [inlier_weight_frac] grows, whatever the other arguments are. *)
Theorem confidence_score_bounded_monotone (frac mae E_good E_bad : float) :
  (exists v, confidence_score frac mae E_good E_bad = Some v
             /\ PrimFloat.leb 0%float v = true
             /\ PrimFloat.leb v 1%float = true)
  /\ (forall mae' : float,
        isfinite frac = true ->
        PrimFloat.leb E_bad E_good = true
        \/ isfinite (E_bad - E_good) = true ->
        PrimFloat.leb mae mae' = true ->
        exists v v',
          confidence_score frac mae E_good E_bad = Some v
          /\ confidence_score frac mae' E_good E_bad = Some v'
          /\ PrimFloat.leb v' v = true)
  /\ (forall frac' : float,
        isfinite frac = true -> isfinite frac' = true ->
        PrimFloat.leb frac frac' = true ->
        exists v v',
          confidence_score frac mae E_good E_bad = Some v
          /\ confidence_score frac' mae E_good E_bad = Some v'
          /\ PrimFloat.leb v v' = true).
Proof.
  split; [|split].
  - eexists. split; [apply confidence_score_float|].
    exact (confidence_score_float_bounds _ _ _ _ _
             (confidence_score_float frac mae E_good E_bad)).
  - intros mae' Hf W H. do 2 eexists.
    split; [apply confidence_score_float|].
    split; [apply confidence_score_float|].
    now apply mae_monotone.
  - intros frac' Hf Hf' H. do 2 eexists.
    split; [apply confidence_score_float|].
    split; [apply confidence_score_float|].
    now apply fraction_monotone.
Qed.

Lemma confidence_score_monotone_witness :
  (isfinite 0.5%float = true
   /\ (PrimFloat.leb 8%float 1%float = true
       \/ isfinite (8 - 1)%float = true)
   /\ PrimFloat.leb 2%float 4%float = true
   /\ exists v v',
        confidence_score 0.5%float 2%float 1%float 8%float = Some v
        /\ confidence_score 0.5%float 4%float 1%float 8%float = Some v'
        /\ PrimFloat.leb v' v = true)
  /\ (isfinite 0.5%float = true /\ isfinite 0.75%float = true
      /\ PrimFloat.leb 0.5%float 0.75%float = true
      /\ exists v v',
           confidence_score 0.5%float 2%float 1%float 8%float = Some v
           /\ confidence_score 0.75%float 2%float 1%float 8%float = Some v'
           /\ PrimFloat.leb v v' = true).
Proof.
  assert (isfinite 0.5%float = true) as Hf by reflexivity.
  assert (isfinite 0.75%float = true) as Hf' by reflexivity.
  assert (PrimFloat.leb 8%float 1%float = true
          \/ isfinite (8 - 1)%float = true) as W by (right; reflexivity).
  assert (PrimFloat.leb 2%float 4%float = true) as Hm by reflexivity.
  assert (PrimFloat.leb 0.5%float 0.75%float = true) as Hl by reflexivity.
  destruct (confidence_score_bounded_monotone 0.5%float 2%float 1%float 8%float)
    as (_ & Hmae & Hfrac).
  split.
  - split; [exact Hf|]. split; [exact W|]. split; [exact Hm|].
    exact (Hmae 4%float Hf W Hm).
  - split; [exact Hf|]. split; [exact Hf'|]. split; [exact Hl|].
    exact (Hfrac 0.75%float Hf Hf' Hl).
Defined.

(* ------------------------------------------------------------------ *)
(** * The direction extractor                                         *)
(* ------------------------------------------------------------------ *)

Section ExtractorClaims.

Variable float_of_string : string -> option float.

(** C3.  The flat triples are tried before the single-key vectors, and
    these before the nested objects; within each list the first
    candidate that fully succeeds wins.  So a record with a flat triple
    [dir_x, dir_y, dir_z] whose values read as [x, y, z] yields
    [(x, y, z)] from that triple whatever else it holds (a field
    [dir = [1, 0, 0]] included).  In general, said of the record alone:
    the direction is read from the first flat triple whose three keys
    are present with values that read as floats; when there is none,
    from the first single key that holds a list or tuple of at least
    three elements the first three of which read as floats; when there
    is none either, from the first root and component triple such that
    the root holds a dict holding the triple; and the result is
    [(None, "no_direction_keys_found")] exactly when the record holds a
    direction at no candidate. *)
Theorem extraction_priority (d : sample) :
  (forall (vx vy vz : pyval) (x y z : float),
      d !! "dir_x"%string = Some vx ->
      d !! "dir_y"%string = Some vy ->
      d !! "dir_z"%string = Some vz ->
      _as_float float_of_string vx = Some x ->
      _as_float float_of_string vy = Some y ->
      _as_float float_of_string vz = Some z ->
      extract_direction_components float_of_string d
      = (Some (x, y, z), "dir_x,dir_y,dir_z"%string))
  /\ (forall k x y z,
         first_holding (holds_triple float_of_string d) DIR_KEY_CANDIDATES
                       k x y z ->
         extract_direction_components float_of_string d
         = (Some (x, y, z), flat_source k))
  /\ (none_holding (holds_triple float_of_string d) DIR_KEY_CANDIDATES ->
      forall vk x y z,
        first_holding (holds_vector float_of_string d) SINGLE_VEC_CANDIDATES
                      vk x y z ->
        extract_direction_components float_of_string d
        = (Some (x, y, z), vk))
  /\ (none_holding (holds_triple float_of_string d) DIR_KEY_CANDIDATES ->
      none_holding (holds_vector float_of_string d) SINGLE_VEC_CANDIDATES ->
      forall rc x y z,
        first_holding (holds_nested float_of_string d) NESTED_PAIRS
                      rc x y z ->
        extract_direction_components float_of_string d
        = (Some (x, y, z), nested_source rc))
  /\ (extract_direction_components float_of_string d
      = (None, "no_direction_keys_found"%string) <->
      none_holding (holds_triple float_of_string d) DIR_KEY_CANDIDATES
      /\ none_holding (holds_vector float_of_string d) SINGLE_VEC_CANDIDATES
      /\ none_holding (holds_nested float_of_string d) NESTED_PAIRS).
Proof.
  pose proof (try_flat_spec float_of_string d) as Sf.
  pose proof (try_single_spec float_of_string d) as Ss.
  pose proof (try_nested_pair_spec float_of_string d) as Sn.
  unfold extract_direction_components. rewrite try_nested_pairs.
  split; [|split; [|split; [|split]]].
  - intros vx vy vz x y z Hx Hy Hz Fx Fy Fz.
    cbn [DIR_KEY_CANDIDATES first_some try_flat].
    rewrite Hx, Hy, Hz. unfold three_floats. now rewrite Fx, Fy, Fz.
  - intros k x y z H.
    now rewrite (first_some_holding _ _ _ Sf _ _ _ _ _ H).
  - intros Hflat vk x y z H.
    apply (no_match_none_holding _ _ _ Sf), first_some_none in Hflat.
    rewrite Hflat. now rewrite (first_some_holding _ _ _ Ss _ _ _ _ _ H).
  - intros Hflat Hsingle rc x y z H.
    apply (no_match_none_holding _ _ _ Sf), first_some_none in Hflat.
    apply (no_match_none_holding _ _ _ Ss), first_some_none in Hsingle.
    rewrite Hflat, Hsingle.
    now rewrite (first_some_holding _ _ _ Sn _ _ _ _ _ H).
  - rewrite <- !(no_match_none_holding _ _ _ Sf),
      <- !(no_match_none_holding _ _ _ Ss),
      <- !(no_match_none_holding _ _ _ Sn), <- !first_some_none.
    destruct (first_some (try_flat float_of_string d) DIR_KEY_CANDIDATES)
      as [[[[x y] z] src]|].
    { split; [discriminate | intros [H _]; discriminate]. }
    destruct (first_some (try_single float_of_string d) SINGLE_VEC_CANDIDATES)
      as [[[[x y] z] src]|].
    { split; [discriminate | intros (_ & H & _); discriminate]. }
    destruct (first_some (try_nested_pair float_of_string d) NESTED_PAIRS)
      as [[[[x y] z] src]|].
    { split; [discriminate | intros (_ & _ & H); discriminate]. }
    now split.
Qed.

End ExtractorClaims.

Lemma extraction_priority_witness :
  (flat_and_vector !! "dir"%string = Some (VList [VInt 1; VInt 0; VInt 0])
   /\ extract_direction_components (fun _ => None) flat_and_vector
      = (Some (0.6, 0, 0.8)%float, "dir_x,dir_y,dir_z"%string))
  /\ extract_direction_components (fun _ => None) unread_flat_and_vector
     = (Some (0, 0.6, 0.8)%float, "light_dir"%string)
  /\ extract_direction_components (fun _ => None) nested_only
     = (Some (1, 0, 0)%float, "direction.vx,direction.vy,direction.vz"%string).
Proof.
  assert (forall d : sample,
             first_some (try_flat (fun _ => None) d) DIR_KEY_CANDIDATES = None ->
             none_holding (holds_triple (fun _ => None) d) DIR_KEY_CANDIDATES)
    as Hflat.
  { intros d H. apply (no_match_none_holding _ _ _ (try_flat_spec _ d)).
    now apply first_some_none. }
  assert (forall d : sample,
             first_some (try_single (fun _ => None) d) SINGLE_VEC_CANDIDATES
             = None ->
             none_holding (holds_vector (fun _ => None) d) SINGLE_VEC_CANDIDATES)
    as Hvec.
  { intros d H. apply (no_match_none_holding _ _ _ (try_single_spec _ d)).
    now apply first_some_none. }
  split; [split; [vm_compute; reflexivity|]|split].
  - apply (proj1 (extraction_priority (fun _ => None) flat_and_vector)
             (VFloat 0.6%float) (VInt 0) (VFloat 0.8%float));
      vm_compute; reflexivity.
  - refine (proj1 (proj2 (proj2 (extraction_priority (fun _ => None)
              unread_flat_and_vector))) _ "light_dir"%string _ _ _ _).
    + apply Hflat. vm_compute. reflexivity.
    + exists ["dir"; "dir_v"]%string,
        ["direction"; "dir_vec"; "dirv"; "L"; "light_direction"]%string.
      split; [reflexivity|]. split.
      * exists (VInt 0), (VFloat 0.6%float), (VFloat 0.8%float), [].
        split; [left; vm_compute; reflexivity|].
        repeat split; vm_compute; reflexivity.
      * repeat constructor;
          intros x y z (v0 & v1 & v2 & rest & [H | H] & _);
          vm_compute in H; discriminate H.
  - refine (proj1 (proj2 (proj2 (proj2 (extraction_priority (fun _ => None)
              nested_only)))) _ _
              ("direction"%string, ("vx", "vy", "vz")%string) _ _ _ _).
    + apply Hflat. vm_compute. reflexivity.
    + apply Hvec. vm_compute. reflexivity.
    + exists [ ("dir"%string, ("x", "y", "z")%string);
               ("dir"%string, ("vx", "vy", "vz")%string);
               ("dir"%string, ("dir_x", "dir_y", "dir_z")%string);
               ("direction"%string, ("x", "y", "z")%string) ],
        [ ("direction"%string, ("dir_x", "dir_y", "dir_z")%string);
          ("light_dir"%string, ("x", "y", "z")%string);
          ("light_dir"%string, ("vx", "vy", "vz")%string);
          ("light_dir"%string, ("dir_x", "dir_y", "dir_z")%string);
          ("L"%string, ("x", "y", "z")%string);
          ("L"%string, ("vx", "vy", "vz")%string);
          ("L"%string, ("dir_x", "dir_y", "dir_z")%string) ].
      split; [reflexivity|]. split.
      * exists {[ "vx"%string := VInt 1; "vy"%string := VInt 0;
                  "vz"%string := VInt 0 ]}.
        split; [vm_compute; reflexivity|].
        exists (VInt 1), (VInt 0), (VInt 0).
        repeat split; vm_compute; reflexivity.
      * repeat constructor;
          intros x y z (obj & H & vx & vy & vz & H1 & _);
          cbn [fst snd] in H, H1;
          first [ vm_compute in H; discriminate H
                | vm_compute in H; injection H as <-;
                  vm_compute in H1; discriminate H1 ].
Defined.

(* ------------------------------------------------------------------ *)
(** * The vector normaliser                                           *)
(* ------------------------------------------------------------------ *)

(** C8.  With a positive [eps] (the default [1e-12] is one),
    [normalize_vec] never raises; it fails, returning no unit components
    but still the magnitude, exactly when the magnitude is not finite or
    is below [eps], and otherwise returns each component divided by the
    magnitude, with the magnitude.  [normalize_vec(0, 0, 0)] fails with
    magnitude [0]. *)
Theorem normalize_vec_contract (x y z eps : float) :
  PrimFloat.ltb 0%float eps = true ->
  let n := PrimFloat.sqrt (x * x + y * y + z * z)%float in
  (isfinite n = false \/ PrimFloat.ltb n eps = true ->
   normalize_vec x y z eps = Some (None, n))
  /\ (isfinite n = true -> PrimFloat.ltb n eps = false ->
      normalize_vec x y z eps = Some (Some (x / n, y / n, z / n)%float, n))
  /\ (forall r m, normalize_vec x y z eps = Some (r, m) ->
        m = n /\ (r = None <-> isfinite n = false \/ PrimFloat.ltb n eps = true))
  /\ normalize_vec 0 0 0 EPS = Some (None, 0%float).
Proof.
  intros Heps n. rewrite (normalize_vec_spec x y z eps Heps). cbv zeta.
  fold n. repeat split.
  - intros [H | H]; rewrite H; [reflexivity | now rewrite orb_true_r].
  - intros H1 H2. now rewrite H1, H2.
  - destruct (negb (isfinite n) || PrimFloat.ltb n eps); congruence.
  - intros ->. destruct (isfinite n) eqn:A; [|now left].
    destruct (PrimFloat.ltb n eps) eqn:B; [now right|].
    cbn in H. discriminate.
  - intros [Hc | Hc]; rewrite Hc in H; [|rewrite orb_true_r in H];
      cbn in H; congruence.
Qed.

Lemma normalize_vec_contract_witness :
  PrimFloat.ltb 0%float EPS = true
  /\ normalize_vec 0 0 0 EPS = Some (None, 0%float)
  /\ normalize_vec 3 0 4 EPS = Some (Some (0.6, 0, 0.8)%float, 5%float).
Proof.
  split; [exact EPS_positive|]. split.
  - exact (proj1 (normalize_vec_contract 0 0 0 EPS EPS_positive)
             (or_intror eq_refl)).
  - exact (proj1 (proj2 (normalize_vec_contract 3 0 4 EPS EPS_positive))
             eq_refl eq_refl).
Defined.

(** Outside the contract: with [eps = 0] the zero vector passes the test
    and the division raises [ZeroDivisionError]. *)
Example normalize_vec_zero_eps : normalize_vec 0 0 0 0 = None.
Proof. vm_compute. reflexivity. Qed.

(* ------------------------------------------------------------------ *)
(** * The confidence joiner                                           *)
(* ------------------------------------------------------------------ *)

Section JoinerClaims.

Variable float_of_string : string -> option float.
Variable repr : pyval -> string.

(** C4.  The joiner reads the candidates [painting_info],
    [painting_rank_id], [pose_info], [img_path], [file] in that order
    (an absent field counts as the empty string), skips a candidate that
    is empty or whose canonical base id is empty, and looks the others
    up at [(base_id, sample_rank)]; the confidence is the entry of the
    first candidate that has one, and [None] when no candidate has one.
    [sample_rank] is [int(float(rank))], and [1] when [rank] is absent
    or does not convert. *)
Theorem join_first_hit (conf_map : conf_table) (d : sample) :
  let rk := sample_rank float_of_string d in
  let hit := lookup_candidate repr conf_map rk in
  candidates d =
    [ default (VStr "") (d !! "painting_info"%string);
      default (VStr "") (d !! "painting_rank_id"%string);
      default (VStr "") (d !! "pose_info"%string);
      default (VStr "") (d !! "img_path"%string);
      default (VStr "") (d !! "file"%string) ]
  /\ (forall cand v,
        hit cand = Some v <->
        truthy cand = true
        /\ fst (_normalize_id_and_ev (py_str repr cand)) <> ""%string
        /\ conf_map !! (fst (_normalize_id_and_ev (py_str repr cand)), rk)
           = Some v)
  /\ (forall v,
        find_confidence float_of_string repr conf_map d = Some v <->
        exists cand, first_match hit (candidates d) cand v)
  /\ (find_confidence float_of_string repr conf_map d = None <->
      no_match hit (candidates d))
  /\ join_confidence float_of_string repr conf_map d !! "confidence"%string
     = Some match find_confidence float_of_string repr conf_map d with
            | Some v => VFloat v
            | None => VNone
            end
  /\ (d !! "rank"%string = None -> rk = 1%Z)
  /\ (forall raw, d !! "rank"%string = Some raw ->
        rk = match py_float float_of_string raw ≫= int_of_float with
             | Some i => i
             | None => 1%Z
             end).
Proof.
  cbv zeta. split; [reflexivity|]. split; [|split; [|split; [|split; [|split]]]].
  - intros cand v. unfold lookup_candidate.
    set (base_id := fst (_normalize_id_and_ev (py_str repr cand))).
    destruct (truthy cand); cbn [negb].
    + destruct (String.eqb base_id "") eqn:E.
      * apply String.eqb_eq in E. split; [discriminate|].
        intros (_ & H & _). contradiction.
      * apply String.eqb_neq in E. split.
        -- intros H. split; [reflexivity|]. split; assumption.
        -- intros (_ & _ & H). exact H.
    + split; [discriminate|]. intros (H & _). discriminate.
  - intros v. apply first_some_match.
  - apply first_some_none.
  - unfold join_confidence. apply lookup_insert_eq.
  - intros H. unfold sample_rank. rewrite H. vm_compute. reflexivity.
  - intros raw H. unfold sample_rank. rewrite H. cbn [from_option Datatypes.id].
    destruct (py_float float_of_string raw) as [x|]; [|reflexivity].
    cbn [mbind option_bind]. now destruct (int_of_float x).
Qed.

End JoinerClaims.

Lemma join_first_hit_witness :
  sample_rank (fun _ => None) (artist_sample (VFloat 2.5%float)) = 2%Z
  /\ find_confidence (fun _ => None) (fun _ => ""%string) artist_table
       (artist_sample (VFloat 2.5%float)) = Some 0.75%float
  /\ find_confidence (fun _ => None) (fun _ => ""%string) artist_table
       (artist_sample VNone) = None.
Proof.
  split; [vm_compute; reflexivity|]. split.
  - apply (proj1 (proj2 (proj2 (join_first_hit (fun _ => None)
             (fun _ => ""%string) artist_table
             (artist_sample (VFloat 2.5%float)))))).
    exists (VStr "R2: Artist_Name_ev-25_points.json").
    exists [VStr ""; VStr ""], [VStr ""; VStr "other"].
    split; [vm_compute; reflexivity|].
    split; [vm_compute; reflexivity|].
    repeat constructor.
  - apply (proj1 (proj2 (proj2 (proj2 (join_first_hit (fun _ => None)
             (fun _ => ""%string) artist_table (artist_sample VNone)))))).
    unfold no_match.
    assert (candidates (artist_sample VNone)
            = [VStr ""; VStr ""; VStr "R2: Artist_Name_ev-25_points.json";
               VStr ""; VStr "other"]) as -> by (vm_compute; reflexivity).
    repeat (constructor; [vm_compute; reflexivity|]). constructor.
Defined.

(* ------------------------------------------------------------------ *)
(** * The direction loop and the end of [main]                        *)
(* ------------------------------------------------------------------ *)

Section MainClaims.

Variable float_of_string : string -> option float.
Variable repr : pyval -> string.


(** C9, amended.  [main] ends without staging assets or writing
    [index.html] when the pickle file is missing and when the unpickled
    object is not a list whose first element is a dict; and, on a list
    of dicts, exactly when no sample is left by the direction loop
    (extraction failed, or normalisation is on and failed), in which
    case it reports the zero-point error.  Otherwise the page is written
    from the samples left, in order. *)
Theorem main_halts (r : run) :
  (pickle r = None -> main float_of_string repr r = PickleNotFound)
  /\ (forall all_data,
         pickle r = Some all_data -> is_list_of_dict all_data = None ->
         main float_of_string repr r = NotListOfDict)
  /\ (forall l,
         pickle r = Some (VList l) ->
         Forall (fun v => is_dict v = true) l ->
         let records :=
           match table r with
           | Some conf_map => map (join_value float_of_string repr conf_map) l
           | None => l
           end in
         let used := omap (survivor float_of_string (no_normalize r)) records in
         let skipped := (List.length l - List.length used)%nat in
         main float_of_string repr r
         = match used with
           | [] => NoPoints skipped
           | _ :: _ => Finished used skipped
           end).
Proof.
  unfold main. repeat split.
  - now intros ->.
  - intros all_data -> H. now rewrite H.
  - intros l -> Hl. cbv zeta. rewrite (is_list_of_dict_list l Hl).
    set (records := match table r with
                    | Some conf_map =>
                        map (join_value float_of_string repr conf_map) l
                    | None => l
                    end).
    assert (match table r with
            | Some conf_map => join_pass float_of_string repr conf_map l
            | None => Some l
            end = Some records
            /\ Forall (fun v => is_dict v = true) records
            /\ List.length records = List.length l) as (-> & Hrec & Hlen).
    { unfold records. destruct (table r) as [conf_map|].
      - split; [now apply join_pass_dicts|].
        split; [now apply join_value_dict | apply length_map].
      - repeat split; trivial. }
    cbn [mbind option_bind].
    destruct (direction_pass_dicts float_of_string (no_normalize r) records Hrec)
      as [-> _].
    rewrite Hlen. now destruct (omap _ records).
Qed.

End MainClaims.


(** C9, as stated, fails: a run also ends without output when the
    pickle file is missing, and when the unpickled list starts with
    something that is not a dict, even if a later record has a
    direction. *)
Lemma other_fatal_conditions :
  let missing := {| pickle := None; table := None; no_normalize := false |} in
  let mixed :=
    {| pickle := Some (VList [VInt 0; VDict flat_and_vector]);
       table := None; no_normalize := false |} in
  main (fun _ => None) (fun _ => ""%string) missing = PickleNotFound
  /\ writes_output (main (fun _ => None) (fun _ => ""%string) missing) = false
  /\ main (fun _ => None) (fun _ => ""%string) mixed = NotListOfDict
  /\ writes_output (main (fun _ => None) (fun _ => ""%string) mixed) = false
  /\ extract_direction_components (fun _ => None) flat_and_vector
     = (Some (0.6, 0, 0.8)%float, "dir_x,dir_y,dir_z"%string).
Proof.
  cbv zeta. do 4 (split; [reflexivity|]). vm_compute. reflexivity.
Qed.

Lemma main_halts_witness :
  let all_zero :=
    {| pickle := Some (VList [VDict zero_direction]);
       table := None; no_normalize := false |} in
  let passthrough :=
    {| pickle := Some (VList [VDict zero_direction; VDict ∅]);
       table := Some artist_table; no_normalize := true |} in
  main (fun _ => None) (fun _ => ""%string) all_zero = NoPoints 1
  /\ exists kept,
       main (fun _ => None) (fun _ => ""%string) passthrough
       = Finished [kept] 1.
Proof.
  cbv zeta. split.
  - refine (proj2 (proj2 (main_halts (fun _ => None) (fun _ => ""%string)
       {| pickle := Some (VList [VDict zero_direction]);
          table := None; no_normalize := false |})) _ eq_refl _).
    repeat constructor.
  - eexists.
    refine (proj2 (proj2 (main_halts (fun _ => None) (fun _ => ""%string)
       {| pickle := Some (VList [VDict zero_direction; VDict ∅]);
          table := Some artist_table; no_normalize := true |})) _ eq_refl _).
    repeat constructor.
Defined.

(* ------------------------------------------------------------------ *)
(** ** Facts about [safe_filename]                                    *)
(* ------------------------------------------------------------------ *)

Lemma drop_while_length (p : ascii -> bool) (s : chars) :
  (List.length (drop_while p s) <= List.length s)%nat.
Proof.
  induction s as [|c r IH]; simpl; [lia|].
  destruct (p c); simpl; lia.
Qed.

Lemma drop_while_Forall (P : ascii -> Prop) (p : ascii -> bool) (s : chars) :
  Forall P s -> Forall P (drop_while p s).
Proof.
  intros H. destruct (drop_while_suffix p s) as [w E].
  rewrite E in H. now apply Forall_app in H as [_ H].
Qed.

Section SubRuns.

Variable p : ascii -> bool.
Variable repl : chars.

(** One round of [re.sub] for the pattern [p+]. *)
Lemma sub_all_from_run (f : nat) (c : ascii) (s : chars) :
  sub_all_from (S f) (Re.Plus p) repl (c :: s) =
  if p c then repl ++ sub_all_from f (Re.Plus p) repl (drop_while p s)
  else c :: sub_all_from f (Re.Plus p) repl s.
Proof.
  cbn [sub_all_from Re.rmatch]. destruct (p c); [|reflexivity].
  now rewrite star_match_total.
Qed.

(** With enough rounds nothing of the class is left, apart from what
    the replacement brings. *)
Lemma sub_all_from_Forall (P : ascii -> Prop) (f : nat) (s : chars) :
  (List.length s <= f)%nat ->
  Forall P repl ->
  Forall (fun c => p c = false -> P c) s ->
  Forall P (sub_all_from f (Re.Plus p) repl s).
Proof.
  intros Hlen Hrepl. revert s Hlen.
  induction f as [|f IH]; intros s Hlen Hs.
  - destruct s; [constructor | simpl in Hlen; lia].
  - destruct s as [|c s]; [constructor|].
    rewrite sub_all_from_run. simpl in Hlen.
    pose proof (Forall_inv Hs) as Hc. pose proof (Forall_inv_tail Hs) as Ht.
    destruct (p c) eqn:E.
    + apply Forall_app. split; [exact Hrepl|]. apply IH.
      * pose proof (drop_while_length p s). lia.
      * now apply drop_while_Forall.
    + constructor; [now apply Hc|]. apply IH; [lia | exact Ht].
Qed.

(** A text without a character of the class is left as it is. *)
Lemma sub_all_from_id (f : nat) (s : chars) :
  Forall (fun c => p c = false) s ->
  sub_all_from f (Re.Plus p) repl s = s.
Proof.
  revert s. induction f as [|f IH]; intros s Hs; [reflexivity|].
  destruct s as [|c s]; [reflexivity|].
  rewrite sub_all_from_run, (Forall_inv Hs).
  f_equal. apply IH. exact (Forall_inv_tail Hs).
Qed.

End SubRuns.

Lemma sub_unsafe_safe (s : chars) :
  all_safe (sub_all UNSAFE_RUN (ch "_") s).
Proof.
  unfold sub_all, UNSAFE_RUN. apply sub_all_from_Forall.
  - reflexivity.
  - repeat constructor.
  - apply Forall_forall. intros c _ H. now apply negb_false_iff in H.
Qed.

Lemma sub_unsafe_id (s : chars) :
  all_safe s -> sub_all UNSAFE_RUN (ch "_") s = s.
Proof.
  intros H. unfold sub_all, UNSAFE_RUN. apply sub_all_from_id.
  eapply Forall_impl; [exact H|]. simpl. intros c Hc. now rewrite Hc.
Qed.

Lemma safe_filename_chars_safe (name : chars) :
  safe_name (safe_filename_chars name).
Proof.
  unfold safe_filename_chars.
  pose proof (strip_by_Forall _ (Ascii.eqb "_") _ (sub_unsafe_safe name)) as Hs.
  pose proof (strip_by_no_lead (Ascii.eqb "_")
                (sub_all UNSAFE_RUN (ch "_") name)) as Hl.
  pose proof (strip_by_no_trail (Ascii.eqb "_")
                (sub_all UNSAFE_RUN (ch "_") name)) as Ht.
  unfold strip_char.
  destruct (strip_by (Ascii.eqb "_") (sub_all UNSAFE_RUN (ch "_") name))
    as [|c r].
  - split; [discriminate | repeat constructor | reflexivity | reflexivity].
  - split; [discriminate | exact Hs | exact Hl | exact Ht].
Qed.

Lemma safe_filename_chars_id (s : chars) :
  safe_name s -> safe_filename_chars s = s.
Proof.
  intros [Hne Hs Hl Ht]. unfold safe_filename_chars, strip_char.
  rewrite (sub_unsafe_id s Hs), (strip_by_id _ s Hl Ht).
  destruct s; [contradiction | reflexivity].
Qed.

(* ------------------------------------------------------------------ *)
(** ** Facts about paths and the final segment                        *)
(* ------------------------------------------------------------------ *)

Lemma ch_app (s t : string) : ch (s ++ t) = ch s ++ ch t.
Proof.
  unfold ch. induction s as [|c s IH]; simpl; [reflexivity | now f_equal].
Qed.

Lemma ch_inj (s t : string) : ch s = ch t -> s = t.
Proof.
  unfold ch. intros H.
  rewrite <- (string_of_list_ascii_of_string s),
          <- (string_of_list_ascii_of_string t).
  now rewrite H.
Qed.

Section StopAt.

Variable p : ascii -> bool.

Lemma drop_while_stop (d : chars) (c : ascii) (r : chars) :
  p c = false ->
  drop_while p (d ++ c :: r) = drop_while p d ++ c :: r.
Proof.
  intros Hc. induction d as [|x d IH]; cbn [app drop_while].
  - now rewrite Hc.
  - now destruct (p x).
Qed.

Lemma take_while_stop (a : chars) (c : ascii) (r : chars) :
  Forall (fun x => p x = true) a -> p c = false ->
  take_while p (a ++ c :: r) = a.
Proof.
  intros Ha Hc. induction Ha as [|x a Hx _ IH]; cbn [app take_while].
  - now rewrite Hc.
  - now rewrite Hx, IH.
Qed.

End StopAt.

Lemma not_slash_space : is_space "/" = false.
Proof. reflexivity. Qed.

Lemma basename_after_slash (d n : chars) :
  avoids "/" n -> basename (d ++ "/"%char :: n) = n.
Proof.
  intros Hn. unfold basename.
  rewrite rev_app_distr. cbn [rev]. rewrite <- app_assoc. cbn [app].
  rewrite take_while_stop.
  - apply rev_involutive.
  - apply Forall_rev. eapply Forall_impl; [exact Hn|].
    simpl. intros c Hc. now rewrite Hc.
  - reflexivity.
Qed.

Lemma rstrip_by_avoids (P : ascii -> Prop) (p : ascii -> bool) (s : chars) :
  Forall P s -> Forall P (rstrip_by p s).
Proof.
  intros H. destruct (rstrip_by_prefix p s) as [w E].
  rewrite E in H. now apply Forall_app in H as [H _].
Qed.

(** The final segment of [dir/name] after [strip] and [basename]. *)
Lemma last_segment_of_path (d n : chars) :
  avoids "/" n -> no_lead is_space n ->
  basename (strip (d ++ "/"%char :: n)) = basename (strip n).
Proof.
  intros Hn Hlead. unfold strip, strip_by, lstrip_by.
  rewrite (drop_while_stop is_space d "/" n not_slash_space).
  rewrite (drop_while_id is_space n Hlead).
  assert (forall x, rstrip_by is_space (x ++ "/"%char :: n)
                    = x ++ "/"%char :: rstrip_by is_space n) as ->.
  { intros x. unfold rstrip_by. rewrite rev_app_distr. cbn [rev].
    rewrite <- app_assoc. cbn [app].
    rewrite (drop_while_stop is_space (rev n) "/" (rev x) not_slash_space).
    rewrite rev_app_distr. cbn [rev]. rewrite rev_involutive.
    now rewrite <- app_assoc. }
  rewrite basename_after_slash, basename_id; trivial;
    now apply rstrip_by_avoids.
Qed.

(* ------------------------------------------------------------------ *)
(** ** Facts about [build_basename_index]                             *)
(* ------------------------------------------------------------------ *)

Lemma index_pairs_lookup (l : list (string * string)) :
  forall (idx : gmap string string) (k : string),
    index_pairs idx l !! k =
    match idx !! k with
    | Some v => Some v
    | None => assoc_first k l
    end.
Proof.
  induction l as [|[k' v] rest IH]; intros idx k; cbn [index_pairs foldl assoc_first].
  - now destruct (idx !! k).
  - fold (index_pairs (match idx !! k' with
                       | Some _ => idx
                       | None => <[ k' := v ]> idx
                       end) rest).
    rewrite IH. cbn [fst snd].
    destruct (String.eqb k' k) eqn:E.
    + apply String.eqb_eq in E. subst k'.
      destruct (idx !! k) eqn:Hk; [now rewrite Hk|].
      now rewrite lookup_insert_eq.
    + apply String.eqb_neq in E.
      destruct (idx !! k') eqn:Hk'; [reflexivity|].
      now rewrite lookup_insert_ne.
Qed.

Lemma index_pairs_app (l1 l2 : list (string * string)) (idx : gmap string string) :
  index_pairs idx (l1 ++ l2) = index_pairs (index_pairs idx l1) l2.
Proof. unfold index_pairs. apply foldl_app. Qed.

Lemma index_entry_pairs (idx : gmap string string) (r : string)
      (ds files : list string) :
  index_entry idx (r, ds, files)
  = index_pairs idx (map (fun fn => (fn, path_join r fn)) files).
Proof.
  unfold index_entry, index_pairs. revert idx.
  induction files as [|fn rest IH]; intros idx; [reflexivity|].
  cbn [foldl map]. rewrite IH. reflexivity.
Qed.

Lemma build_index_pairs (w : walk) :
  forall idx, foldl index_entry idx w = index_pairs idx (walk_files w).
Proof.
  induction w as [|[[r ds] files] rest IH]; intros idx; [reflexivity|].
  cbn [foldl walk_files flat_map]. rewrite IH, index_pairs_app.
  now rewrite index_entry_pairs.
Qed.

Lemma build_index_lookup (w : walk) (fn : string) :
  build_basename_index w !! fn = assoc_first fn (walk_files w).
Proof.
  unfold build_basename_index.
  now rewrite build_index_pairs, index_pairs_lookup, lookup_empty.
Qed.

Lemma assoc_first_app (k : string) (l1 l2 : list (string * string)) :
  assoc_first k (l1 ++ l2) =
  match assoc_first k l1 with
  | Some v => Some v
  | None => assoc_first k l2
  end.
Proof.
  induction l1 as [|[k' v] rest IH]; [reflexivity|].
  cbn [app assoc_first]. now destruct (String.eqb k' k).
Qed.

Lemma assoc_first_files (k r : string) (files : list string) :
  assoc_first k (map (fun fn => (fn, path_join r fn)) files)
  = if bool_decide (k ∈ files) then Some (path_join r k) else None.
Proof.
  induction files as [|fn rest IH]; [reflexivity|].
  cbn [map assoc_first]. destruct (String.eqb fn k) eqn:E.
  - apply String.eqb_eq in E. subst fn.
    rewrite bool_decide_eq_true_2; [reflexivity | constructor].
  - apply String.eqb_neq in E. rewrite IH.
    destruct (bool_decide (k ∈ rest)) eqn:B.
    + apply bool_decide_eq_true in B.
      rewrite bool_decide_eq_true_2; [reflexivity | now constructor].
    + apply bool_decide_eq_false in B.
      rewrite bool_decide_eq_false_2; [reflexivity|].
      intros H. apply elem_of_cons in H as [H | H]; [congruence | contradiction].
Qed.

Lemma assoc_first_none (k : string) (w : walk) :
  Forall (fun entry : string * list string * list string => k ∉ entry.2) w ->
  assoc_first k (walk_files w) = None.
Proof.
  induction 1 as [|[[r ds] files] rest Hk _ IH]; [reflexivity|].
  cbn [walk_files flat_map]. fold (walk_files rest).
  rewrite assoc_first_app, assoc_first_files, IH.
  cbn [snd] in Hk. now rewrite bool_decide_eq_false_2.
Qed.

Lemma assoc_first_some (k v : string) (l : list (string * string)) :
  assoc_first k l = Some v -> (k, v) ∈ l.
Proof.
  induction l as [|[k' v'] rest IH]; [discriminate|].
  cbn [assoc_first]. destruct (String.eqb k' k) eqn:E.
  - apply String.eqb_eq in E. intros [= ->]. subst. constructor.
  - intros H. constructor. now apply IH.
Qed.

Lemma walk_files_elem (k v : string) (w : walk) :
  (k, v) ∈ walk_files w ->
  exists r ds files, (r, ds, files) ∈ w /\ k ∈ files /\ v = path_join r k.
Proof.
  unfold walk_files. intros H. apply list_elem_of_In, in_flat_map in H
    as ([[r ds] files] & Hin & H).
  apply in_map_iff in H as (fn & [= <- <-] & Hfn).
  exists r, ds, files. repeat split.
  - now apply list_elem_of_In.
  - now apply list_elem_of_In.
Qed.

(** The final segment of a joined path is the name that was joined. *)
Lemma basename_path_join (a b : chars) :
  avoids "/" b -> basename (path_join_chars a b) = b.
Proof.
  intros Hb. unfold path_join_chars.
  destruct (startswith b (ch "/")) eqn:S.
  - apply startswith_spec in S as [t ->]. apply Forall_inv in Hb. discriminate.
  - destruct (bool_decide (a = [])) eqn:B; cbn [orb].
    + apply bool_decide_eq_true in B. subst a. now apply basename_id.
    + destruct (endswith a (ch "/")) eqn:E.
      * unfold endswith in E. apply startswith_spec in E as [t Ht].
        cbn in Ht. apply (f_equal (@rev ascii)) in Ht.
        rewrite rev_involutive in Ht. cbn [rev] in Ht. subst a.
        rewrite <- app_assoc. cbn [app]. now apply basename_after_slash.
      * cbn [ch list_ascii_of_string app]. now apply basename_after_slash.
Qed.

(* ------------------------------------------------------------------ *)
(** ** Facts about the loader of the quality report                   *)
(* ------------------------------------------------------------------ *)

Lemma apply_fates_stats (fates : list row_fate) :
  forall acc : conf_table * load_stats,
    total_rows (foldl apply_fate acc fates).2
    = (total_rows acc.2 + List.length fates)%nat.
Proof.
  induction fates as [|f rest IH]; intros [m st]; cbn [foldl List.length].
  - cbn. lia.
  - rewrite IH. destruct f; unfold total_rows; cbn; lia.
Qed.

Lemma apply_fates_lookup (fates : list row_fate) :
  forall (acc : conf_table * load_stats) (key : string * Z),
    (foldl apply_fate acc fates).1 !! key =
    match last_kept key fates with
    | Some c => Some c
    | None => acc.1 !! key
    end.
Proof.
  induction fates as [|f rest IH]; intros [m st] key;
    cbn [foldl last_kept]; [reflexivity|].
  rewrite IH. destruct (last_kept key rest); [reflexivity|].
  destruct f as [| | k c]; cbn [apply_fate fst]; try reflexivity.
  destruct (bool_decide (k = key)) eqn:E.
  - apply bool_decide_eq_true in E. subst k. apply lookup_insert_eq.
  - apply bool_decide_eq_false in E. now apply lookup_insert_ne.
Qed.

Lemma last_kept_elem (key : string * Z) (c : float) (fates : list row_fate) :
  last_kept key fates = Some c -> Kept key c ∈ fates.
Proof.
  induction fates as [|f rest IH]; [discriminate|]. cbn [last_kept].
  destruct (last_kept key rest) as [c'|].
  - intros [= ->]. constructor. now apply IH.
  - destruct f as [| | k c']; try discriminate.
    destruct (bool_decide (k = key)) eqn:E; [|discriminate].
    apply bool_decide_eq_true in E. subst k. intros [= ->]. constructor.
Qed.

Lemma last_kept_app (key : string * Z) (l1 l2 : list row_fate) :
  last_kept key (l1 ++ l2) =
  match last_kept key l2 with
  | Some c => Some c
  | None => last_kept key l1
  end.
Proof.
  induction l1 as [|f rest IH]; cbn [app last_kept].
  - now destruct (last_kept key l2).
  - rewrite IH. now destruct (last_kept key l2).
Qed.

Lemma last_kept_none (key : string * Z) (fates : list row_fate) :
  Forall (fun f => forall c, f <> Kept key c) fates ->
  last_kept key fates = None.
Proof.
  induction 1 as [|f rest Hf _ IH]; [reflexivity|].
  cbn [last_kept]. rewrite IH. destruct f as [| | k c]; try reflexivity.
  destruct (bool_decide (k = key)) eqn:E; [|reflexivity].
  apply bool_decide_eq_true in E. subst k. now destruct (Hf c).
Qed.

Section LoaderFacts.

Variable float_of_string : string -> option float.
Variable repr : pyval -> string.
Variable desired_ev : string.
Variables E_good E_bad : float.

Let fate := row_fate_of float_of_string repr desired_ev E_good E_bad.
Let load := load_rows float_of_string repr desired_ev E_good E_bad.

(** The loop, as a fold over the fates of the rows. *)
Lemma load_rows_fates (rows : list sample) :
  forall acc,
    load rows acc = (fates ← mapM fate rows; Some (foldl apply_fate acc fates)).
Proof.
  induction rows as [|row rest IH]; intros acc; [reflexivity|].
  subst load fate. cbn [load_rows mapM]. cbn [mbind option_bind mret option_ret].
  destruct (row_fate_of _ _ _ _ _ row) as [f|]; [|reflexivity].
  cbn [mbind option_bind]. rewrite IH.
  destruct (mapM _ rest) as [fates|]; reflexivity.
Qed.

Lemma load_rows_inv (rows : list sample) (acc res : conf_table * load_stats) :
  load rows acc = Some res ->
  exists fates,
    Forall2 (fun row f => fate row = Some f) rows fates
    /\ res = foldl apply_fate acc fates.
Proof.
  rewrite load_rows_fates. destruct (mapM fate rows) as [fates|] eqn:E;
    [|discriminate].
  cbn [mbind option_bind]. intros [= <-]. exists fates. split; [|reflexivity].
  now apply mapM_Some_1.
Qed.

(** A row that is kept carries a score. *)
Lemma kept_unit_score (row : sample) (key : string * Z) (c : float) :
  fate row = Some (Kept key c) -> unit_score c.
Proof.
  subst fate. unfold row_fate_of.
  destruct (row_rank _ row); [|discriminate].
  destruct (row_id repr row) as [b ev].
  destruct (wrong_ev desired_ev ev); [discriminate|].
  destruct (confidence_from_row _ row E_good E_bad) as [conf|] eqn:E;
    [|discriminate].
  cbn [mbind option_bind]. intros [= _ <-].
  unfold confidence_from_row in E.
  exact (confidence_score_float_bounds _ _ _ _ _ E).
Qed.

Lemma kept_row_facts (row : sample) (key : string * Z) (c : float) :
  fate row = Some (Kept key c) ->
  row_rank float_of_string row = Some key.2
  /\ (row_id repr row).1 = key.1
  /\ wrong_ev desired_ev (row_id repr row).2 = false
  /\ confidence_from_row float_of_string row E_good E_bad = Some c.
Proof.
  subst fate. unfold row_fate_of.
  destruct (row_rank _ row) as [rk|]; [|discriminate].
  destruct (row_id repr row) as [b ev].
  destruct (wrong_ev desired_ev ev) eqn:W; [discriminate|].
  destruct (confidence_from_row _ row E_good E_bad) as [conf|];
    [|discriminate].
  cbn [mbind option_bind]. now intros [= <- <-].
Qed.

End LoaderFacts.

Lemma wrong_ev_false (desired_ev ev : string) :
  wrong_ev desired_ev ev = false -> desired_ev = ""%string \/ ev = desired_ev.
Proof.
  unfold wrong_ev. rewrite andb_false_iff, !negb_false_iff, !String.eqb_eq. tauto.
Qed.

(** Every entry of a table the loader returns is a score. *)
Lemma loaded_table_unit_scores
      (float_of_string : string -> option float) (repr : pyval -> string)
      (csv_path : string) (report : option (list sample))
      (desired_ev : string) (E_good E_bad : float) (conf_map : conf_table) :
  load_confidence_map_by_id_and_rank float_of_string repr csv_path report
    desired_ev E_good E_bad = Some conf_map ->
  forall key v, conf_map !! key = Some v -> unit_score v.
Proof.
  unfold load_confidence_map_by_id_and_rank.
  destruct (String.eqb csv_path ""); [intros [= <-] key v H; now rewrite lookup_empty in H|].
  destruct report as [rows|]; [|intros [= <-] key v H; now rewrite lookup_empty in H].
  destruct (load_rows _ _ _ _ _ rows _) as [[m st]|] eqn:E; [|discriminate].
  cbn [fmap option_fmap option_map fst]. intros [= <-] key v H.
  apply load_rows_inv in E as (fates & HF & E).
  apply (f_equal fst) in E. cbn [fst] in E. subst m.
  rewrite apply_fates_lookup in H. cbn [fst] in H. rewrite lookup_empty in H.
  destruct (last_kept key fates) as [c|] eqn:L; [|discriminate].
  injection H as <-. apply last_kept_elem in L.
  apply list_elem_of_lookup in L as [i Hi].
  destruct (Forall2_lookup_r _ _ _ _ _ HF Hi) as (row & _ & Hrow).
  exact (kept_unit_score _ _ _ _ _ row key c Hrow).
Qed.

(* ------------------------------------------------------------------ *)
(** ** How the join and the direction loop compose                    *)
(* ------------------------------------------------------------------ *)

Lemma first_some_ext {A B} (f g : A -> option B) (l : list A) :
  Forall (fun c => f c = g c) l -> first_some f l = first_some g l.
Proof.
  induction 1 as [|c rest Hc _ IH]; [reflexivity|].
  cbn [first_some]. now rewrite Hc, IH.
Qed.

Section Composition.

Variable float_of_string : string -> option float.
Variable repr : pyval -> string.

(** The direction keys are not touched by the join: extraction reads
    the same values before and after it. *)
Lemma extract_after_confidence (d : sample) (v : pyval) :
  extract_direction_components float_of_string (<[ "confidence"%string := v ]> d)
  = extract_direction_components float_of_string d.
Proof.
  unfold extract_direction_components.
  assert (first_some (try_flat float_of_string (<[ "confidence"%string := v ]> d))
            DIR_KEY_CANDIDATES
          = first_some (try_flat float_of_string d) DIR_KEY_CANDIDATES) as ->.
  { apply first_some_ext. unfold DIR_KEY_CANDIDATES, try_flat.
    repeat (constructor; [now rewrite !lookup_insert_ne by discriminate|]).
    constructor. }
  assert (first_some (try_single float_of_string (<[ "confidence"%string := v ]> d))
            SINGLE_VEC_CANDIDATES
          = first_some (try_single float_of_string d) SINGLE_VEC_CANDIDATES) as ->.
  { apply first_some_ext. unfold SINGLE_VEC_CANDIDATES, try_single.
    repeat (constructor; [now rewrite !lookup_insert_ne by discriminate|]).
    constructor. }
  assert (first_some (try_nested float_of_string (<[ "confidence"%string := v ]> d))
            NESTED_ROOTS
          = first_some (try_nested float_of_string d) NESTED_ROOTS) as ->.
  { apply first_some_ext. unfold NESTED_ROOTS, try_nested.
    repeat (constructor; [now rewrite !lookup_insert_ne by discriminate|]).
    constructor. }
  reflexivity.
Qed.

Lemma store_after_confidence (d : sample) (v : pyval)
      (ux uy uz nraw : float) (src : string) :
  store_direction (<[ "confidence"%string := v ]> d) ux uy uz nraw src
  = <[ "confidence"%string := v ]> (store_direction d ux uy uz nraw src).
Proof.
  unfold store_direction.
  rewrite (insert_insert_ne (M := gmap string) d "x"%string "confidence"%string)
    by discriminate.
  rewrite (insert_insert_ne (M := gmap string) _ "y"%string "confidence"%string)
    by discriminate.
  rewrite (insert_insert_ne (M := gmap string) _ "z"%string "confidence"%string)
    by discriminate.
  rewrite (insert_insert_ne (M := gmap string) _ "dir_norm_raw"%string
             "confidence"%string) by discriminate.
  rewrite (insert_insert_ne (M := gmap string) _ "dir_src_keys"%string
             "confidence"%string) by discriminate.
  reflexivity.
Qed.

Lemma direction_step_after_confidence (no_normalize : bool) (d : sample)
      (v : pyval) :
  direction_step float_of_string no_normalize (<[ "confidence"%string := v ]> d)
  = option_map (option_map (fun m : sample => <[ "confidence"%string := v ]> m))
      (direction_step float_of_string no_normalize d).
Proof.
  rewrite !direction_step_spec, extract_after_confidence.
  destruct (extract_direction_components float_of_string d)
    as [[[[x y] z]|] src]; [|reflexivity].
  cbv zeta. cbn [option_map].
  destruct no_normalize.
  - now rewrite store_after_confidence.
  - destruct (negb (isfinite _) || PrimFloat.ltb _ EPS); [reflexivity|].
    now rewrite store_after_confidence.
Qed.



End Composition.

(* ------------------------------------------------------------------ *)
(** ** Facts about the script of the page                             *)
(* ------------------------------------------------------------------ *)

Lemma replace_all_avoids (x c : ascii) (repl s : chars) :
  avoids x repl ->
  Ascii.eqb c x = true \/ avoids x s ->
  avoids x (replace_all_char c repl s).
Proof.
  intros Hrepl Hs. unfold replace_all_char, avoids.
  apply Forall_flat_map. apply Forall_forall. intros y Hy.
  destruct (Ascii.eqb y c) eqn:E; [exact Hrepl|].
  constructor; [|constructor].
  destruct Hs as [Hc | Hs].
  - apply Ascii.eqb_eq in Hc. now subst x.
  - unfold avoids in Hs. rewrite Forall_forall in Hs. now apply Hs.
Qed.

Lemma replace_all_id (c : ascii) (repl s : chars) :
  avoids c s -> replace_all_char c repl s = s.
Proof.
  unfold replace_all_char. induction 1 as [|y r Hy _ IH]; [reflexivity|].
  cbn [flat_map]. now rewrite Hy, IH.
Qed.

Lemma flat_map_flat_map {A B C} (f : A -> list B) (g : B -> list C) (l : list A) :
  flat_map g (flat_map f l) = flat_map (fun x => flat_map g (f x)) l.
Proof.
  induction l as [|x l IH]; [reflexivity|].
  cbn [flat_map]. now rewrite flat_map_app, IH.
Qed.

(** The five passes amount to one pass, character by character. *)
Lemma escapeHtml_one_pass (s : chars) :
  escapeHtml s = flat_map escape_char s.
Proof.
  unfold escapeHtml, replace_all_char. rewrite !flat_map_flat_map.
  apply flat_map_ext. intros x. unfold escape_char.
  destruct (Ascii.eqb x "&") eqn:E1.
  { apply Ascii.eqb_eq in E1. now subst x. }
  destruct (Ascii.eqb x "<") eqn:E2.
  { apply Ascii.eqb_eq in E2. now subst x. }
  destruct (Ascii.eqb x ">") eqn:E3.
  { apply Ascii.eqb_eq in E3. now subst x. }
  destruct (Ascii.eqb x dquote) eqn:E4.
  { apply Ascii.eqb_eq in E4. now subst x. }
  destruct (Ascii.eqb x "'") eqn:E5.
  { apply Ascii.eqb_eq in E5. now subst x. }
  cbn [flat_map app]. rewrite E2. cbn [flat_map app]. rewrite E3.
  cbn [flat_map app]. rewrite E4. cbn [flat_map app]. now rewrite E5.
Qed.

Lemma escape_char_split (x y : ascii) (s t : chars) :
  escape_char x ++ s = escape_char y ++ t -> x = y /\ s = t.
Proof.
  unfold escape_char.
  destruct (Ascii.eqb x "&") eqn:X1;
    [|destruct (Ascii.eqb x "<") eqn:X2;
      [|destruct (Ascii.eqb x ">") eqn:X3;
        [|destruct (Ascii.eqb x dquote) eqn:X4;
          [|destruct (Ascii.eqb x "'") eqn:X5]]]];
  (destruct (Ascii.eqb y "&") eqn:Y1;
    [|destruct (Ascii.eqb y "<") eqn:Y2;
      [|destruct (Ascii.eqb y ">") eqn:Y3;
        [|destruct (Ascii.eqb y dquote) eqn:Y4;
          [|destruct (Ascii.eqb y "'") eqn:Y5]]]]);
  repeat match goal with
         | H : Ascii.eqb _ _ = true |- _ => apply Ascii.eqb_eq in H; subst
         end;
  cbn [ch list_ascii_of_string app]; intros H;
  first [ discriminate H
        | injection H; intros; subst;
          first [ split; reflexivity | exfalso; cbn in *; discriminate ] ].
Qed.

Lemma escape_char_nonempty (x : ascii) : escape_char x <> [].
Proof.
  unfold escape_char.
  repeat match goal with
         | |- context [if ?b then _ else _] => destruct b
         end; discriminate.
Qed.

Lemma to_uint32_range (z : Z) : (0 <= to_uint32 z < 2 ^ 32)%Z.
Proof. unfold to_uint32. apply Z.mod_pos_bound. reflexivity. Qed.

Lemma js_index_muted (i : Z) :
  (0 <= i < 10)%Z -> exists color, js_index MUTED i = Some color /\ color ∈ MUTED.
Proof.
  intros [Hlo Hhi]. unfold js_index.
  destruct (i <? 0)%Z eqn:E; [apply Z.ltb_lt in E; lia|].
  destruct (lookup_lt_is_Some_2 MUTED (Z.to_nat i)) as [color Hc].
  { cbn. lia. }
  exists color. split; [exact Hc|]. now apply list_elem_of_lookup_2 in Hc.
Qed.

(* ------------------------------------------------------------------ *)
(** ** Facts about [safeFilename] and the files the page asks for     *)
(* ------------------------------------------------------------------ *)

Section EdgeRuns.

Variable p : ascii -> bool.

Lemma star_match_at_end (s : chars) :
  Re.star_match p s at_end = if forallb p s then Some [] else None.
Proof.
  induction s as [|c r IH]; simpl; [reflexivity|].
  destruct (p c); [|reflexivity]. rewrite IH.
  now destruct (forallb p r).
Qed.

Lemma drop_while_snoc (l : chars) (c : ascii) :
  drop_while p (l ++ [c]) =
  if forallb p l then (if p c then [] else [c]) else drop_while p l ++ [c].
Proof.
  induction l as [|a l IH]; simpl; [reflexivity|].
  destruct (p a); [exact IH | reflexivity].
Qed.

Lemma forallb_rev (l : chars) : forallb p (rev l) = forallb p l.
Proof.
  induction l as [|a l IH]; simpl; [reflexivity|].
  rewrite forallb_app, IH. simpl. now rewrite andb_true_r, andb_comm.
Qed.

Lemma drop_while_all (l : chars) : forallb p l = true -> drop_while p l = [].
Proof.
  induction l as [|a l IH]; simpl; [reflexivity|].
  destruct (p a); [exact IH | discriminate].
Qed.

(** [rstrip] read from the left: a text is kept up to the point where
    only characters of the class are left. *)
Lemma rstrip_by_cons (c : ascii) (s : chars) :
  rstrip_by p (c :: s) =
  if forallb p (c :: s) then [] else c :: rstrip_by p s.
Proof.
  unfold rstrip_by. cbn [rev forallb].
  rewrite drop_while_snoc, forallb_rev.
  destruct (forallb p s) eqn:A.
  - rewrite andb_true_r. destruct (p c); [reflexivity|].
    rewrite drop_while_all by now rewrite forallb_rev. reflexivity.
  - rewrite andb_false_r, rev_app_distr. reflexivity.
Qed.

End EdgeRuns.

Lemma trim_edges_from_nil (f : nat) (b : bool) : trim_edges_from f b [] = [].
Proof. now destruct f. Qed.

Lemma edge_match_inner (c : ascii) (s : chars) :
  edge_match false (c :: s) =
  if forallb (Ascii.eqb "_") (c :: s) then Some [] else None.
Proof.
  unfold edge_match, UNDERSCORES. cbn [Re.rmatch forallb].
  destruct (Ascii.eqb "_" c); [|reflexivity]. apply star_match_at_end.
Qed.

(** After the start of the text only [_+$] can match: what is left is
    cut where the underscores run to the end. *)
Lemma trim_edges_inner (f : nat) (s : chars) :
  (List.length s <= f)%nat ->
  trim_edges_from f false s = rstrip_by (Ascii.eqb "_") s.
Proof.
  revert s. induction f as [|f IH]; intros s Hlen.
  - destruct s; [reflexivity | simpl in Hlen; lia].
  - destruct s as [|c s]; [reflexivity|].
    cbn [trim_edges_from]. rewrite edge_match_inner, rstrip_by_cons.
    destruct (forallb (Ascii.eqb "_") (c :: s)).
    + apply trim_edges_from_nil.
    + f_equal. apply IH. simpl in Hlen. lia.
Qed.

(** The two replacements of the page are [strip("_")]. *)
Lemma trim_edges_strip (s : chars) : trim_edges s = strip_char "_" s.
Proof.
  unfold trim_edges, strip_char, strip_by, lstrip_by.
  destruct s as [|c s]; [reflexivity|].
  cbn [List.length trim_edges_from drop_while].
  unfold edge_match, UNDERSCORES. cbn [Re.rmatch].
  destruct (Ascii.eqb "_" c) eqn:E.
  - rewrite star_match_total. apply trim_edges_inner, drop_while_length.
  - rewrite rstrip_by_cons. cbn [forallb]. rewrite E. cbn [andb].
    f_equal. now apply trim_edges_inner.
Qed.

Lemma safeFilename_safe_filename (name : chars) :
  safeFilename name = safe_filename_chars name.
Proof.
  unfold safeFilename, safe_filename_chars. now rewrite trim_edges_strip.
Qed.






Lemma staged_copies_kept (keep : chars -> bool) (dst_root : string) (w : walk)
      (src dst : string) :
  (src, dst) ∈ staged_copies keep dst_root w ->
  exists r ds files fn,
    (r, ds, files) ∈ w /\ fn ∈ files /\ keep (ch fn) = true
    /\ src = path_join r fn /\ dst = path_join dst_root fn.
Proof.
  intros H. apply list_elem_of_In in H. unfold staged_copies in H.
  apply in_flat_map in H as ([[r ds] files] & Hw & H).
  apply in_map_iff in H as (fn & E & H). apply filter_In in H as [Hfn Hk].
  injection E as <- <-. exists r, ds, files, fn.
  repeat split; trivial; now apply list_elem_of_In.
Qed.

(* ------------------------------------------------------------------ *)
(** ** Facts about the comparison of binary64 numbers                 *)
(* ------------------------------------------------------------------ *)

Lemma SFcompare_antisym (f g : spec_float) :
  SFcompare g f = option_map CompOpp (SFcompare f g).
Proof.
  destruct f as [s | s | | s m e], g as [s' | s' | | s' m' e']; simpl;
    try reflexivity;
    try (destruct s; reflexivity);
    try (destruct s'; reflexivity);
    try (destruct s, s'; reflexivity).
  f_equal.
  change (PosDef.Pos.compare_cont Eq m' m) with (Pos.compare m' m).
  change (PosDef.Pos.compare_cont Eq m m') with (Pos.compare m m').
  rewrite (Z.compare_antisym e e'), (Pos.compare_antisym m m').
  destruct s, s', (e ?= e')%Z, (m ?= m')%positive; reflexivity.
Qed.

Lemma SFcompare_refl (f : spec_float) :
  f <> S754_nan -> SFcompare f f = Some Eq.
Proof.
  destruct f as [s | s | | s m e]; simpl; intros H;
    try reflexivity; try contradiction.
  - now destruct s.
  - rewrite Z.compare_refl.
    change (PosDef.Pos.compare_cont Eq m m) with (Pos.compare m m).
    rewrite Pos.compare_refl. now destruct s.
Qed.

Lemma is_nan_spec (x : float) :
  PrimFloat.is_nan x = false <-> Prim2SF x <> S754_nan.
Proof.
  unfold PrimFloat.is_nan. rewrite FloatAxioms.eqb_spec. unfold SFeqb.
  split.
  - intros H E. rewrite E in H. discriminate.
  - intros H. now rewrite (SFcompare_refl _ H).
Qed.

Lemma SFcompare_total (f g : spec_float) :
  f <> S754_nan -> g <> S754_nan -> exists c, SFcompare f g = Some c.
Proof.
  destruct f, g; simpl; intros Hf Hg; try contradiction; eauto.
Qed.

Lemma leb_refl (a : float) :
  PrimFloat.is_nan a = false -> PrimFloat.leb a a = true.
Proof.
  intros H. apply is_nan_spec in H. rewrite leb_spec. unfold SFleb.
  now rewrite (SFcompare_refl _ H).
Qed.

Lemma ltb_false_leb (a b : float) :
  PrimFloat.is_nan a = false -> PrimFloat.is_nan b = false ->
  PrimFloat.ltb a b = false -> PrimFloat.leb b a = true.
Proof.
  intros Ha Hb. apply is_nan_spec in Ha, Hb.
  rewrite ltb_spec, leb_spec. unfold SFltb, SFleb.
  rewrite (SFcompare_antisym (Prim2SF a) (Prim2SF b)).
  destruct (SFcompare_total _ _ Ha Hb) as [c ->]. simpl.
  destruct c; simpl; congruence.
Qed.

Lemma ltb_antisym (a b : float) :
  PrimFloat.ltb a b = true -> PrimFloat.ltb b a = false.
Proof.
  rewrite !ltb_spec. unfold SFltb.
  rewrite (SFcompare_antisym (Prim2SF a) (Prim2SF b)).
  destruct (SFcompare _ _) as [[]|]; simpl; congruence.
Qed.

Lemma leb_not_nan (a b : float) :
  PrimFloat.leb a b = true ->
  PrimFloat.is_nan a = false /\ PrimFloat.is_nan b = false.
Proof.
  rewrite leb_spec, !is_nan_spec. unfold SFleb. intros H.
  split; intros E; rewrite E in H;
    [|destruct (Prim2SF a)]; simpl in H; discriminate.
Qed.

Lemma ltb_not_nan (a b : float) :
  PrimFloat.ltb a b = true ->
  PrimFloat.is_nan a = false /\ PrimFloat.is_nan b = false.
Proof. intros H. now apply leb_not_nan, ltb_leb. Qed.

(** [Math.min] and [Math.max] of two numbers return one of them, the
    one the other is not below, resp. not above. *)
Lemma Math_min_spec (a b : float) :
  PrimFloat.is_nan a = false -> PrimFloat.is_nan b = false ->
  (Js.Math_min a b = a \/ Js.Math_min a b = b)
  /\ PrimFloat.leb (Js.Math_min a b) a = true
  /\ PrimFloat.leb (Js.Math_min a b) b = true.
Proof.
  intros Ha Hb. unfold Js.Math_min. rewrite Ha, Hb. cbn [orb].
  destruct (PrimFloat.ltb a b) eqn:A.
  { repeat split; [now left | now apply leb_refl | now apply ltb_leb]. }
  destruct (PrimFloat.ltb b a) eqn:B.
  { repeat split; [now right | now apply ltb_leb | now apply leb_refl]. }
  destruct (PrimFloat.get_sign a).
  - repeat split; [now left | now apply leb_refl | now apply ltb_false_leb].
  - repeat split; [now right | now apply ltb_false_leb | now apply leb_refl].
Qed.

Lemma Math_max_spec (a b : float) :
  PrimFloat.is_nan a = false -> PrimFloat.is_nan b = false ->
  (Js.Math_max a b = a \/ Js.Math_max a b = b)
  /\ PrimFloat.leb a (Js.Math_max a b) = true
  /\ PrimFloat.leb b (Js.Math_max a b) = true.
Proof.
  intros Ha Hb. unfold Js.Math_max. rewrite Ha, Hb. cbn [orb].
  destruct (PrimFloat.ltb a b) eqn:A.
  { repeat split; [now right | now apply ltb_leb | now apply leb_refl]. }
  destruct (PrimFloat.ltb b a) eqn:B.
  { repeat split; [now left | now apply leb_refl | now apply ltb_leb]. }
  destruct (PrimFloat.get_sign a).
  - repeat split; [now right | now apply ltb_false_leb | now apply leb_refl].
  - repeat split; [now left | now apply leb_refl | now apply ltb_false_leb].
Qed.

(** [clamp] on bounds in order: NaN for NaN, otherwise a number between
    the bounds, and the argument itself when it lies strictly between
    them. *)
Lemma clamp_range (x lo hi : float) :
  PrimFloat.leb lo hi = true ->
  (PrimFloat.is_nan x = true -> PrimFloat.is_nan (Js.clamp x lo hi) = true)
  /\ (PrimFloat.is_nan x = false ->
      PrimFloat.leb lo (Js.clamp x lo hi) = true
      /\ PrimFloat.leb (Js.clamp x lo hi) hi = true)
  /\ (PrimFloat.ltb lo x = true -> PrimFloat.ltb x hi = true ->
      Js.clamp x lo hi = x).
Proof.
  intros Hb. destruct (leb_not_nan _ _ Hb) as [Hlo Hhi]. unfold Js.clamp.
  split; [|split].
  - intros Hx. unfold Js.Math_min. rewrite Hx, orb_true_r.
    unfold Js.Math_max. rewrite orb_true_r. reflexivity.
  - intros Hx.
    destruct (Math_min_spec hi x Hhi Hx) as (Hm & Hm1 & Hm2).
    assert (PrimFloat.is_nan (Js.Math_min hi x) = false) as Hn
        by (destruct Hm as [-> | ->]; assumption).
    destruct (Math_max_spec lo _ Hlo Hn) as (Hr & Hr1 & Hr2).
    split; [exact Hr1|]. destruct Hr as [-> | ->]; assumption.
  - intros H1 H2.
    destruct (ltb_not_nan _ _ H1) as [_ Hx].
    assert (Js.Math_min hi x = x) as ->.
    { unfold Js.Math_min. rewrite Hhi, Hx, (ltb_antisym _ _ H2), H2.
      reflexivity. }
    unfold Js.Math_max. now rewrite Hlo, Hx, H1.
Qed.

(* ------------------------------------------------------------------ *)
(** * Further properties: the canonicaliser                           *)
(* ------------------------------------------------------------------ *)

Lemma avoids_contains (a : ascii) (s : chars) :
  avoids a s <-> contains s [a] = false.
Proof.
  split.
  - intros H. destruct (contains s [a]) eqn:E; [|reflexivity].
    apply contains_spec in E as (u & w & ->).
    apply Forall_app in H as [_ H]. apply Forall_inv in H.
    now rewrite Ascii.eqb_refl in H.
  - intros H. apply Forall_forall. intros c Hc.
    destruct (Ascii.eqb c a) eqn:E; [|reflexivity].
    apply Ascii.eqb_eq in E. subst c.
    apply list_elem_of_split in Hc as (u & w & ->).
    assert (contains (u ++ a :: w) [a] = true) as H'
        by (apply contains_spec; now exists u, w).
    congruence.
Qed.

Lemma no_lead_startswith (a : ascii) (s : chars) :
  no_lead (Ascii.eqb a) s -> startswith s [a] = false.
Proof.
  destruct s as [|c r]; [reflexivity|]. cbn. now intros ->.
Qed.

Lemma basename_suffix (s : chars) : exists w, s = w ++ basename s.
Proof.
  unfold basename. exists (rev (drop_while (fun c => negb (Ascii.eqb c "/")) (rev s))).
  rewrite <- rev_app_distr, take_drop_while. symmetry. apply rev_involutive.
Qed.

Lemma occurs_in_segment (pat s : chars) :
  occurs pat (basename (strip s)) -> occurs pat s.
Proof.
  intros (u & w & E).
  destruct (strip_by_infix is_space s) as (u1 & w1 & Hs).
  destruct (basename_suffix (strip s)) as [u2 Hb].
  exists (u1 ++ u2 ++ u), (w ++ w1).
  rewrite Hs at 1. fold (strip s). rewrite Hb at 1. rewrite E.
  now rewrite <- !app_assoc.
Qed.

(** X1.  Every base id the canonicaliser returns is free of path
    separators, of blanks and of doubled underscores, and neither
    starts nor ends with an underscore. *)
Theorem base_id_shape (s : string) :
  let b := ch (fst (_normalize_id_and_ev s)) in
  contains b (ch "/") = false
  /\ contains b (ch " ") = false
  /\ contains b (ch "__") = false
  /\ startswith b (ch "_") = false
  /\ endswith b (ch "_") = false.
Proof.
  cbv zeta. rewrite normalize_id_fst.
  destruct (normalize_chars_shape (ch s)) as [H1 H2 H3 H4 H5].
  repeat split.
  - exact (proj1 (avoids_contains "/" _) H1).
  - exact (proj1 (avoids_contains " " _) H2).
  - exact H3.
  - exact (no_lead_startswith "_" _ H4).
  - exact (no_lead_startswith "_" _ H5).
Qed.

(** X2.  The exposure tag the canonicaliser returns is the empty string
    or one of [ev-00], [ev-25], [ev-50], and a tag that is returned
    occurs in the input. *)
Theorem ev_tag_range (s : string) :
  let ev := snd (_normalize_id_and_ev s) in
  (ev = "" \/ ev = "ev-00" \/ ev = "ev-25" \/ ev = "ev-50")%string
  /\ (ev <> ""%string -> occurs (ch ev) (ch s)).
Proof.
  cbv zeta. unfold _normalize_id_and_ev. rewrite normalize_chars_eq. cbn [snd].
  set (seg := basename (strip (ch s))).
  assert (forall tag, contains seg tag = true -> occurs tag (ch s)) as Hocc.
  { intros tag H. apply occurs_in_segment, contains_spec, H. }
  unfold extract_ev_tag_chars, EV_TAGS.
  destruct seg as [|c seg'] eqn:Eseg; [split; [now left | now intros []]|].
  rewrite <- Eseg in *. cbn [first_contained].
  destruct (contains seg (ch "ev-00")) eqn:E0.
  { split; [right; now left | intros _; now apply Hocc]. }
  destruct (contains seg (ch "ev-25")) eqn:E1.
  { split; [right; right; now left | intros _; now apply Hocc]. }
  destruct (contains seg (ch "ev-50")) eqn:E2.
  { split; [right; right; now right | intros _; now apply Hocc]. }
  split; [now left | now intros []].
Qed.

Lemma ev_tag_range_witness :
  snd (_normalize_id_and_ev "out/R2_a_ev-25.json") <> ""%string
  /\ occurs (ch (snd (_normalize_id_and_ev "out/R2_a_ev-25.json")))
       (ch "out/R2_a_ev-25.json").
Proof.
  assert (snd (_normalize_id_and_ev "out/R2_a_ev-25.json") <> ""%string) as H
      by (vm_compute; discriminate).
  split; [exact H|].
  exact (proj2 (ev_tag_range "out/R2_a_ev-25.json") H).
Defined.

(** X3.  An input made of whitespace only (the empty string included)
    has the empty base id and the empty tag, and the joiner never looks
    such a candidate up in the table. *)
Theorem blank_input_empty_id (s : string) :
  Forall (fun c => is_space c = true) (ch s) ->
  _normalize_id_and_ev s = (""%string, ""%string)
  /\ forall repr conf_map rk,
       lookup_candidate repr conf_map rk (VStr s) = None.
Proof.
  intros H.
  assert (_normalize_id_and_ev s = (""%string, ""%string)) as E.
  { unfold _normalize_id_and_ev. rewrite normalize_chars_eq.
    assert (strip (ch s) = []) as ->; [|reflexivity].
    unfold strip, strip_by, lstrip_by.
    rewrite <- (app_nil_r (ch s)), (drop_while_app_all is_space _ [] H).
    reflexivity. }
  split; [exact E|]. intros repr conf_map rk. unfold lookup_candidate.
  destruct (truthy (VStr s)); [|reflexivity]. cbn [negb py_str].
  now rewrite E.
Qed.

Lemma blank_input_empty_id_witness :
  Forall (fun c => is_space c = true) (ch "  ")
  /\ _normalize_id_and_ev "  " = (""%string, ""%string).
Proof.
  assert (Forall (fun c => is_space c = true) (ch "  ")) as H
      by (repeat constructor).
  split; [exact H|]. exact (proj1 (blank_input_empty_id "  " H)).
Defined.

(** X4.  Only the final path segment counts: for a name without [/]
    that does not start with whitespace, [dir/name] and [name] have the
    same base id and tag, whatever [dir] is. *)
Theorem directories_ignored (dir name : string) :
  contains (ch name) (ch "/") = false ->
  no_lead is_space (ch name) ->
  _normalize_id_and_ev (dir ++ "/" ++ name) = _normalize_id_and_ev name.
Proof.
  intros Hslash Hlead. unfold _normalize_id_and_ev.
  rewrite !normalize_chars_eq, !ch_app.
  change (ch "/" ++ ch name) with ("/"%char :: ch name).
  rewrite last_segment_of_path; [reflexivity | | exact Hlead].
  exact (proj2 (avoids_contains "/" _) Hslash).
Qed.

Lemma directories_ignored_witness :
  contains (ch "R2_a b_ev-25.json") (ch "/") = false
  /\ no_lead is_space (ch "R2_a b_ev-25.json")
  /\ _normalize_id_and_ev " out/ev-00/R2_a b_ev-25.json"
     = _normalize_id_and_ev "R2_a b_ev-25.json".
Proof.
  split; [reflexivity|]. split; [reflexivity|].
  exact (directories_ignored " out/ev-00" "R2_a b_ev-25.json" eq_refl eq_refl).
Defined.

(* ------------------------------------------------------------------ *)
(** * Further properties: [safe_filename]                             *)
(* ------------------------------------------------------------------ *)

(** X5.  [safe_filename] never returns the empty string; what it
    returns is made of the characters [A-Za-z0-9._-] only and neither
    starts nor ends with an underscore. *)
Theorem safe_filename_shape (name : string) :
  let r := ch (safe_filename name) in
  safe_filename name <> ""%string
  /\ Forall (fun c => is_safe_char c = true) r
  /\ startswith r (ch "_") = false
  /\ endswith r (ch "_") = false.
Proof.
  cbv zeta. unfold safe_filename. rewrite ch_of_chars.
  destruct (safe_filename_chars_safe (ch name)) as [H1 H2 H3 H4].
  repeat split.
  - intros E. apply (f_equal ch) in E. rewrite ch_of_chars in E.
    now apply H1.
  - exact H2.
  - exact (no_lead_startswith "_" _ H3).
  - exact (no_lead_startswith "_" _ H4).
Qed.

(** X6.  [safe_filename] is idempotent: a name it has returned is
    returned unchanged. *)
Theorem safe_filename_idempotent (name : string) :
  safe_filename (safe_filename name) = safe_filename name.
Proof.
  unfold safe_filename. rewrite ch_of_chars.
  now rewrite (safe_filename_chars_id _ (safe_filename_chars_safe (ch name))).
Qed.

(* ------------------------------------------------------------------ *)
(** * Further properties: [build_basename_index]                      *)
(* ------------------------------------------------------------------ *)

(** X7.  The index maps a file name to the path of its first occurrence
    in the order of the walk: later directories holding a file of the
    same name never replace it, a name that occurs nowhere is not a
    key, and every entry is a file of the walk joined to its
    directory. *)
Theorem index_first_occurrence (w : walk) (fn : string) :
  (forall before r ds files after,
      w = before ++ (r, ds, files) :: after ->
      fn ∈ files ->
      Forall (fun e : string * list string * list string => fn ∉ e.2) before ->
      build_basename_index w !! fn = Some (path_join r fn))
  /\ (Forall (fun e : string * list string * list string => fn ∉ e.2) w ->
      build_basename_index w !! fn = None)
  /\ (forall p, build_basename_index w !! fn = Some p ->
        exists r ds files,
          (r, ds, files) ∈ w /\ fn ∈ files /\ p = path_join r fn).
Proof.
  rewrite build_index_lookup. repeat split.
  - intros before r ds files after -> Hfn Hbefore.
    unfold walk_files. rewrite flat_map_app. cbn [flat_map].
    rewrite !assoc_first_app. fold (walk_files before).
    rewrite (assoc_first_none fn before Hbefore), assoc_first_files.
    now rewrite bool_decide_eq_true_2.
  - apply assoc_first_none.
  - intros p H. apply assoc_first_some in H. now apply walk_files_elem.
Qed.

Lemma index_first_occurrence_witness :
  let w : walk :=
    [ ("img"%string, ["a"; "b"]%string, ["x.png"]%string);
      ("img/a"%string, [], ["p.png"; "x.png"]%string);
      ("img/b"%string, [], ["p.png"]%string) ] in
  build_basename_index w !! "p.png"%string = Some "img/a/p.png"%string.
Proof.
  cbv zeta.
  refine (proj1 (index_first_occurrence _ "p.png")
            [("img"%string, ["a"; "b"]%string, ["x.png"]%string)]
            "img/a"%string [] ["p.png"; "x.png"]%string
            [("img/b"%string, [], ["p.png"]%string)] eq_refl _ _).
  - constructor.
  - constructor; [|constructor]. cbn.
    intros H. apply list_elem_of_singleton in H. discriminate.
Defined.

(** X8.  A path found in the index under a file name (a name without
    [/]) has that name as its final segment: what is looked up by
    basename is found under that basename. *)
Theorem index_path_names_file (w : walk) (fn p : string) :
  build_basename_index w !! fn = Some p ->
  contains (ch fn) (ch "/") = false ->
  basename (ch p) = ch fn.
Proof.
  rewrite build_index_lookup. intros H Hfn.
  apply assoc_first_some, walk_files_elem in H as (r & ds & files & _ & _ & ->).
  unfold path_join. rewrite ch_of_chars.
  apply basename_path_join. exact (proj2 (avoids_contains "/" _) Hfn).
Qed.

Lemma index_path_names_file_witness :
  build_basename_index [("img/a/"%string, [], ["p.png"]%string)] !! "p.png"%string
  = Some "img/a/p.png"%string
  /\ basename (ch "img/a/p.png") = ch "p.png".
Proof.
  assert (build_basename_index [("img/a/"%string, [], ["p.png"]%string)]
            !! "p.png"%string = Some "img/a/p.png"%string) as H
      by (vm_compute; reflexivity).
  split; [exact H|].
  exact (index_path_names_file _ "p.png" "img/a/p.png" H eq_refl).
Defined.

(* ------------------------------------------------------------------ *)
(** * Further properties: the loader of the quality report            *)
(* ------------------------------------------------------------------ *)

Section LoaderExtras.

Variable float_of_string : string -> option float.
Variable repr : pyval -> string.

(** X9.  When the loader goes through the report, every row is counted
    exactly once: [kept + skipped_ev + skipped_rank] is the number of
    rows. *)
Theorem loader_counts_rows (desired_ev : string) (E_good E_bad : float)
        (rows : list sample) (conf_map : conf_table) (st : load_stats) :
  load_rows float_of_string repr desired_ev E_good E_bad rows (∅, no_stats)
  = Some (conf_map, st) ->
  (kept st + skipped_ev st + skipped_rank st = List.length rows)%nat.
Proof.
  intros H. apply load_rows_inv in H as (fates & HF & E).
  pose proof (apply_fates_stats fates (∅, no_stats)) as Hs.
  rewrite <- E in Hs. cbn [snd] in Hs. unfold total_rows in Hs.
  cbn [no_stats kept skipped_ev skipped_rank] in Hs.
  apply Forall2_length in HF. lia.
Qed.

(** X10.  Every confidence in a table the loader returns lies between
    [0.0] and [1.0], whatever the report holds. *)
Theorem loaded_scores_in_unit_interval
        (csv_path : string) (report : option (list sample))
        (desired_ev : string) (E_good E_bad : float) (conf_map : conf_table) :
  load_confidence_map_by_id_and_rank float_of_string repr csv_path report
    desired_ev E_good E_bad = Some conf_map ->
  forall key v, conf_map !! key = Some v -> unit_score v.
Proof. apply loaded_table_unit_scores. Qed.

(** X11.  After the join against a table the loader returned, the
    [confidence] of a sample is [None] or a float between [0.0] and
    [1.0]. *)
Theorem joined_confidence_in_unit_interval
        (csv_path : string) (report : option (list sample))
        (desired_ev : string) (E_good E_bad : float) (conf_map : conf_table)
        (d : sample) :
  load_confidence_map_by_id_and_rank float_of_string repr csv_path report
    desired_ev E_good E_bad = Some conf_map ->
  join_confidence float_of_string repr conf_map d !! "confidence"%string
  = Some VNone
  \/ exists v,
       join_confidence float_of_string repr conf_map d !! "confidence"%string
       = Some (VFloat v) /\ unit_score v.
Proof.
  intros Hload. unfold join_confidence. rewrite lookup_insert_eq.
  destruct (find_confidence float_of_string repr conf_map d) as [v|] eqn:E;
    [|now left].
  right. exists v. split; [reflexivity|].
  unfold find_confidence in E. apply first_some_match in E
    as (cand & before & after & _ & Hc & _).
  unfold lookup_candidate in Hc.
  destruct (negb (truthy cand)); [discriminate|].
  destruct (String.eqb _ ""); [discriminate|].
  exact (loaded_table_unit_scores _ _ _ _ _ _ _ _ Hload _ _ Hc).
Qed.

(** X12.  For a key that several rows are kept under, the last of them
    in the report gives the table its entry. *)
Theorem loader_last_row_wins (desired_ev : string) (E_good E_bad : float)
        (before after : list sample) (row : sample)
        (key : string * Z) (c : float) (conf_map : conf_table) (st : load_stats) :
  load_rows float_of_string repr desired_ev E_good E_bad
    (before ++ row :: after) (∅, no_stats) = Some (conf_map, st) ->
  row_fate_of float_of_string repr desired_ev E_good E_bad row
  = Some (Kept key c) ->
  Forall (fun r => forall c',
            row_fate_of float_of_string repr desired_ev E_good E_bad r
            <> Some (Kept key c')) after ->
  conf_map !! key = Some c.
Proof.
  intros H Hrow Hafter. apply load_rows_inv in H as (fates & HF & E).
  apply (f_equal fst) in E. cbn [fst] in E. subst conf_map.
  apply Forall2_app_inv_l in HF as (f1 & f2' & _ & HF2 & ->).
  apply Forall2_cons_inv_l in HF2 as (f & f2 & Hf & HF2 & ->).
  rewrite Hrow in Hf. injection Hf as <-.
  rewrite apply_fates_lookup, last_kept_app. cbn [last_kept].
  rewrite last_kept_none.
  - now rewrite bool_decide_eq_true_2.
  - clear -HF2 Hafter. induction HF2 as [|r f' rest fs Hr _ IH]; [constructor|].
    constructor.
    + intros c' ->. exact (Forall_inv Hafter c' Hr).
    + apply IH. exact (Forall_inv_tail Hafter).
Qed.

(** X13.  Every entry of the table comes from a row of the report: a
    row whose rank and canonical id are the key, whose score is the
    entry and, when an exposure tag is asked for, whose tag is that
    one. *)
Theorem loader_entries_come_from_rows
        (desired_ev : string) (E_good E_bad : float) (rows : list sample)
        (conf_map : conf_table) (st : load_stats) (key : string * Z) (c : float) :
  load_rows float_of_string repr desired_ev E_good E_bad rows (∅, no_stats)
  = Some (conf_map, st) ->
  conf_map !! key = Some c ->
  exists row,
    row ∈ rows
    /\ row_rank float_of_string row = Some key.2
    /\ (row_id repr row).1 = key.1
    /\ (desired_ev = ""%string \/ (row_id repr row).2 = desired_ev)
    /\ confidence_from_row float_of_string row E_good E_bad = Some c.
Proof.
  intros H Hkey. apply load_rows_inv in H as (fates & HF & E).
  apply (f_equal fst) in E. cbn [fst] in E. subst conf_map.
  rewrite apply_fates_lookup in Hkey. cbn [fst] in Hkey.
  rewrite lookup_empty in Hkey.
  destruct (last_kept key fates) as [c'|] eqn:L; [|discriminate].
  injection Hkey as ->. apply last_kept_elem in L.
  apply list_elem_of_lookup in L as [i Hi].
  destruct (Forall2_lookup_r _ _ _ _ _ HF Hi) as (row & Hrow & Hfate).
  exists row. split; [now apply list_elem_of_lookup_2 in Hrow|].
  destruct (kept_row_facts _ _ _ _ _ row key c Hfate) as (H1 & H2 & H3 & H4).
  repeat split; trivial. now apply wrong_ev_false.
Qed.

(** X14.  Without a report (no path given, or no file at the path) the
    loader returns the empty table, and the join against it gives every
    sample the confidence [None]. *)
Theorem missing_report_no_confidence
        (csv_path : string) (report : option (list sample))
        (desired_ev : string) (E_good E_bad : float) :
  csv_path = ""%string \/ report = None ->
  load_confidence_map_by_id_and_rank float_of_string repr csv_path report
    desired_ev E_good E_bad = Some ∅
  /\ forall d : sample,
       join_confidence float_of_string repr ∅ d !! "confidence"%string
       = Some VNone.
Proof.
  intros H. split.
  - unfold load_confidence_map_by_id_and_rank.
    destruct H as [-> | ->]; [reflexivity|].
    now destruct (String.eqb csv_path "").
  - intros d. unfold join_confidence. rewrite lookup_insert_eq.
    assert (find_confidence float_of_string repr ∅ d = None) as ->;
      [|reflexivity].
    apply first_some_none. apply Forall_forall. intros cand _.
    unfold lookup_candidate. destruct (negb (truthy cand)); [reflexivity|].
    destruct (String.eqb _ ""); [reflexivity | apply lookup_empty].
Qed.

(** X15.  A row without a [rank] field is entered at rank [0] (the
    default of the loader is the string ["0"]), while a sample without
    a [rank] field is looked up at rank [1]: alone in the report, such
    a row gives such a sample no confidence. *)
Theorem missing_ranks_never_meet
        (desired_ev : string) (E_good E_bad : float) (row d : sample)
        (conf_map : conf_table) (st : load_stats) :
  float_of_string "0" = Some 0%float ->
  row !! "rank"%string = None ->
  d !! "rank"%string = None ->
  load_rows float_of_string repr desired_ev E_good E_bad [row] (∅, no_stats)
  = Some (conf_map, st) ->
  row_rank float_of_string row = Some 0%Z
  /\ sample_rank float_of_string d = 1%Z
  /\ find_confidence float_of_string repr conf_map d = None.
Proof.
  intros Hzero Hrow Hd Hload.
  assert (row_rank float_of_string row = Some 0%Z) as Hrk.
  { unfold row_rank. rewrite Hrow. cbn [from_option Datatypes.id py_float].
    rewrite Hzero. reflexivity. }
  assert (sample_rank float_of_string d = 1%Z) as Hsr.
  { unfold sample_rank. rewrite Hd. reflexivity. }
  split; [exact Hrk|]. split; [exact Hsr|].
  apply load_rows_inv in Hload as (fates & HF & E).
  apply (f_equal fst) in E. cbn [fst] in E. subst conf_map.
  apply Forall2_cons_inv_l in HF as (f & f2 & Hf & HF2 & ->).
  apply Forall2_nil_inv_l in HF2. subst f2.
  unfold find_confidence. rewrite Hsr.
  apply first_some_none. apply Forall_forall. intros cand _.
  unfold lookup_candidate. destruct (negb (truthy cand)); [reflexivity|].
  destruct (String.eqb _ ""); [reflexivity|].
  rewrite apply_fates_lookup. cbn [last_kept fst]. rewrite lookup_empty.
  destruct f as [| | k c]; try reflexivity.
  destruct (bool_decide _) eqn:B; [|reflexivity].
  apply bool_decide_eq_true in B. subst k.
  destruct (kept_row_facts _ _ _ _ _ row _ c Hf) as (H1 & _).
  cbn [snd] in H1. rewrite Hrk in H1. discriminate.
Qed.

End LoaderExtras.

Lemma report_rows_loaded :
  load_rows report_float_of_string (fun _ => ""%string) "ev-25" 1 8
    report_rows (∅, no_stats)
  = Some (report_table, {| kept := 2; skipped_ev := 1; skipped_rank := 1 |}).
Proof. vm_compute. reflexivity. Qed.

Lemma report_loaded :
  load_confidence_map_by_id_and_rank report_float_of_string (fun _ => ""%string)
    "quality.csv" (Some report_rows) "ev-25" 1 8 = Some report_table.
Proof. vm_compute. reflexivity. Qed.

Lemma loader_counts_rows_witness :
  load_rows report_float_of_string (fun _ => ""%string) "ev-25" 1 8
    report_rows (∅, no_stats)
  = Some (report_table, {| kept := 2; skipped_ev := 1; skipped_rank := 1 |})
  /\ (2 + 1 + 1 = List.length report_rows)%nat.
Proof.
  split; [exact report_rows_loaded|].
  exact (loader_counts_rows _ _ _ _ _ _ _ _ report_rows_loaded).
Defined.

Lemma loaded_scores_in_unit_interval_witness :
  report_table !! ("Artist_Name"%string, 2%Z) = Some 0.5%float
  /\ unit_score 0.5%float.
Proof.
  assert (report_table !! ("Artist_Name"%string, 2%Z) = Some 0.5%float) as H
      by (vm_compute; reflexivity).
  split; [exact H|].
  exact (loaded_scores_in_unit_interval _ _ _ _ _ _ _ _ report_loaded _ _ H).
Defined.

Lemma joined_confidence_in_unit_interval_witness :
  join_confidence report_float_of_string (fun _ => ""%string) report_table
    (artist_sample (VStr "2")) !! "confidence"%string = Some VNone
  \/ exists v,
       join_confidence report_float_of_string (fun _ => ""%string) report_table
         (artist_sample (VStr "2")) !! "confidence"%string = Some (VFloat v)
       /\ unit_score v.
Proof.
  exact (joined_confidence_in_unit_interval _ _ _ _ _ _ _ _
           (artist_sample (VStr "2")) report_loaded).
Defined.

Lemma loader_last_row_wins_witness :
  report_table !! ("Artist_Name"%string, 2%Z) = Some 0.5%float.
Proof.
  refine (loader_last_row_wins report_float_of_string (fun _ => ""%string)
            "ev-25" 1 8
            [ report_row "R2: Artist_Name_ev-25_points.json" "2" "0.25" "1";
              report_row "Other_ev-00_points.json" "1" "0.5" "1";
              report_row "Bad_ev-25.json" "two" "0.5" "1" ]
            [] (report_row "out/Artist_Name_ev-25.json" "2" "0.5" "1")
            ("Artist_Name"%string, 2%Z) 0.5%float report_table _
            report_rows_loaded _ _).
  - vm_compute. reflexivity.
  - constructor.
Defined.

Lemma loader_entries_come_from_rows_witness :
  exists row,
    row ∈ report_rows
    /\ row_rank report_float_of_string row = Some 2%Z
    /\ (row_id (fun _ => ""%string) row).1 = "Artist_Name"%string
    /\ ("ev-25"%string = ""%string
        \/ (row_id (fun _ => ""%string) row).2 = "ev-25"%string)
    /\ confidence_from_row report_float_of_string row 1 8 = Some 0.5%float.
Proof.
  refine (loader_entries_come_from_rows _ _ _ _ _ _ _ _
            ("Artist_Name"%string, 2%Z) 0.5%float report_rows_loaded _).
  vm_compute. reflexivity.
Defined.

Lemma missing_report_no_confidence_witness :
  load_confidence_map_by_id_and_rank (fun _ => None) (fun _ => ""%string)
    "quality.csv" None "ev-25" 1 8 = Some ∅.
Proof.
  exact (proj1 (missing_report_no_confidence (fun _ => None)
                  (fun _ => ""%string) "quality.csv" None "ev-25" 1 8
                  (or_intror eq_refl))).
Defined.

Lemma missing_ranks_never_meet_witness :
  find_confidence report_float_of_string (fun _ => ""%string)
    {[ ("Artist_Name"%string, 0%Z) := 0.5%float ]} rankless_sample = None.
Proof.
  refine (proj2 (proj2 (missing_ranks_never_meet report_float_of_string
            (fun _ => ""%string) "" 1 8 rankless_row rankless_sample
            {[ ("Artist_Name"%string, 0%Z) := 0.5%float ]}
            {| kept := 1; skipped_ev := 0; skipped_rank := 0 |}
            eq_refl _ _ _))).
  - vm_compute. reflexivity.
  - vm_compute. reflexivity.
  - vm_compute. reflexivity.
Defined.

(* ------------------------------------------------------------------ *)
(** * Further properties: the passes of [main]                        *)
(* ------------------------------------------------------------------ *)

Section PassExtras.

Variable float_of_string : string -> option float.
Variable repr : pyval -> string.


(** X17.  The join and the direction loop do not interfere: whether a
    sample is used, and what its direction fields become, is the same
    with and without the table; the join only adds [confidence]. *)
Theorem join_then_direction (conf_map : conf_table) (no_normalize : bool)
        (d : sample) :
  let conf :=
    match find_confidence float_of_string repr conf_map d with
    | Some v => VFloat v
    | None => VNone
    end in
  direction_step float_of_string no_normalize
    (join_confidence float_of_string repr conf_map d)
  = option_map (option_map (fun m : sample => <[ "confidence"%string := conf ]> m))
      (direction_step float_of_string no_normalize d).
Proof. cbv zeta. apply direction_step_after_confidence. Qed.

(** X18.  With normalisation on, a sample that is used had a direction
    [(x, y, z)] of finite magnitude [n] not below [1e-12]; its [x],
    [y], [z] are the components divided by [n], its [dir_norm_raw] is
    [n] (never [None]) and its [dir_src_keys] names the fields read. *)
Theorem normalised_sample_fields (d d' : sample) :
  direction_step float_of_string false d = Some (Some d') ->
  exists x y z src,
    extract_direction_components float_of_string d = (Some (x, y, z), src)
    /\ let n := PrimFloat.sqrt (x * x + y * y + z * z)%float in
       isfinite n = true
       /\ PrimFloat.ltb n EPS = false
       /\ d' !! "x"%string = Some (VFloat (x / n))
       /\ d' !! "y"%string = Some (VFloat (y / n))
       /\ d' !! "z"%string = Some (VFloat (z / n))
       /\ d' !! "dir_norm_raw"%string = Some (VFloat n)
       /\ d' !! "dir_src_keys"%string = Some (VStr src).
Proof.
  rewrite direction_step_spec. intros [= H].
  destruct (extract_direction_components float_of_string d)
    as [[[[x y] z]|] src]; [|discriminate].
  exists x, y, z, src. split; [reflexivity|]. cbv zeta in H |- *.
  set (n := PrimFloat.sqrt _) in *.
  destruct (isfinite n) eqn:F; [|discriminate].
  destruct (PrimFloat.ltb n EPS) eqn:L; [discriminate|].
  cbn [negb orb] in H. injection H as <-. unfold store_direction.
  rewrite F.
  repeat split;
    now rewrite ?lookup_insert_eq, ?lookup_insert_ne, ?lookup_insert_eq
      by discriminate.
Qed.

End PassExtras.

Lemma flat_and_vector_extracted :
  extract_direction_components (fun _ => None) flat_and_vector
  = (Some (0.6, 0, 0.8)%float, "dir_x,dir_y,dir_z"%string).
Proof. vm_compute. reflexivity. Qed.

Lemma flat_and_vector_step :
  let n := PrimFloat.sqrt (0.6 * 0.6 + 0 * 0 + 0.8 * 0.8)%float in
  direction_step (fun _ => None) false flat_and_vector
  = Some (Some (store_direction flat_and_vector (0.6 / n) (0 / n) (0.8 / n) n
                  "dir_x,dir_y,dir_z")).
Proof.
  cbv zeta. rewrite direction_step_spec, flat_and_vector_extracted. cbv zeta.
  assert (negb (isfinite (PrimFloat.sqrt (0.6 * 0.6 + 0 * 0 + 0.8 * 0.8)%float))
          || PrimFloat.ltb (PrimFloat.sqrt (0.6 * 0.6 + 0 * 0 + 0.8 * 0.8)%float) EPS
          = false) as -> by (vm_compute; reflexivity).
  reflexivity.
Qed.


Lemma normalised_sample_fields_witness :
  exists d' x y z src,
    direction_step (fun _ => None) false flat_and_vector = Some (Some d')
    /\ extract_direction_components (fun _ => None) flat_and_vector
       = (Some (x, y, z), src)
    /\ d' !! "dir_norm_raw"%string
       = Some (VFloat (PrimFloat.sqrt (x * x + y * y + z * z)%float)).
Proof.
  pose proof flat_and_vector_step as E. cbv zeta in E.
  destruct (normalised_sample_fields (fun _ => None) flat_and_vector _ E)
    as (x & y & z & src & Hx & _ & _ & _ & _ & _ & Hn & _).
  eexists. exists x, y, z, src. repeat split; eassumption.
Defined.

(* ------------------------------------------------------------------ *)
(** * Further properties: the script of the page                      *)
(* ------------------------------------------------------------------ *)

(** X19.  [escapeHtml] never writes a raw [<], [>], double quote or
    single quote, whatever the text; and a text without [&], [<], [>],
    double quote and single quote is returned as it is. *)
Theorem escapeHtml_no_markup (s : chars) :
  avoids "<" (escapeHtml s)
  /\ avoids ">" (escapeHtml s)
  /\ avoids dquote (escapeHtml s)
  /\ avoids "'" (escapeHtml s)
  /\ (avoids "&" s -> avoids "<" s -> avoids ">" s -> avoids dquote s ->
      avoids "'" s -> escapeHtml s = s).
Proof.
  unfold escapeHtml. repeat split.
  - do 3 (apply replace_all_avoids; [repeat constructor | right]).
    apply replace_all_avoids; [repeat constructor | now left].
  - do 2 (apply replace_all_avoids; [repeat constructor | right]).
    apply replace_all_avoids; [repeat constructor | now left].
  - apply replace_all_avoids; [repeat constructor | right].
    apply replace_all_avoids; [repeat constructor | now left].
  - apply replace_all_avoids; [repeat constructor | now left].
  - intros H1 H2 H3 H4 H5.
    now rewrite (replace_all_id "&" _ s H1), (replace_all_id "<" _ s H2),
      (replace_all_id ">" _ s H3), (replace_all_id dquote _ s H4),
      (replace_all_id "'" _ s H5).
Qed.

Lemma escapeHtml_no_markup_witness :
  avoids "&" (ch "Van Gogh") /\ escapeHtml (ch "Van Gogh") = ch "Van Gogh".
Proof.
  assert (forall a, In a (ch "&<>'") \/ a = dquote -> avoids a (ch "Van Gogh"))
    as H.
  { intros a [[<-|[<-|[<-|[<-|[]]]]] | ->]; repeat constructor. }
  split; [apply H; left; cbn; tauto|].
  apply (proj2 (proj2 (proj2 (proj2 (escapeHtml_no_markup (ch "Van Gogh")))))).
  all: apply H; first [right; reflexivity | left; cbn; tauto].
Defined.

(** X20.  [escapeHtml] loses nothing: two texts with the same escaped
    form are the same text. *)
Theorem escapeHtml_injective (s t : chars) :
  escapeHtml s = escapeHtml t -> s = t.
Proof.
  rewrite !escapeHtml_one_pass. revert t.
  induction s as [|x s IH]; intros [|y t] H; cbn [flat_map] in H.
  - reflexivity.
  - symmetry in H. apply app_eq_nil in H as [H _].
    now destruct (escape_char_nonempty y).
  - apply app_eq_nil in H as [H _]. now destruct (escape_char_nonempty x).
  - apply escape_char_split in H as [-> H]. f_equal. now apply IH.
Qed.

Lemma escapeHtml_injective_witness :
  escapeHtml (ch "a<b") = escapeHtml (ch "a<b") /\ ch "a<b" = ch "a<b".
Proof.
  split; [reflexivity|].
  exact (escapeHtml_injective (ch "a<b") (ch "a<b") eq_refl).
Defined.

(** X21.  [hashString] is a 32-bit unsigned number, so the index
    [hash % 10] is never negative: on a cache that holds palette
    colours, [getArtistColor] always returns one of the ten [MUTED]
    colours (never [undefined]), keeps the cache such, and returns the
    same colour when asked again. *)
Theorem artist_color_defined (cache : gmap (list Z) (option string))
        (artist : list Z) :
  palette_cache cache ->
  (0 <= hashString artist < 2 ^ 32)%Z
  /\ exists color,
       (getArtistColor cache artist).1 = Some color
       /\ color ∈ MUTED
       /\ palette_cache (getArtistColor cache artist).2
       /\ getArtistColor (getArtistColor cache artist).2 artist
          = getArtistColor cache artist.
Proof.
  intros Hcache. split; [apply to_uint32_range|].
  unfold getArtistColor. destruct (cache !! artist) as [c|] eqn:E.
  - destruct (Hcache artist c E) as (color & -> & Hin).
    exists color. cbn [fst snd]. rewrite E. repeat split; assumption.
  - destruct (js_index_muted (Z.rem (hashString artist)
                                (Z.of_nat (List.length MUTED))))
      as (color & Hc & Hin).
    { pose proof (to_uint32_range (foldl hash_step 2166136261%Z artist)) as R.
      apply Z.rem_bound_pos; [apply R | reflexivity]. }
    exists color. cbn [fst snd]. rewrite Hc, lookup_insert_eq.
    repeat split; trivial.
    apply map_Forall_insert_2; [|exact Hcache]. now exists color.
Qed.

Lemma artist_color_defined_witness :
  palette_cache ∅
  /\ exists color,
       (getArtistColor ∅ [86; 97; 110]%Z).1 = Some color /\ color ∈ MUTED.
Proof.
  assert (palette_cache ∅) as H by apply map_Forall_empty.
  split; [exact H|].
  destruct (proj2 (artist_color_defined ∅ [86; 97; 110]%Z H))
    as (color & Hc & Hin & _).
  exists color. split; assumption.
Defined.

(** [toggleRank] without the count: the rank is taken out unless it is
    the only one enabled, and put in when it is not enabled. *)
Lemma toggleRank_cases (enabledRanks : gset Z) (rk : Z) :
  toggleRank enabledRanks rk =
  if decide (rk ∈ enabledRanks) then
    if decide (enabledRanks = {[ rk ]}) then enabledRanks
    else enabledRanks ∖ {[ rk ]}
  else enabledRanks ∪ {[ rk ]}.
Proof.
  unfold toggleRank. destruct (decide (rk ∈ enabledRanks)) as [Hin|Hout].
  - destruct (decide (size (enabledRanks ∖ {[rk]}) = 0%nat)) as [Hz|Hnz].
    + apply size_empty_iff in Hz.
      rewrite decide_True;
        [|apply set_eq; intros x; destruct (decide (x = rk)); set_solver].
      apply set_eq; intros x; destruct (decide (x = rk)); set_solver.
    + apply size_non_empty_iff in Hnz.
      rewrite decide_False; [reflexivity|]. intros ->. set_solver.
  - rewrite decide_False; [reflexivity|].
    intros Hz. apply size_empty_iff in Hz. set_solver.
Qed.

(** X22.  [toggleRank] never leaves the set of enabled ranks empty,
    and on a set that is not empty, toggling the same rank twice gives
    the set back. *)
Theorem toggleRank_keeps_one (enabledRanks : gset Z) (rk : Z) :
  toggleRank enabledRanks rk <> ∅
  /\ (enabledRanks <> ∅ ->
      toggleRank (toggleRank enabledRanks rk) rk = enabledRanks).
Proof.
  rewrite !toggleRank_cases. split.
  - destruct (decide (rk ∈ enabledRanks)) as [Hin|Hout]; [|set_solver].
    destruct (decide (enabledRanks = {[rk]})) as [->|Hn]; [set_solver|].
    intros E. apply Hn. apply set_eq. intros y.
    destruct (decide (y = rk)); set_solver.
  - intros Hne. destruct (decide (rk ∈ enabledRanks)) as [Hin|Hout].
    + destruct (decide (enabledRanks = {[rk]})) as [->|Hn].
      * rewrite decide_True by set_solver. now rewrite decide_True.
      * rewrite decide_False by set_solver.
        apply set_eq; intros x; destruct (decide (x = rk)); set_solver.
    + rewrite decide_True by set_solver.
      rewrite decide_False.
      * apply set_eq; intros x; destruct (decide (x = rk)); set_solver.
      * intros E. apply Hne. apply set_eq. intros y.
        destruct (decide (y = rk)); set_solver.
Qed.

Lemma toggleRank_keeps_one_witness :
  ({[ 1%Z ]} : gset Z) <> ∅
  /\ toggleRank (toggleRank {[ 1%Z ]} 1) 1 = {[ 1%Z ]}.
Proof.
  assert (({[ 1%Z ]} : gset Z) <> ∅) as H by set_solver.
  split; [exact H|].
  exact (proj2 (toggleRank_keeps_one {[ 1%Z ]} 1) H).
Defined.

(** X23.  The page and the Python side sanitise names alike:
    [safeFilename] of the script returns what [safe_filename] returns,
    on every name. *)
Theorem safeFilename_agrees (name : string) :
  string_of_list_ascii (safeFilename (ch name)) = safe_filename name.
Proof. unfold safe_filename. now rewrite safeFilename_safe_filename. Qed.





(** X25.  The argument [angleDegBetween] hands to [Math.acos] is NaN
    when the dot product is NaN and lies between [-1] and [1]
    otherwise, so a product that rounding takes past [1] gives the
    angle [0] and not NaN; a product strictly between [-1] and [1] is
    handed over unchanged. *)
Theorem angle_cosine_range (a b : float * float * float) :
  let d := Js.dot3 a b in
  let c := Js.angle_cosine a b in
  (PrimFloat.is_nan d = true -> PrimFloat.is_nan c = true)
  /\ (PrimFloat.is_nan d = false ->
      PrimFloat.leb (- 1)%float c = true /\ PrimFloat.leb c 1%float = true)
  /\ (PrimFloat.ltb (- 1)%float d = true -> PrimFloat.ltb d 1%float = true ->
      c = d).
Proof.
  cbv zeta. unfold Js.angle_cosine. apply clamp_range. reflexivity.
Qed.

Lemma angle_cosine_range_witness :
  let a := (0.6, 0.48, 0.64)%float in
  PrimFloat.is_nan (Js.dot3 a a) = false
  /\ PrimFloat.leb (Js.angle_cosine a a) 1%float = true.
Proof.
  cbv zeta.
  assert (PrimFloat.is_nan (Js.dot3 (0.6, 0.48, 0.64) (0.6, 0.48, 0.64))%float
          = false) as H by reflexivity.
  split; [exact H|].
  exact (proj2 (proj1 (proj2 (angle_cosine_range (0.6, 0.48, 0.64)%float
                                (0.6, 0.48, 0.64)%float)) H)).
Defined.
